(** * SmartHome-Bench video downloader: a model of [download_videos.py]

    The script reads (title, URL) rows from a CSV file, skips the titles
    whose video file is already in the output directory, and fetches the
    others with [yt-dlp], retrying time-outs and process errors, from one
    thread or from a pool of worker threads that share four progress
    counters behind [progress_lock].

    The Python functions are written once, as programs over the effects
    they perform (a test of the file system, a run of the external
    process, a [with progress_lock:] block, a [print]).  The programs are
    then run in two ways: to completion against a host ([exec], the
    [for] loop of [main]) and one effect at a time by the threads of a
    pool ([pool_step], the [ThreadPoolExecutor] of [main]).  Each way
    comes twice: on a standard output that takes every line ([exec],
    [pool_step]) and on one that may refuse a line ([exec_on],
    [pool_step_on]), where [print] raises.

    What the model takes for granted: in a task, [subprocess.run] and
    [print] are the calls that raise, and they may raise any exception;
    [os.path.exists], the lock and the string operations return.  The
    external process acts on the file system at the moment its run ends.
    A progress line is kept as a record of its parts, not as the string
    that is printed.  Paths are joined as on POSIX.

    What [main] does before the batch ([check_ytdlp], [install_ytdlp],
    [create_output_dir], [read_video_urls]) is written in a state and
    exception monad over a second host, in which [subprocess.run] and
    [Path.mkdir] may raise and [sys.exit] ends the process. *)

From stdpp Require Import base option list strings gmap.
From Stdlib Require Import Lia.

Set Default Proof Using "Type".
Open Scope string_scope.
Open Scope list_scope.
Open Scope nat_scope.

(** * Part I: the model *)

(** ** Configuration *)

Definition CSV_FILE : string := "Videos/Video_url.csv".

Definition OUTPUT_DIR : string := "Videos/Trim_Videos/raw_video".

Definition MAX_RETRIES : nat := 3.

Definition DEFAULT_MAX_WORKERS : nat := 8.

Arguments MAX_RETRIES : simpl never.

(** ** Data *)

(** The exceptions the script tells apart: the two that [subprocess.run]
    raises on a time-out and on a non-zero exit status ([check=True]),
    and any other subclass of [Exception]. *)
Inductive exn : Type :=
| TimeoutExpired
| CalledProcessError (returncode : Z) (stderr : string)
| OtherException (name : string).

(** The module-level counters [success_count], [skip_count], [fail_count]
    and [completed_count]. *)
Record Counters : Type := mkCounters {
  success_count : nat;
  skip_count : nat;
  fail_count : nat;
  completed_count : nat
}.

Definition zero_counters : Counters := mkCounters 0 0 0 0.

(** [{'title': ..., 'url': ...}] *)
Record Video : Type := mkVideo { title : string; url : string }.

(** [{'title': ..., 'status': 'skipped' | 'success' | 'failed'}] *)
Inductive Status : Type := skipped | success | failed.

Record Result : Type := mkResult { res_title : string; status : Status }.

(** What a progress line says after its [[current/total]] prefix. *)
Inductive Message : Type :=
| Downloading
| SuccessfullyDownloaded
| FileNotFoundAfterDownload
| TimeoutRetry (attempt : nat)
| TimeoutAfterRetries
| Retry (attempt : nat)
| FailedToDownload (error_msg : string)
| ErrorDownloading (e : exn)
| Skipping.

(** [print(f"[{current}/{total_videos}] ... {title}", flush=True)] *)
Record Line : Type := mkLine {
  line_current : nat;
  line_total : nat;
  line_msg : Message;
  line_title : string
}.

(** ** Programs over the effects of the script *)

Inductive Eff : Type → Type :=
| OsPathExists (path : string) : Eff bool
| SubprocessRun (cmd : list string) (timeout : nat) : Eff (exn + unit)
| WithProgressLock {A : Type} (body : Counters → A * Counters) : Eff A
| Print (l : Line) : Eff (exn + unit).

Inductive Prog (R : Type) : Type :=
| Ret (r : R)
| Raise (e : exn)
| Vis {A : Type} (eff : Eff A) (k : A → Prog R).

Arguments Ret {R} r.

Arguments Raise {R} e.

Arguments Vis {R A} eff k.

Fixpoint bind {R S : Type} (t : Prog R) (f : R → Prog S) : Prog S :=
  match t with
  | Ret r => f r
  | Raise e => Raise e
  | Vis eff k => Vis eff (λ a, bind (k a) f)
  end.

(** [try: t  except ... as e: handler e]: only [t] is protected, an
    exception raised by the handler itself goes to the caller. *)
Fixpoint try_except {R : Type} (t : Prog R) (handler : exn → Prog R) : Prog R :=
  match t with
  | Ret r => Ret r
  | Raise e => handler e
  | Vis eff k => Vis eff (λ a, try_except (k a) handler)
  end.

#[global] Instance prog_ret : MRet Prog := @Ret.

#[global] Instance prog_bind : MBind Prog := λ _ _ f t, bind t f.

Definition os_path_exists (path : string) : Prog bool :=
  Vis (OsPathExists path) Ret.

(** [subprocess.run(cmd, capture_output=True, text=True, check=True,
    timeout=...)]: the returned [CompletedProcess] is not used. *)
Definition subprocess_run (cmd : list string) (timeout : nat) : Prog unit :=
  Vis (SubprocessRun cmd timeout)
      (λ r, match r with inl e => Raise e | inr u => Ret u end).

Definition with_progress_lock {A : Type} (body : Counters → A * Counters) : Prog A :=
  Vis (WithProgressLock body) Ret.

(** [print(f"[{current}/{total_videos}] ...", flush=True)] returns, or
    raises what writing to [sys.stdout] raises (a [UnicodeEncodeError]
    on a stream that cannot encode the line, a [BrokenPipeError]). *)
Definition print (current total : nat) (msg : Message) (t : string) : Prog unit :=
  Vis (Print (mkLine current total msg t))
      (λ r, match r with inl e => Raise e | inr u => Ret u end).

(** ** Strings and paths *)

Definition startswith (s pre : string) : bool := String.prefix pre s.

Definition endswith (s suf : string) : bool :=
  String.prefix (String.rev suf) (String.rev s).

(** [os.path.join(a, b)] of [posixpath], for two components. *)
Definition os_path_join (a b : string) : string :=
  if startswith b "/" then b
  else if bool_decide (a = "") || endswith a "/" then a +:+ b
  else a +:+ "/" +:+ b.

(** Truth value of [None] or a [str]. *)
Definition truthy (o : option string) : bool :=
  match o with
  | Some (String _ _) => true
  | _ => false
  end.

(** ** The script: one video *)

Definition extensions : list string := [".mp4"; ".mkv"; ".webm"; ".flv"].

(** [for ext in exts: if os.path.exists(join(OUTPUT_DIR, title+ext)):
    return True] and, at the end, [return False]. *)
Fixpoint video_exists_loop (t : string) (exts : list string) : Prog bool :=
  match exts with
  | [] => mret false
  | ext :: exts' =>
      let video_path := os_path_join OUTPUT_DIR (t +:+ ext) in
      b ← os_path_exists video_path;
      if b : bool then mret true else video_exists_loop t exts'
  end.

Definition video_exists (t : string) : Prog bool :=
  video_exists_loop t extensions.

(** The loop of [download_video] that looks for the downloaded file:
    [downloaded_file] is the first path that exists, or stays [None]. *)
Fixpoint find_downloaded_file (t : string) (exts : list string) : Prog (option string) :=
  match exts with
  | [] => mret None
  | ext :: exts' =>
      let potential_file := os_path_join OUTPUT_DIR (t +:+ ext) in
      b ← os_path_exists potential_file;
      if b : bool then mret (Some potential_file) else find_downloaded_file t exts'
  end.

Definition ytdlp_cmd (t u : string) : list string :=
  let output_path := os_path_join OUTPUT_DIR (t +:+ ".%(ext)s") in
  ["yt-dlp"; "-o"; output_path; "--no-playlist";
   "--format"; "best[ext=mp4]/best"; "--no-warnings"; "--quiet"; u].

(** The bodies of the [with progress_lock:] blocks. *)
Definition read_current (c : Counters) : nat * Counters :=
  (completed_count c + 1, c).

Definition count_success (c : Counters) : unit * Counters :=
  (tt, mkCounters (success_count c + 1) (skip_count c) (fail_count c)
                  (completed_count c + 1)).

Definition count_fail (c : Counters) : unit * Counters :=
  (tt, mkCounters (success_count c) (skip_count c) (fail_count c + 1)
                  (completed_count c + 1)).

Definition count_fail_current (c : Counters) : nat * Counters :=
  (completed_count c + 1,
   mkCounters (success_count c) (skip_count c) (fail_count c + 1)
              (completed_count c + 1)).

Definition count_skip (c : Counters) : nat * Counters :=
  (completed_count c + 1,
   mkCounters (success_count c) (skip_count c + 1) (fail_count c)
              (completed_count c + 1)).

(** [str(e)] and [e.stderr[:100] if e.stderr else str(e)]. *)
Definition str_exn (e : exn) : string :=
  match e with
  | TimeoutExpired => "Command timed out"
  | CalledProcessError _ _ => "Command returned non-zero exit status"
  | OtherException name => name
  end.

Definition error_msg (e : exn) : string :=
  match e with
  | CalledProcessError _ (String a s) => String.substring 0 100 (String a s)
  | _ => str_exn e
  end.

(** [download_video(title, url, total_videos, retry_count)], with
    [again] for the call of the function to itself. *)
Definition download_video_body (again : nat → Prog bool) (t u : string)
    (total_videos retry_count : nat) : Prog bool :=
  let cmd := ytdlp_cmd t u in
  try_except
    (current ← with_progress_lock read_current;
     print current total_videos Downloading t;;
     subprocess_run cmd 1800;;
     downloaded_file ← find_downloaded_file t extensions;
     if truthy downloaded_file then
       with_progress_lock count_success;;
       print current total_videos SuccessfullyDownloaded t;;
       mret true
     else
       with_progress_lock count_fail;;
       print current total_videos FileNotFoundAfterDownload t;;
       mret false)
    (λ e,
      match e with
      | TimeoutExpired =>
          current ← with_progress_lock read_current;
          if bool_decide (retry_count < MAX_RETRIES) then
            print current total_videos (TimeoutRetry (retry_count + 1)) t;;
            again (retry_count + 1)
          else
            with_progress_lock count_fail;;
            print current total_videos TimeoutAfterRetries t;;
            mret false
      | CalledProcessError _ _ =>
          current ← with_progress_lock read_current;
          if bool_decide (retry_count < MAX_RETRIES) then
            print current total_videos (Retry (retry_count + 1)) t;;
            again (retry_count + 1)
          else
            with_progress_lock count_fail;;
            print current total_videos (FailedToDownload (error_msg e)) t;;
            mret false
      | OtherException _ =>
          current ← with_progress_lock count_fail_current;
          print current total_videos (ErrorDownloading e) t;;
          mret false
      end).

(** The Python function calls itself with [retry_count + 1] while
    [retry_count < MAX_RETRIES]; [depth] is the number of nested calls
    that are left, and a call beyond it is Python's [RecursionError]. *)
Fixpoint download_video_rec (depth : nat) (t u : string)
    (total_videos retry_count : nat) : Prog bool :=
  match depth with
  | 0 => Raise (OtherException "RecursionError")
  | S depth' =>
      download_video_body (download_video_rec depth' t u total_videos)
        t u total_videos retry_count
  end.

Definition download_video (t u : string) (total_videos retry_count : nat) : Prog bool :=
  download_video_rec (S (MAX_RETRIES - retry_count)) t u total_videos retry_count.

(** [download_video_wrapper(video_info, total_videos)] *)
Definition download_video_wrapper (video_info : Video) (total_videos : nat) : Prog Result :=
  let t := title video_info in
  let u := url video_info in
  b ← video_exists t;
  if b : bool then
    current ← with_progress_lock count_skip;
    print current total_videos Skipping t;;
    mret (mkResult t skipped)
  else
    ok ← download_video t u total_videos 0;
    mret (mkResult t (if ok : bool then success else failed)).

Arguments download_video_rec : simpl never.
Arguments download_video : simpl never.
Arguments download_video_wrapper : simpl never.

(** ** The script: reading the CSV file *)

(** A row of [csv.DictReader]: the fields of the line under the column
    names of the header; a column for which the line has no field holds
    [None]. *)
Abbreviation Row := (gmap string (option string)).

(** A call that returns, or ends the process with [sys.exit(code)]. *)
Inductive Exits (A : Type) : Type :=
| Returns (a : A)
| SysExit (code : nat).

Arguments Returns {A} a.

Arguments SysExit {A} code.

Section ReadVideoUrls.

(** [str.strip] and [str.lower] *)
Variables (strip lower : string → string).

(** The body of the loop over the rows: [continue] ([None]), a video to
    append, or the [AttributeError] of [None.strip()]. *)
Definition read_row (row : Row) : exn + option Video :=
  let title_key := if bool_decide (is_Some (row !! "Title")) then "Title" else "title" in
  let url_key := if bool_decide (is_Some (row !! "URL")) then "URL" else "url" in
  if bool_decide (¬ is_Some (row !! title_key)) || bool_decide (¬ is_Some (row !! url_key))
  then inr None
  else
    match default None (row !! title_key) with
    | None => inl (OtherException "AttributeError")
    | Some title_field =>
        let t := strip title_field in
        match default None (row !! url_key) with
        | None => inl (OtherException "AttributeError")
        | Some url_field =>
            let u := strip url_field in
            if bool_decide (t = "") || bool_decide (u = "") then inr None
            else if bool_decide (lower u = "privacy url") || negb (startswith u "http")
            then inr None
            else inr (Some (mkVideo t u))
        end
    end.

Fixpoint read_rows (rows : list Row) (videos : list Video) : exn + list Video :=
  match rows with
  | [] => inr videos
  | row :: rows' =>
      match read_row row with
      | inl x => inl x
      | inr None => read_rows rows' videos
      | inr (Some video) => read_rows rows' (videos ++ [video])
      end
  end.

(** [read_video_urls()], on the rows of the file, or on no file at all:
    both [except] clauses end the process with status 1. *)
Definition read_video_urls (file : option (list Row)) : Exits (list Video) :=
  match file with
  | None => SysExit 1
  | Some rows =>
      match read_rows rows [] with
      | inr videos => Returns videos
      | inl _ => SysExit 1
      end
  end.

(** The rows that are left out, in the words of the specification. *)

(** The field of a column that goes by one of two names. *)
Definition column (row : Row) (name name' : string) : option (option string) :=
  match row !! name with
  | Some field => Some field
  | None => row !! name'
  end.

(** The trimmed title and URL of a row that has them. *)
Definition row_title (row : Row) : option string :=
  strip <$> mjoin (column row "Title" "title").

Definition row_url (row : Row) : option string :=
  strip <$> mjoin (column row "URL" "url").

Definition excluded (row : Row) : bool :=
  (* the row lacks a title or URL column *)
  bool_decide (column row "Title" "title" = None)
  || bool_decide (column row "URL" "url" = None)
  (* has an empty trimmed title or URL *)
  || bool_decide (row_title row = Some "")
  || bool_decide (row_url row = Some "")
  (* has a URL equal, whatever the case, to "privacy url" *)
  || bool_decide (lower <$> row_url row = Some "privacy url")
  (* or has a URL that does not start with "http" *)
  || bool_decide ((λ u, startswith u "http") <$> row_url row = Some false).

Definition row_item (row : Row) : option Video :=
  t ← row_title row; u ← row_url row; Some (mkVideo t u).

End ReadVideoUrls.

(** What opening and reading the CSV file gives: [open] raises
    [FileNotFoundError], [open] raises another exception (a
    [PermissionError], an [IsADirectoryError]), or the reader yields
    rows and then ends or raises (a [UnicodeDecodeError], a
    [csv.Error]). *)
Inductive CsvFile : Type :=
| NoSuchFile
| CannotOpen (x : exn)
| Reads (rows : list Row) (failure : option exn).

(** [read_video_urls()] on such a file: the first [except] clause is
    for [FileNotFoundError], the second for every other [Exception], the
    [AttributeError] of [None.strip()] among them.  The [print]s of the
    function are taken to return. *)
Definition read_video_urls_from (strip lower : string → string) (f : CsvFile)
    : Exits (list Video) :=
  match f with
  | NoSuchFile => SysExit 1
  | CannotOpen _ => SysExit 1
  | Reads rows failure =>
      match read_rows strip lower rows [] with
      | inl _ => SysExit 1
      | inr videos =>
          match failure with
          | Some _ => SysExit 1
          | None => Returns videos
          end
      end
  end.

(** ** The host: file system and external process *)

(** What the script asks of its surroundings: [os.path.exists] on the
    current state of the host, and a run of the external command, which
    returns normally (exit status zero) or raises, and leaves the host in
    a new state. *)
Class Host (Env : Type) : Type := {
  path_exists : Env → string → bool;
  run_process : Env → list string → nat → (exn + unit) * Env
}.

(** What an observer sees of a run: the commands started and the lines
    printed, oldest first. *)
Inductive Event : Type :=
| EvRun (cmd : list string) (timeout : nat)
| EvPrint (l : Line)
| EvPrintException (t : string) (e : exn).

Record World (Env : Type) : Type := mkWorld {
  env : Env;
  counters : Counters;
  out : list Event
}.

Arguments mkWorld {Env} env counters out.

Arguments env {Env} w.

Arguments counters {Env} w.

Arguments out {Env} w.

Section Semantics.
Context {Env : Type} `{!Host Env}.

(** One effect, performed on the world, with a standard output that
    takes every line. *)
Definition handle {A : Type} (eff : Eff A) (w : World Env) : A * World Env :=
  match eff in Eff A return A * World Env with
  | OsPathExists path => (path_exists (env w) path, w)
  | SubprocessRun cmd timeout =>
      let r := run_process (env w) cmd timeout in
      (r.1, mkWorld r.2 (counters w) (out w ++ [EvRun cmd timeout]))
  | WithProgressLock body =>
      let r := body (counters w) in
      (r.1, mkWorld (env w) r.2 (out w))
  | Print l => (inr tt, mkWorld (env w) (counters w) (out w ++ [EvPrint l]))
  end.

(** A program run to its end by one thread: its value or the exception
    it raises, and the world it leaves. *)
Fixpoint exec {R : Type} (t : Prog R) (w : World Env) : (exn + R) * World Env :=
  match t with
  | Ret r => (inr r, w)
  | Raise e => (inl e, w)
  | Vis eff k => let r := handle eff w in exec (k r.1) r.2
  end.

(** [for video in videos: result = download_video_wrapper(video,
    len(videos))], the branch [max_workers == 1] of [main]: the
    results in order, or the exception that ends the loop. *)
Fixpoint for_each_video (videos : list Video) (total : nat) (w : World Env)
    : (exn + list Result) * World Env :=
  match videos with
  | [] => (inr [], w)
  | video :: videos' =>
      match exec (download_video_wrapper video total) w with
      | (inl e, w') => (inl e, w')
      | (inr r, w') =>
          match for_each_video videos' total w' with
          | (inl e, w'') => (inl e, w'')
          | (inr rs, w'') => (inr (r :: rs), w'')
          end
      end
  end.

(** *** The worker pool

    [queue]: the tasks submitted and not yet started; [running]: the
    tasks a worker thread is executing, each with what is left of its
    program; [results]: the futures that are done, in the order in
    which they completed. *)

Record Pool : Type := mkPool {
  queue : list Video;
  running : list (Video * Prog Result);
  results : list (Video * Result);
  world : World Env
}.

Inductive Action : Type :=
| Submit              (* a free worker takes the next task of the queue *)
| Step (i : nat)      (* worker [i] performs its next effect *)
| Complete (i : nat). (* the task of worker [i] is over *)

(** The [except Exception] of the loop over [as_completed]. *)
Definition main_except (video : Video) (e : exn) (w : World Env) : World Env :=
  mkWorld (env w) (count_fail (counters w)).2
          (out w ++ [EvPrintException (title video) e]).

(** One step of [main] on the batch.  With [max_workers = 1] the tasks
    are the iterations of the [for] loop, and an exception that leaves
    [download_video_wrapper] leaves [main] too: there is no step. *)
Definition pool_step (max_workers total : nat) (a : Action) (s : Pool) : option Pool :=
  match a with
  | Submit =>
      match queue s with
      | video :: queue' =>
          if bool_decide (length (running s) < max_workers) then
            Some (mkPool queue'
                    (running s ++ [(video, download_video_wrapper video total)])
                    (results s) (world s))
          else None
      | [] => None
      end
  | Step i =>
      match running s !! i with
      | Some (video, Vis eff k) =>
          let r := handle eff (world s) in
          Some (mkPool (queue s) (<[i := (video, k r.1)]> (running s))
                       (results s) r.2)
      | _ => None
      end
  | Complete i =>
      match running s !! i with
      | Some (video, Ret r) =>
          Some (mkPool (queue s) (delete i (running s))
                       (results s ++ [(video, r)]) (world s))
      | Some (video, Raise e) =>
          if bool_decide (max_workers = 1) then None
          else
            Some (mkPool (queue s) (delete i (running s))
                         (results s) (main_except video e (world s)))
      | _ => None
      end
  end.

Fixpoint pool_run (max_workers total : nat) (acts : list Action) (s : Pool) : option Pool :=
  match acts with
  | [] => Some s
  | a :: acts' =>
      match pool_step max_workers total a s with
      | Some s' => pool_run max_workers total acts' s'
      | None => None
      end
  end.

(** [main] resets the counters, then starts the batch. *)
Definition batch_start (videos : list Video) (e : Env) : Pool :=
  mkPool videos [] [] (mkWorld e zero_counters []).

Definition batch_over (s : Pool) : Prop := queue s = [] ∧ running s = [].

(** The states of the batch that [main] can be in. *)
Definition batch_reaches (max_workers : nat) (videos : list Video) (e : Env)
    (s : Pool) : Prop :=
  ∃ acts, pool_run max_workers (length videos) acts (batch_start videos e) = Some s.

End Semantics.

Arguments Pool Env : clear implicits.

(** ** What is observed of a run *)

Fixpoint invocations (o : list Event) : nat :=
  match o with
  | [] => 0
  | EvRun _ _ :: o' => S (invocations o')
  | _ :: o' => invocations o'
  end.

(** The exceptions after which [download_video] tries again. *)
Definition retried (r : exn + unit) : Prop :=
  match r with
  | inl TimeoutExpired | inl (CalledProcessError _ _) => True
  | _ => False
  end.

(** The lines that report the outcome of a task. *)
Definition final_msg (m : Message) : bool :=
  match m with
  | SuccessfullyDownloaded | FileNotFoundAfterDownload | TimeoutAfterRetries
  | FailedToDownload _ | ErrorDownloading _ | Skipping => true
  | Downloading | TimeoutRetry _ | Retry _ => false
  end.

(** The number and the title on each outcome line, oldest first. *)
Fixpoint final_lines (o : list Event) : list (nat * string) :=
  match o with
  | [] => []
  | EvPrint l :: o' =>
      if final_msg (line_msg l) then (line_current l, line_title l) :: final_lines o'
      else final_lines o'
  | _ :: o' => final_lines o'
  end.

(** The event belongs to the task with number [k] and title [t]. *)
Definition numbered (k : nat) (t : string) (ev : Event) : Prop :=
  match ev with
  | EvPrint l => line_current l = k ∧ line_title l = t
  | EvRun _ _ => True
  | EvPrintException _ _ => False
  end.

(** The output is made of one block per video, in the order of the list;
    the block of the video at position [k] (from [k0]) has one outcome
    line, and all its lines carry the number [k] and the title. *)
Fixpoint numbered_from (k0 : nat) (videos : list Video) (o : list Event) : Prop :=
  match videos with
  | [] => o = []
  | video :: videos' =>
      ∃ b o', o = b ++ o'
        ∧ Forall (numbered k0 (title video)) b
        ∧ final_lines b = [(k0, title video)]
        ∧ numbered_from (S k0) videos' o'
  end.

(** The paths under which a video with this title is looked for. *)
Definition artifact_paths (t : string) : list string :=
  (λ ext, os_path_join OUTPUT_DIR (t +:+ ext)) <$> extensions.

Arguments artifact_paths : simpl never.

(** ** What a program does on every path

    A thread of the pool is interrupted between any two of its effects,
    and the answers it gets depend on the other threads.  [along]
    follows a program along all its paths with a ghost state [g]: [rule]
    says, for an effect met in state [g], which answers are to be
    considered and the ghost state after each. *)

Section Along.
Context {G : Type}.
Variable rule : ∀ A : Type, Eff A → G → (A → G → Prop) → Prop.

Fixpoint along {R : Type} (p : Prog R) (Qr : R → G → Prop) (Qe : exn → G → Prop)
    (g : G) : Prop :=
  match p with
  | Ret r => Qr r g
  | Raise x => Qe x g
  | Vis eff k => rule _ eff g (λ a g', along (k a) Qr Qe g')
  end.

End Along.

(** One count per task.

    In the rules of this part and in [tally_rule], [range_rule] and
    [budget_rule] a [print] returns: they follow the paths of a run on a
    standard output that takes every line.  [tally_on_rule] and
    [heading_rule] follow the paths on which a [print] raises as well. *)

Definition readonly {A : Type} (body : Counters → A * Counters) : Prop :=
  ∀ c, (body c).2 = c.

(** [completed_count] and exactly one of the three other counters have
    grown by one. *)
Definition one_counted (c c' : Counters) : Prop :=
  completed_count c' = completed_count c + 1
  ∧ ((success_count c' = success_count c + 1 ∧ skip_count c' = skip_count c
      ∧ fail_count c' = fail_count c)
     ∨ (success_count c' = success_count c ∧ skip_count c' = skip_count c + 1
        ∧ fail_count c' = fail_count c)
     ∨ (success_count c' = success_count c ∧ skip_count c' = skip_count c
        ∧ fail_count c' = fail_count c + 1)).

Definition counts_one {A : Type} (body : Counters → A * Counters) : Prop :=
  ∀ c, one_counted c (body c).2.

(** The ghost state is the number of counts the program still owes: a
    [with progress_lock:] block either leaves the counters as they are,
    or counts one outcome and pays one. *)
Definition owes_rule (A : Type) (eff : Eff A) (g : nat) : (A → nat → Prop) → Prop :=
  match eff in Eff A return (A → nat → Prop) → Prop with
  | WithProgressLock body => λ Q,
      (readonly body ∧ ∀ a, Q a g)
      ∨ (counts_one body ∧ ∃ g', g = S g' ∧ ∀ a, Q a g')
  | Print _ => λ Q, Q (inr tt) g
  | _ => λ Q, ∀ a, Q a g
  end.

(** On every path the program counts exactly [g] outcomes, and returns. *)
Definition owes {R : Type} (g : nat) (p : Prog R) : Prop :=
  along owes_rule p (λ _ g', g' = 0) (λ _ _, False) g.

(** A second batch on the same output directory. *)

(** The ghost state tells whether the program has seen a video file for
    the title [t]. *)
Definition seen_rule (t : string) (A : Type) (eff : Eff A) (g : bool)
    : (A → bool → Prop) → Prop :=
  match eff in Eff A return (A → bool → Prop) → Prop with
  | OsPathExists q => λ Q, ∀ a, Q a (g || (a && bool_decide (q ∈ artifact_paths t)))
  | Print _ => λ Q, Q (inr tt) g
  | _ => λ Q, ∀ a, Q a g
  end.

(** A result other than ['failed'] is returned only after a video file
    has been seen. *)
Definition sees_file {R : Type} (t : string) (ok : R → Prop) (g : bool) (p : Prog R) : Prop :=
  along (seen_rule t) p (λ r g', ok r → g' = true) (λ _ _, True) g.

(** The files [known] are there: the program never runs the external
    process, and returns ['skipped']. *)
Definition skip_rule (known : string → bool) (A : Type) (eff : Eff A) (g : unit)
    : (A → unit → Prop) → Prop :=
  match eff in Eff A return (A → unit → Prop) → Prop with
  | OsPathExists q => λ Q, ∀ a, (known q = true → a = true) → Q a g
  | SubprocessRun _ _ => λ _, False
  | Print _ => λ Q, Q (inr tt) g
  | _ => λ Q, ∀ a, Q a g
  end.

Definition skips (known : string → bool) (p : Prog Result) : Prop :=
  along (skip_rule known) p (λ r _, status r = skipped) (λ _ _, False) tt.

(** The tasks of a batch work for their own video. *)

(** The event is a run of the command of [video], or a line about it. *)
Definition about (video : Video) (ev : Event) : Prop :=
  match ev with
  | EvRun cmd _ => cmd = ytdlp_cmd (title video) (url video)
  | EvPrint l => line_title l = title video
  | EvPrintException t _ => t = title video
  end.

Definition own_rule (video : Video) (A : Type) (eff : Eff A) (g : unit)
    : (A → unit → Prop) → Prop :=
  match eff in Eff A return (A → unit → Prop) → Prop with
  | SubprocessRun cmd timeout => λ Q, about video (EvRun cmd timeout) ∧ ∀ a, Q a g
  | Print l => λ Q, about video (EvPrint l) ∧ Q (inr tt) g
  | _ => λ Q, ∀ a, Q a g
  end.

(** The program runs no command and prints no line but those of
    [video]. *)
Definition works_for (video : Video) {R : Type} (p : Prog R) : Prop :=
  along (own_rule video) p (λ _ _, True) (λ _ _, True) tt.

(** ** The states of a run and of a batch *)

Section Observations.
Context {Env : Type} `{!Host Env}.
Implicit Types (w : World Env) (s : Pool Env) (e : Env) (t u : string).

(** The first of the paths [OUTPUT_DIR/title.ext] that exists. *)
Fixpoint first_existing e t (exts : list string) : option string :=
  match exts with
  | [] => None
  | ext :: exts' =>
      let p := os_path_join OUTPUT_DIR (t +:+ ext) in
      if path_exists e p then Some p else first_existing e t exts'
  end.

(** A video file for the title is in the output directory. *)
Definition present e t : bool :=
  existsb (λ ext, path_exists e (os_path_join OUTPUT_DIR (t +:+ ext))) extensions.

(** The world when [subprocess.run] is over, in an attempt started in
    [w]: the line that announces the download, then the run. *)
Definition after_run t u (total : nat) w : World Env :=
  let cmd := ytdlp_cmd t u in
  mkWorld (run_process (env w) cmd 1800).2 (counters w)
    (out w ++ [EvPrint (mkLine (completed_count (counters w) + 1) total Downloading t);
               EvRun cmd 1800]).

(** The world when the attempt gives its verdict. *)
Definition verdict t (total : nat) (count : Counters → Counters) (msg : Message) w
    : World Env :=
  mkWorld (env w) (count (counters w))
    (out w ++ [EvPrint (mkLine (completed_count (counters w) + 1) total msg t)]).

(** The next [n] runs of the command all end in a time-out or a process
    error. *)
Fixpoint fails_every_attempt (n : nat) (cmd : list string) e : Prop :=
  match n with
  | 0 => True
  | S n' =>
      let r := run_process e cmd 1800 in
      retried r.1 ∧ fails_every_attempt n' cmd r.2
  end.

(** Every task is in the queue, with a worker, or done; a task with a
    worker has counted its outcome or still owes it ([gs]); the counters
    agree with one another and with the tasks that have counted. *)
Definition accounted (total : nat) s : Prop :=
  ∃ gs : list nat,
    Forall2 (λ g vt, owes g vt.2) gs (running s)
    ∧ length (queue s) + length (running s) + length (results s) = total
    ∧ completed_count (counters (world s)) + length (queue s) + sum_list gs = total
    ∧ completed_count (counters (world s))
      = success_count (counters (world s)) + skip_count (counters (world s))
        + fail_count (counters (world s)).

(** What the loop still returns and the world it ends in, from a state
    with at most one task under way. *)
Definition loop_rest (total : nat) (done : list Result) (q : list Video) w
    : (exn + list Result) * World Env :=
  match for_each_video q total w with
  | (inl x, w') => (inl x, w')
  | (inr rs, w') => (inr (done ++ rs), w')
  end.

Definition loop_outcome (total : nat) s : (exn + list Result) * World Env :=
  match running s with
  | [] => loop_rest total (results s).*2 (queue s) (world s)
  | (video, p) :: _ =>
      match exec p (world s) with
      | (inl x, w') => (inl x, w')
      | (inr r, w') => loop_rest total ((results s).*2 ++ [r]) (queue s) w'
      end
  end.

(** Where a task has a result other than ['failed'], and where a worker
    has seen a video file for its task ([gs]), the file is there. *)
Definition files_kept s : Prop :=
  (∃ gs : list bool,
     Forall2 (λ g vt,
       sees_file (title vt.1) (λ r, status r ≠ failed) g vt.2
       ∧ (g = true → present (env (world s)) (title vt.1) = true)) gs (running s))
  ∧ Forall (λ vr, status vr.2 ≠ failed → present (env (world s)) (title vr.1) = true)
      (results s).

(** The files [known] are there; the tasks are those of [videos]; a
    task whose video file is known is skipped; and when that is so for
    all of [videos], the external process has not run. *)
Definition skipping (known : string → bool) (videos : list Video) s : Prop :=
  (∀ q, known q = true → path_exists (env (world s)) q = true)
  ∧ Forall (λ v, v ∈ videos) (queue s)
  ∧ Forall (λ vt, vt.1 ∈ videos
              ∧ (existsb known (artifact_paths (title vt.1)) = true → skips known vt.2))
      (running s)
  ∧ Forall (λ vr, vr.1 ∈ videos
              ∧ (existsb known (artifact_paths (title vr.1)) = true
                 → status vr.2 = skipped))
      (results s)
  ∧ ((∀ v, v ∈ videos → existsb known (artifact_paths (title v)) = true)
     → invocations (out (world s)) = 0).

(** The tasks of the batch are videos of the list, and all that has
    been run and printed is about one of them. *)
Definition own_tasks (videos : list Video) s : Prop :=
  Forall (λ v, v ∈ videos) (queue s)
  ∧ Forall (λ vt, vt.1 ∈ videos ∧ works_for vt.1 vt.2) (running s)
  ∧ Forall (λ vr, vr.1 ∈ videos) (results s)
  ∧ Forall (λ ev, ∃ v, v ∈ videos ∧ about v ev) (out (world s)).

End Observations.

Arguments present : simpl never.

(** A run of the external process removes no file. *)
Definition keeps_files (Env : Type) `{!Host Env} : Prop :=
  ∀ (e : Env) cmd timeout q,
    path_exists e q = true → path_exists (run_process e cmd timeout).2 q = true.

(** The claim C3 at one call: if the process exits with status zero and
    no video file is found, and retries are left, the process is run
    again. *)
Definition mismatch_is_retried {Env : Type} `{!Host Env} (t u : string)
    (total rc : nat) (w : World Env) : Prop :=
  (run_process (env w) (ytdlp_cmd t u) 1800).1 = inr () →
  present (run_process (env w) (ytdlp_cmd t u) 1800).2 t = false →
  rc < MAX_RETRIES →
  invocations (out w) + 1 < invocations (out (exec (download_video t u total rc) w).2).

(** The claim C9 for one list of videos and one output directory: after
    a first batch, a second batch on the directory as the first one left
    it never runs the external process and resolves every video as
    ['skipped']. *)
Definition rerun_fetches_nothing {Env : Type} `{!Host Env} (max_workers : nat)
    (videos : list Video) (e : Env) : Prop :=
  ∀ s1 s2 : Pool Env,
    batch_reaches max_workers videos e s1 → batch_over s1 →
    batch_reaches max_workers videos (env (world s1)) s2 → batch_over s2 →
    invocations (out (world s2)) = 0
    ∧ ∀ v r, (v, r) ∈ results s2 → status r = skipped.

(** ** A scripted host, to run the model on examples

    The files present, the number of runs so far, and a plan that gives,
    for a command and the number of earlier runs, how the process ends
    and the files it leaves. *)

Record Sim : Type := mkSim {
  sim_files : list string;
  sim_runs : nat;
  sim_plan : list string → nat → (exn + unit) * list string
}.

#[global] Instance sim_host : Host Sim := {|
  path_exists e p := bool_decide (p ∈ sim_files e);
  run_process e cmd _ :=
    let r := sim_plan e cmd (sim_runs e) in
    (r.1, mkSim (sim_files e ++ r.2) (S (sim_runs e)) (sim_plan e))
|}.

(** The output template of a command, with [%(ext)s] replaced by [mp4]. *)
Definition mp4_of_cmd (cmd : list string) : string :=
  let template := nth 2 cmd "" in
  String.substring 0 (String.length template - 7) template +:+ "mp4".

Definition plan_download : list string → nat → (exn + unit) * list string :=
  λ cmd _, (inr tt, [mp4_of_cmd cmd]).

Definition plan_process_error : list string → nat → (exn + unit) * list string :=
  λ _ _, (inl (CalledProcessError 1 "ERROR: Video unavailable"), []).

Definition plan_timeout : list string → nat → (exn + unit) * list string :=
  λ _ _, (inl TimeoutExpired, []).

Definition plan_no_file : list string → nat → (exn + unit) * list string :=
  λ _ _, (inr tt, []).

Definition plan_os_error : list string → nat → (exn + unit) * list string :=
  λ _ _, (inl (OtherException "FileNotFoundError"), []).

Definition sim_world (files : list string) plan : World Sim :=
  mkWorld (mkSim files 0 plan) zero_counters [].

(** ** Examples to run *)

Definition video_a : Video := mkVideo "A" "http://x/a".

Definition video_b : Video := mkVideo "B" "http://x/b".

(** The state a batch is in after the actions [acts]. *)
Definition run_batch {Env : Type} `{!Host Env} (max_workers : nat)
    (videos : list Video) (e : Env) (acts : list Action) : Pool Env :=
  default (batch_start videos e)
    (pool_run max_workers (length videos) acts (batch_start videos e)).

(** Two workers, two videos to fetch.  Each worker tests the four file
    names and reads [current] (five steps); then the first worker prints,
    fetches, finds the file, counts and reports, and the second worker
    does the same. *)
Definition racing_schedule : list Action :=
  [Submit; Submit] ++ replicate 5 (Step 0) ++ replicate 5 (Step 1)
  ++ replicate 5 (Step 0) ++ [Complete 0]
  ++ replicate 5 (Step 0) ++ [Complete 0].

(** One worker, one video that is fetched at the first attempt. *)
Definition fetch_schedule : list Action :=
  [Submit] ++ replicate 10 (Step 0) ++ [Complete 0].

(** One worker, one video whose file is found by the first test. *)
Definition skip_schedule : list Action :=
  [Submit] ++ replicate 3 (Step 0) ++ [Complete 0].

(** One worker, one video whose four attempts all fail. *)
Definition failing_schedule : list Action :=
  [Submit] ++ replicate 25 (Step 0) ++ [Complete 0].

(** [str.strip] and [str.lower] on ASCII strings. *)
Definition is_space (a : Ascii.ascii) : bool :=
  bool_decide (Ascii.nat_of_ascii a ∈ [32; 9; 10; 11; 12; 13]).

Fixpoint lstrip (s : string) : string :=
  match s with
  | String a s' => if is_space a then lstrip s' else s
  | EmptyString => EmptyString
  end.

Definition ascii_strip (s : string) : string :=
  String.rev (lstrip (String.rev (lstrip s))).

Definition ascii_lower_char (a : Ascii.ascii) : Ascii.ascii :=
  let n := Ascii.nat_of_ascii a in
  if bool_decide (65 ≤ n ≤ 90) then Ascii.ascii_of_nat (n + 32) else a.

Fixpoint ascii_lower (s : string) : string :=
  match s with
  | String a s' => String (ascii_lower_char a) (ascii_lower s')
  | EmptyString => EmptyString
  end.

Definition example_rows : list Row :=
  [ {[ "Title" := Some " A "; "URL" := Some "http://x/a " ]};
    {[ "Title" := Some "B"; "URL" := Some "Privacy URL" ]};
    {[ "Title" := Some "C" ]};
    {[ "title" := Some "D"; "url" := Some "ftp://x/d" ]};
    {[ "Title" := Some "  "; "URL" := Some "http://x/e" ]};
    {[ "title" := Some "F"; "url" := Some "https://x/f" ]} ].

(** ** Further observations of a batch *)

#[global] Instance status_eq_dec : EqDecision Status.
Proof. solve_decision. Defined.

(** The counter of a status, and the counters after one outcome with this
    status has been counted. *)
Definition counter (st : Status) (c : Counters) : nat :=
  match st with
  | success => success_count c
  | skipped => skip_count c
  | failed => fail_count c
  end.

Definition bump (st : Status) (c : Counters) : Counters :=
  match st with
  | success => (count_success c).2
  | skipped => (count_skip c).2
  | failed => (count_fail c).2
  end.

Definition counts_as {A : Type} (st : Status) (body : Counters → A * Counters) : Prop :=
  ∀ c, (body c).2 = bump st c.

(** How often [x] is in [l]. *)
Definition occurrences {A : Type} `{EqDecision A} (x : A) (l : list A) : nat :=
  sum_list_with (λ y, if bool_decide (y = x) then 1 else 0) l.

(** The ghost state is the status the program has counted, if it has. *)
Definition tally_rule (A : Type) (eff : Eff A) (g : option Status)
    : (A → option Status → Prop) → Prop :=
  match eff in Eff A return (A → option Status → Prop) → Prop with
  | WithProgressLock body => λ Q,
      (readonly body ∧ ∀ a, Q a g)
      ∨ (∃ st, counts_as st body ∧ g = None ∧ ∀ a, Q a (Some st))
  | Print _ => λ Q, Q (inr tt) g
  | _ => λ Q, ∀ a, Q a g
  end.

(** The program returns the status it has counted, under the title of
    [video]. *)
Definition reports (video : Video) (g : option Status) (p : Prog Result) : Prop :=
  along tally_rule p
    (λ r g', g' = Some (status r) ∧ res_title r = title video) (λ _ _, False) g.

(** The ghost state is the number of counts the program owes, as in
    [owes_rule]; a number read under the lock while a count is owed is at
    most [total], and the lines printed carry such numbers. *)
Definition range_rule (total : nat) (A : Type) (eff : Eff A) (g : nat)
    : (A → nat → Prop) → Prop :=
  match eff in Eff A return (A → nat → Prop) → Prop with
  | WithProgressLock body => λ Q,
      (readonly body ∧ ∀ c, completed_count c + g ≤ total → Q (body c).1 g)
      ∨ (counts_one body
         ∧ ∃ g', g = S g' ∧ ∀ c, completed_count c + g ≤ total → Q (body c).1 g')
  | Print l => λ Q,
      (1 ≤ line_current l ≤ total ∧ line_total l = total) ∧ Q (inr tt) g
  | _ => λ Q, ∀ a, Q a g
  end.

Definition in_range (total : nat) {R : Type} (g : nat) (p : Prog R) : Prop :=
  along (range_rule total) p (λ _ g', g' = 0) (λ _ _, False) g.

(** The ghost state is the number of runs of the external process the
    program may still make. *)
Definition budget_rule (A : Type) (eff : Eff A) (g : nat) : (A → nat → Prop) → Prop :=
  match eff in Eff A return (A → nat → Prop) → Prop with
  | SubprocessRun _ _ => λ Q, ∃ g', g = S g' ∧ ∀ a, Q a g'
  | Print _ => λ Q, Q (inr tt) g
  | _ => λ Q, ∀ a, Q a g
  end.

Definition within_budget {R : Type} (g : nat) (p : Prog R) : Prop :=
  along budget_rule p (λ _ _, True) (λ _ _, True) g.

Section MoreObservations.
Context {Env : Type} `{!Host Env}.
Implicit Types (w : World Env) (s : Pool Env) (e : Env) (t u : string).

(** The counters count the results and what the workers have counted
    ([gs]); a result carries the title of its video. *)
Definition tallied s : Prop :=
  ∃ gs : list (option Status),
    Forall2 (λ g vt, reports vt.1 g vt.2) gs (running s)
    ∧ Forall (λ vr, res_title vr.2 = title vr.1) (results s)
    ∧ ∀ st, counter st (counters (world s))
            = occurrences st (status <$> (results s).*2) + occurrences (Some st) gs.

(** The numbers and totals printed are in range. *)
Definition line_in_range (total : nat) (ev : Event) : Prop :=
  match ev with
  | EvPrint l => 1 ≤ line_current l ≤ total ∧ line_total l = total
  | _ => True
  end.

Definition numbers_in_range (total : nat) s : Prop :=
  (∃ gs : list nat,
     Forall2 (λ g vt, in_range total g vt.2) gs (running s)
     ∧ completed_count (counters (world s)) + length (queue s) + sum_list gs = total)
  ∧ Forall (line_in_range total) (out (world s)).

(** The runs made and the runs that may still be made fit in
    [MAX_RETRIES + 1] runs for each video. *)
Definition budgeted (total : nat) s : Prop :=
  ∃ gs : list nat,
    Forall2 (λ g vt, within_budget g vt.2) gs (running s)
    ∧ length (queue s) ≤ total
    ∧ invocations (out (world s)) + sum_list gs
      ≤ (MAX_RETRIES + 1) * (total - length (queue s)).

(** The first [k] runs of the command end in a time-out or a process
    error, the next one exits with status zero and leaves a video
    file. *)
Fixpoint succeeds_after (k : nat) t u e : Prop :=
  let r := run_process e (ytdlp_cmd t u) 1800 in
  match k with
  | 0 => r.1 = inr () ∧ present r.2 t = true
  | S k' => retried r.1 ∧ succeeds_after k' t u r.2
  end.

(** How the run of the command ends after [n] earlier runs. *)
Fixpoint run_after (n : nat) (cmd : list string) e : exn + unit :=
  let r := run_process e cmd 1800 in
  match n with
  | 0 => r.1
  | S n' => run_after n' cmd r.2
  end.

End MoreObservations.

(** What the outcome line says of an attempt that ends [download_video]
    without a video. *)
Definition failure_msg (r : exn + unit) : Message :=
  match r with
  | inl TimeoutExpired => TimeoutAfterRetries
  | inl (CalledProcessError code stderr) =>
      FailedToDownload (error_msg (CalledProcessError code stderr))
  | inl (OtherException name) => ErrorDownloading (OtherException name)
  | inr _ => FileNotFoundAfterDownload
  end.

(** ** Further observations of one call and of the CSV file *)

(** The stem of the paths of a title: [os.path.join] drops the output
    directory when the title starts with a slash. *)
Definition path_stem (t : string) : string :=
  if startswith t "/" then t else OUTPUT_DIR +:+ "/" +:+ t.

(** The row has both columns, and [None] where [read_video_urls] calls
    [.strip()]: under the title, or under the URL when the title is a
    string. *)
Definition short_row (row : Row) : bool :=
  match column row "Title" "title", column row "URL" "url" with
  | Some None, Some _ => true
  | Some (Some _), Some None => true
  | _, _ => false
  end.

(** A process that times out, then exits with an error, then writes the
    file. *)
Definition plan_flaky : list string → nat → (exn + unit) * list string :=
  λ cmd n,
    match n with
    | 0 => (inl TimeoutExpired, [])
    | 1 => (inl (CalledProcessError 1 "ERROR: network"), [])
    | _ => (inr tt, [mp4_of_cmd cmd])
    end.

(** A process that exits with an error three times, then times out. *)
Definition plan_errors_then_timeout : list string → nat → (exn + unit) * list string :=
  λ cmd n,
    match n with
    | 0 | 1 | 2 => (inl (CalledProcessError 1 "ERROR: Video unavailable"), [])
    | _ => (inl TimeoutExpired, [])
    end.

(** ** The script: what [main] does before the batch

    [check_ytdlp], [install_ytdlp], [create_output_dir] and the start of
    [main] run commands without a time-out, make the output directory,
    open the CSV file and print.  They are written in a monad of their
    own: the state is the host and the list of what has been done so
    far, and a computation returns, raises, or ends the process with
    [sys.exit].  [subprocess.run] and [Path.mkdir] may raise; [print] and
    [os.path.abspath] return. *)

(** The lines printed before the batch. *)
Inductive Notice : Type :=
| ArgparseHelp                          (* the usage and help text of argparse *)
| ArgparseError                         (* the usage and error message of argparse *)
| WorkersAtLeastOne                     (* Error: Number of workers must be at least 1 *)
| Rule60                                (* "=" * 60 *)
| Heading                               (* SmartHome-Bench Video Downloader *)
| ConcurrentDownloads (max_workers : Z) (* Concurrent downloads: {max_workers} *)
| YtdlpNotFound                         (* yt-dlp not found. Installing... *)
| YtdlpInstalled                        (* yt-dlp installed successfully! *)
| InstallFailed                         (* Failed to install yt-dlp. Please install it manually: *)
| InstallHintPip3                       (*   pip3 install yt-dlp *)
| InstallHintOr                         (*   or *)
| InstallHintPip                        (*   pip install yt-dlp *)
| OutputDirectory (path : string)       (* Output directory: {abspath} *)
| ReadingFrom (path : string)           (* Reading video URLs from {CSV_FILE}... *)
| MissingColumns (row : Row)            (* Warning: Skipping row with missing columns: {row} *)
| CsvNotFound (path : string)           (* Error: {CSV_FILE} not found! *)
| CsvError (x : exn)                    (* Error reading CSV file: {e}, and the traceback *)
| FoundVideos (n : nat).                (* Found {len(videos)} videos to download *)

(** What has been done: a line printed, a command run, the directories
    of a path made, a file opened or found missing. *)
Inductive Act : Type :=
| Said (n : Notice)
| Ran (cmd : list string)
| MadeDirs (path : string)
| Opened (path : string).

(** How a computation ends when it does not return: with an exception
    that nothing has caught, or with [sys.exit(code)]. *)
Inductive Halt : Type :=
| Uncaught (x : exn)
| Exited (code : nat).

(** The exit status of the process: the argument of [sys.exit], and 1
    after an exception that nothing has caught. *)
Definition exit_status (h : Halt) : nat :=
  match h with
  | Exited code => code
  | Uncaught _ => 1
  end.

(** [subprocess.run(cmd, check=True)], [Path(path).mkdir(parents=True,
    exist_ok=True)], [os.path.abspath(path)], and the rows that
    [csv.DictReader] gives for the file at [path], or [None] when there
    is no such file. *)
Class Shell (Env : Type) : Type := {
  run_tool : Env → list string → (exn + unit) * Env;
  make_dirs : Env → string → (exn + unit) * Env;
  abspath : Env → string → string;
  csv_rows : Env → string → option (list Row)
}.

Record Console (Env : Type) : Type := mkConsole {
  shell : Env;
  acts : list Act
}.

Arguments mkConsole {Env} shell acts.

Arguments shell {Env} c.

Arguments acts {Env} c.

Definition Setup (Env A : Type) : Type := Console Env → (Halt + A) * Console Env.

#[global] Instance setup_ret {Env : Type} : MRet (Setup Env) := λ A a c, (inr a, c).

#[global] Instance setup_bind {Env : Type} : MBind (Setup Env) :=
  λ A B f m c,
    match m c with
    | (inl h, c') => (inl h, c')
    | (inr a, c') => f a c'
    end.

(** [except ...:] clauses: [handler x] is the clause that catches [x],
    if there is one.  [sys.exit] is not an [Exception], and no clause of
    these functions catches it. *)
Definition try_catch {Env A : Type} (m : Setup Env A)
    (handler : exn → option (Setup Env A)) : Setup Env A :=
  λ c,
    match m c with
    | (inl (Uncaught x), c') =>
        match handler x with
        | Some h => h c'
        | None => (inl (Uncaught x), c')
        end
    | r => r
    end.

Definition say {Env : Type} (n : Notice) : Setup Env unit :=
  λ c, (inr tt, mkConsole (shell c) (acts c ++ [Said n])).

Definition sys_exit {Env A : Type} (code : nat) : Setup Env A :=
  λ c, (inl (Exited code), c).

(** [except (subprocess.CalledProcessError, FileNotFoundError):] *)
Definition called_process_or_file_not_found (x : exn) : bool :=
  match x with
  | CalledProcessError _ _ => true
  | OtherException name => bool_decide (name = "FileNotFoundError")
  | TimeoutExpired => false
  end.

Section Setup.
Context {Env : Type} `{!Shell Env}.

(** [str.strip] and [str.lower] *)
Variables (strip lower : string → string).

(** [sys.executable] *)
Variable sys_executable : string.

Definition run_checked (cmd : list string) : Setup Env unit :=
  λ c,
    let r := run_tool (shell c) cmd in
    (match r.1 with inl x => inl (Uncaught x) | inr u => inr u end,
     mkConsole r.2 (acts c ++ [Ran cmd])).

Definition mkdir_parents (path : string) : Setup Env unit :=
  λ c,
    let r := make_dirs (shell c) path in
    (match r.1 with inl x => inl (Uncaught x) | inr u => inr u end,
     mkConsole r.2 (acts c ++ [MadeDirs path])).

Definition os_path_abspath (path : string) : Setup Env string :=
  λ c, (inr (abspath (shell c) path), c).

(** [check_ytdlp()] *)
Definition check_ytdlp : Setup Env bool :=
  try_catch
    (run_checked ["yt-dlp"; "--version"];;
     mret true)
    (λ x, if called_process_or_file_not_found x then Some (mret false) else None).

(** [for pip_cmd in pip_cmds: try: ... return True  except (...):
    continue], followed by [rest]. *)
Fixpoint install_with (pip_cmds : list string) (rest : Setup Env bool) : Setup Env bool :=
  match pip_cmds with
  | [] => rest
  | pip_cmd :: pip_cmds' =>
      try_catch
        (run_checked [pip_cmd; "install"; "yt-dlp"];;
         say YtdlpInstalled;;
         mret true)
        (λ x, if called_process_or_file_not_found x
              then Some (install_with pip_cmds' rest) else None)
  end.

(** [install_ytdlp()] *)
Definition install_ytdlp : Setup Env bool :=
  say YtdlpNotFound;;
  try_catch
    (install_with ["pip3"; "pip"]
       (run_checked [sys_executable; "-m"; "pip"; "install"; "yt-dlp"];;
        say YtdlpInstalled;;
        mret true))
    (λ x, match x with
          | CalledProcessError _ _ =>
              Some (say InstallFailed;;
                    say InstallHintPip3;;
                    say InstallHintOr;;
                    say InstallHintPip;;
                    mret false)
          | _ => None
          end).

(** [create_output_dir()] *)
Definition create_output_dir : Setup Env unit :=
  mkdir_parents OUTPUT_DIR;;
  path ← os_path_abspath OUTPUT_DIR;
  say (OutputDirectory path).

(** The lines that [read_video_urls] prints: a warning for each row
    that lacks a column, and the error that ends the reading. *)
Definition missing_columns (row : Row) : bool :=
  let title_key := if bool_decide (is_Some (row !! "Title")) then "Title" else "title" in
  let url_key := if bool_decide (is_Some (row !! "URL")) then "URL" else "url" in
  bool_decide (¬ is_Some (row !! title_key)) || bool_decide (¬ is_Some (row !! url_key)).

Fixpoint read_rows_notices (rows : list Row) : list Notice :=
  match rows with
  | [] => []
  | row :: rows' =>
      if missing_columns row then MissingColumns row :: read_rows_notices rows'
      else
        match read_row strip lower row with
        | inl x => [CsvError x]
        | inr _ => read_rows_notices rows'
        end
  end.

Definition read_video_urls_notices (file : option (list Row)) : list Notice :=
  match file with
  | None => [CsvNotFound CSV_FILE]
  | Some rows => read_rows_notices rows
  end.

(** [read_video_urls()] on the file of the host. *)
Definition read_video_urls_of_host : Setup Env (list Video) :=
  λ c,
    let file := csv_rows (shell c) CSV_FILE in
    let c' := mkConsole (shell c)
                (acts c ++ Opened CSV_FILE :: (Said <$> read_video_urls_notices file)) in
    match read_video_urls strip lower file with
    | Returns videos => (inr videos, c')
    | SysExit code => (inl (Exited code), c')
    end.

(** [main()] up to the batch, for the value of [--workers] on the
    command line, if it is given: the number of workers and the videos
    of the batch. *)
Definition main_setup (workers : option Z) : Setup Env (Z * list Video) :=
  let max_workers := default (Z.of_nat DEFAULT_MAX_WORKERS) workers in
  if bool_decide (max_workers < 1)%Z then
    say WorkersAtLeastOne;;
    sys_exit 1
  else
    say Rule60;;
    say Heading;;
    say Rule60;;
    say (ConcurrentDownloads max_workers);;
    found ← check_ytdlp;
    (if found : bool then mret tt
     else
       installed ← install_ytdlp;
       if installed : bool then mret tt else sys_exit 1);;
    create_output_dir;;
    say (ReadingFrom CSV_FILE);;
    videos ← read_video_urls_of_host;
    say (FoundVideos (length videos));;
    mret (max_workers, videos).

(** What [parser.parse_args()] makes of the command line: the value of
    [--workers] if the option is given, or the end of the process, with
    status 0 after [--help] and with status 2 after an error (an unknown
    option, a value that is not an integer). *)
Inductive Args : Type :=
| ArgsHelp
| ArgsError
| ArgsWorkers (workers : option Z).

(** [main()] up to the batch, from [parser.parse_args()] on. *)
Definition main_before_batch (args : Args) : Setup Env (Z * list Video) :=
  match args with
  | ArgsHelp => say ArgparseHelp;; sys_exit 0
  | ArgsError => say ArgparseError;; sys_exit 2
  | ArgsWorkers workers => main_setup workers
  end.

(** What is observed of a setup: the commands run, and all that has
    been done apart from printing. *)
Definition commands (l : list Act) : list (list string) :=
  omap (λ a, match a with Ran cmd => Some cmd | _ => None end) l.

Definition deeds (l : list Act) : list Act :=
  omap (λ a, match a with Said _ => None | _ => Some a end) l.

(** The three installers, in the order in which they are tried. *)
Definition installers : list (list string) :=
  [["pip3"; "install"; "yt-dlp"];
   ["pip"; "install"; "yt-dlp"];
   [sys_executable; "-m"; "pip"; "install"; "yt-dlp"]].

(** The commands run one after the other, whatever their outcomes. *)
Fixpoint run_each (cmds : list (list string)) (e : Env) : list (exn + unit) * Env :=
  match cmds with
  | [] => ([], e)
  | cmd :: cmds' =>
      let r := run_tool e cmd in
      let rs := run_each cmds' r.2 in
      (r.1 :: rs.1, rs.2)
  end.

(** [yt-dlp] has been found or installed with [n] installers: the check
    returned normally and no installer was run, or the check failed and
    the last of the [n] installers run returned normally. *)
Definition ytdlp_ready (n : nat) (e : Env) : Prop :=
  let version := run_tool e ["yt-dlp"; "--version"] in
  match n with
  | 0 => version.1 = inr ()
  | S _ =>
      (∃ x, version.1 = inl x ∧ called_process_or_file_not_found x = true)
      ∧ last (run_each (take n installers) version.2).1 = Some (inr ())
  end.

End Setup.

(** A scripted shell: how each command ends, by its first word; the
    directories made; the rows of the CSV file, if it is there. *)
Record Box : Type := mkBox {
  box_tools : string → exn + unit;
  box_dirs : list string;
  box_csv : option (list Row)
}.

#[global] Instance box_shell : Shell Box := {|
  run_tool e cmd := (box_tools e (hd "" cmd), e);
  make_dirs e path := (inr tt, mkBox (box_tools e) (box_dirs e ++ [path]) (box_csv e));
  abspath e path := "/home/user/" +:+ path;
  csv_rows e path := if bool_decide (path = CSV_FILE) then box_csv e else None
|}.

(** [yt-dlp] and [pip3] are not installed, [pip] is. *)
Definition tools_pip_only (tool : string) : exn + unit :=
  if bool_decide (tool = "pip") then inr tt
  else inl (OtherException "FileNotFoundError").

(** Nothing is installed, and [python -m pip] fails. *)
Definition tools_none (tool : string) : exn + unit :=
  if bool_decide (tool = "python3") then inl (CalledProcessError 1 "")
  else inl (OtherException "FileNotFoundError").

(** Every command returns normally. *)
Definition tools_all (tool : string) : exn + unit := inr tt.

(** ** A standard output that may refuse a line

    [print] raises when [sys.stdout] cannot take the line: a
    [UnicodeEncodeError] on a stream whose encoding lacks a character of
    the line, a [BrokenPipeError] on a closed pipe.  What [print] raises
    for a line, after all that has been printed, is a parameter [stdout]
    of the run; [None] means that the line is written.  [handle], [exec]
    and [pool_step] above are the runs on a standard output that takes
    every line. *)

Definition accepting (stdout : list Event → Event → option exn) : Prop :=
  ∀ o ev, stdout o ev = None.

Section Stdout.
Context {Env : Type} `{!Host Env}.

Variable stdout : list Event → Event → option exn.

(** One effect, performed on the world. *)
Definition handle_on {A : Type} (eff : Eff A) (w : World Env) : A * World Env :=
  match eff in Eff A return A * World Env with
  | OsPathExists path => (path_exists (env w) path, w)
  | SubprocessRun cmd timeout =>
      let r := run_process (env w) cmd timeout in
      (r.1, mkWorld r.2 (counters w) (out w ++ [EvRun cmd timeout]))
  | WithProgressLock body =>
      let r := body (counters w) in
      (r.1, mkWorld (env w) r.2 (out w))
  | Print l =>
      match stdout (out w) (EvPrint l) with
      | Some x => (inl x, w)
      | None => (inr tt, mkWorld (env w) (counters w) (out w ++ [EvPrint l]))
      end
  end.

Fixpoint exec_on {R : Type} (t : Prog R) (w : World Env) : (exn + R) * World Env :=
  match t with
  | Ret r => (inr r, w)
  | Raise e => (inl e, w)
  | Vis eff k => let r := handle_on eff w in exec_on (k r.1) r.2
  end.

(** The [for] loop of [main]: nothing catches what leaves
    [download_video_wrapper]. *)
Fixpoint for_each_video_on (videos : list Video) (total : nat) (w : World Env)
    : (exn + list Result) * World Env :=
  match videos with
  | [] => (inr [], w)
  | video :: videos' =>
      match exec_on (download_video_wrapper video total) w with
      | (inl e, w') => (inl e, w')
      | (inr r, w') =>
          match for_each_video_on videos' total w' with
          | (inl e, w'') => (inl e, w'')
          | (inr rs, w'') => (inr (r :: rs), w'')
          end
      end
  end.

(** The [except Exception] of the loop over [as_completed]: the failure
    is counted, then reported; a [print] that raises there leaves
    [main]. *)
Definition main_except_on (video : Video) (e : exn) (w : World Env)
    : option (World Env) :=
  match stdout (out w) (EvPrintException (title video) e) with
  | Some _ => None
  | None =>
      Some (mkWorld (env w) (count_fail (counters w)).2
              (out w ++ [EvPrintException (title video) e]))
  end.

(** One step of [main] on the batch, while [main] is in the batch: there
    is no step for an exception that leaves [main]. *)
Definition pool_step_on (max_workers total : nat) (a : Action) (s : Pool Env)
    : option (Pool Env) :=
  match a with
  | Submit =>
      match queue s with
      | video :: queue' =>
          if bool_decide (length (running s) < max_workers) then
            Some (mkPool queue'
                    (running s ++ [(video, download_video_wrapper video total)])
                    (results s) (world s))
          else None
      | [] => None
      end
  | Step i =>
      match running s !! i with
      | Some (video, Vis eff k) =>
          let r := handle_on eff (world s) in
          Some (mkPool (queue s) (<[i := (video, k r.1)]> (running s))
                       (results s) r.2)
      | _ => None
      end
  | Complete i =>
      match running s !! i with
      | Some (video, Ret r) =>
          Some (mkPool (queue s) (delete i (running s))
                       (results s ++ [(video, r)]) (world s))
      | Some (video, Raise e) =>
          if bool_decide (max_workers = 1) then None
          else
            w' ← main_except_on video e (world s);
            Some (mkPool (queue s) (delete i (running s)) (results s) w')
      | _ => None
      end
  end.

Fixpoint pool_run_on (max_workers total : nat) (acts : list Action) (s : Pool Env)
    : option (Pool Env) :=
  match acts with
  | [] => Some s
  | a :: acts' =>
      match pool_step_on max_workers total a s with
      | Some s' => pool_run_on max_workers total acts' s'
      | None => None
      end
  end.

Definition batch_reaches_on (max_workers : nat) (videos : list Video) (e : Env)
    (s : Pool Env) : Prop :=
  ∃ acts, pool_run_on max_workers (length videos) acts (batch_start videos e) = Some s.

Definition run_batch_on (max_workers : nat) (videos : list Video) (e : Env)
    (acts : list Action) : Pool Env :=
  default (batch_start videos e)
    (pool_run_on max_workers (length videos) acts (batch_start videos e)).

End Stdout.

(** The titles of the "Exception downloading" lines. *)
Fixpoint excepted (o : list Event) : list string :=
  match o with
  | [] => []
  | EvPrintException t _ :: o' => t :: excepted o'
  | _ :: o' => excepted o'
  end.

(** The ghost state is the status counted last: a [with progress_lock:]
    block leaves the counters as they are or counts one outcome, and
    every [print] may raise. *)
Definition tally_on_rule (A : Type) (eff : Eff A) (g : option Status)
    : (A → option Status → Prop) → Prop :=
  match eff in Eff A return (A → option Status → Prop) → Prop with
  | WithProgressLock body => λ Q,
      (readonly body ∧ ∀ a, Q a g)
      ∨ (∃ st, counts_as st body ∧ ∀ a, Q a (Some st))
  | _ => λ Q, ∀ a, Q a g
  end.

(** If the program returns, it returns the status it has counted last,
    under the title of [video]. *)
Definition reports_on (video : Video) (g : option Status) (p : Prog Result) : Prop :=
  along tally_on_rule p
    (λ r g', g' = Some (status r) ∧ res_title r = title video) (λ _ _, True) g.

(** The lines carry [total] and a number that is at least 1, whether
    the [print]s raise or not. *)
Definition heading_rule (total : nat) (A : Type) (eff : Eff A) (g : unit)
    : (A → unit → Prop) → Prop :=
  match eff in Eff A return (A → unit → Prop) → Prop with
  | WithProgressLock body => λ Q, ∀ c, Q (body c).1 g
  | Print l => λ Q, (1 ≤ line_current l ∧ line_total l = total) ∧ ∀ a, Q a g
  | _ => λ Q, ∀ a, Q a g
  end.

Definition headed (total : nat) {R : Type} (p : Prog R) : Prop :=
  along (heading_rule total) p (λ _ _, True) (λ _ _, True) tt.

Definition line_headed (total : nat) (ev : Event) : Prop :=
  match ev with
  | EvPrint l => 1 ≤ line_current l ∧ line_total l = total
  | _ => True
  end.

Section StdoutObservations.
Context {Env : Type} `{!Host Env}.
Implicit Types (w : World Env) (s : Pool Env).

(** Every video taken from the queue is with a worker, has a result, or
    has its "Exception downloading" line. *)
Definition kept (videos : list Video) s : Prop :=
  ∃ started, videos = started ++ queue s
    ∧ (title <$> (results s).*1) ++ (title <$> (running s).*1)
      ++ excepted (out (world s)) ≡ₚ title <$> started.

(** No counter is behind the results and the tasks under way. *)
Definition tallied_on s : Prop :=
  ∃ gs : list (option Status),
    Forall2 (λ g vt, reports_on vt.1 g vt.2) gs (running s)
    ∧ Forall (λ vr, res_title vr.2 = title vr.1) (results s)
    ∧ ∀ st, occurrences st (status <$> (results s).*2) + occurrences (Some st) gs
            ≤ counter st (counters (world s)).

Definition lines_headed (total : nat) s : Prop :=
  Forall (λ vt, headed total vt.2) (running s)
  ∧ Forall (line_headed total) (out (world s)).

End StdoutObservations.

(** A standard output in ASCII: it takes the "Downloading" lines and the
    lines of [main], and refuses the lines that start with one of the
    marks of the script (U+2713, U+2717, U+26A0, U+23ED). *)
Definition has_mark (m : Message) : bool :=
  match m with
  | Downloading => false
  | _ => true
  end.

Definition ascii_stdout : list Event → Event → option exn :=
  λ _ ev,
    match ev with
    | EvPrint l =>
        if has_mark (line_msg l) then Some (OtherException "UnicodeEncodeError")
        else None
    | _ => None
    end.

(** A standard output that takes every line. *)
Definition utf8_stdout : list Event → Event → option exn := λ _ _, None.

(** One task: the four tests of [video_exists], the number read, the
    "Downloading" line, the run, the file found, the success counted and
    its line refused, the failure counted by [except Exception] and its
    line refused. *)
Definition garbled_schedule : list Action :=
  [Submit] ++ replicate 12 (Step 0) ++ [Complete 0].

(** * Part II: lemmas *)

Lemma download_video_rec_S depth t u total_videos retry_count :
  download_video_rec (S depth) t u total_videos retry_count =
    download_video_body (download_video_rec depth t u total_videos)
      t u total_videos retry_count.
Proof. reflexivity. Qed.

(** ** Running the programs to completion *)

Section Exec.
Context {Env : Type} `{!Host Env}.
Implicit Types (w : World Env) (e : Env) (t u : string).

Lemma exec_bind {R S : Type} (p : Prog R) (f : R → Prog S) w :
  exec (p ≫= f) w =
    match exec p w with
    | (inl x, w') => (inl x, w')
    | (inr r, w') => exec (f r) w'
    end.
Proof.
  revert w. induction p as [r|x|A eff k IH]; intros w; simpl.
  - reflexivity.
  - reflexivity.
  - apply IH.
Qed.

Lemma exec_try_except {R : Type} (p : Prog R) (handler : exn → Prog R) w :
  exec (try_except p handler) w =
    match exec p w with
    | (inl x, w') => exec (handler x) w'
    | (inr r, w') => (inr r, w')
    end.
Proof.
  revert w. induction p as [r|x|A eff k IH]; intros w; simpl.
  - reflexivity.
  - by destruct (exec (handler x) w).
  - apply IH.
Qed.

Lemma exec_video_exists_loop t exts w :
  exec (video_exists_loop t exts) w =
    (inr (existsb (λ ext, path_exists (env w) (os_path_join OUTPUT_DIR (t +:+ ext))) exts), w).
Proof.
  induction exts as [|ext exts IH]; [done|].
  cbn -[os_path_join]. destruct (path_exists (env w) _); [done|]. apply IH.
Qed.

Lemma exec_video_exists t w :
  exec (video_exists t) w = (inr (present (env w) t), w).
Proof. apply exec_video_exists_loop. Qed.

Lemma exec_find_downloaded_file t exts w :
  exec (find_downloaded_file t exts) w = (inr (first_existing (env w) t exts), w).
Proof.
  induction exts as [|ext exts IH]; [done|].
  cbn -[os_path_join]. destruct (path_exists (env w) _); [done|]. apply IH.
Qed.

Lemma os_path_join_output_dir_nonempty b :
  ∃ a s, os_path_join OUTPUT_DIR b = String a s.
Proof.
  unfold os_path_join. destruct (startswith b "/") eqn:Hb.
  - destruct b as [|a b]; [discriminate|eauto].
  - assert (bool_decide (OUTPUT_DIR = "") || endswith OUTPUT_DIR "/" = false) as ->
      by (by vm_compute).
    by eexists _, _.
Qed.

Lemma truthy_first_existing e t exts :
  truthy (first_existing e t exts) =
    existsb (λ ext, path_exists e (os_path_join OUTPUT_DIR (t +:+ ext))) exts.
Proof.
  induction exts as [|ext exts IH]; simpl; [done|].
  destruct (path_exists e _); simpl; [|done].
  by destruct (os_path_join_output_dir_nonempty (t +:+ ext)) as (a & s & ->).
Qed.

(** [download_video], one attempt at a time. *)
Lemma exec_download_video t u total rc w :
  exec (download_video t u total rc) w =
    let w1 := after_run t u total w in
    match (run_process (env w) (ytdlp_cmd t u) 1800).1 with
    | inr _ =>
        if present (env w1) t
        then (inr true, verdict t total (λ c, (count_success c).2) SuccessfullyDownloaded w1)
        else (inr false, verdict t total (λ c, (count_fail c).2) FileNotFoundAfterDownload w1)
    | inl TimeoutExpired =>
        if bool_decide (rc < MAX_RETRIES)
        then exec (download_video t u total (rc + 1))
               (verdict t total id (TimeoutRetry (rc + 1)) w1)
        else (inr false, verdict t total (λ c, (count_fail c).2) TimeoutAfterRetries w1)
    | inl (CalledProcessError code stderr as x) =>
        if bool_decide (rc < MAX_RETRIES)
        then exec (download_video t u total (rc + 1))
               (verdict t total id (Retry (rc + 1)) w1)
        else (inr false,
              verdict t total (λ c, (count_fail c).2) (FailedToDownload (error_msg x)) w1)
    | inl (OtherException name as x) =>
        (inr false, verdict t total (λ c, (count_fail c).2) (ErrorDownloading x) w1)
    end.
Proof.
  assert (rc < MAX_RETRIES →
    download_video_rec (MAX_RETRIES - rc) t u total (rc + 1)
    = download_video t u total (rc + 1)) as Hnext.
  { intros Hrc. unfold download_video. f_equal. lia. }
  unfold download_video at 1. rewrite download_video_rec_S.
  remember (download_video_rec (MAX_RETRIES - rc) t u total) as again eqn:Hagain.
  remember (download_video t u total (rc + 1)) as next eqn:Hnext'.
  unfold download_video_body, after_run, verdict.
  remember (find_downloaded_file t extensions) as probe eqn:Hprobe.
  destruct w as [e c o].
  rewrite exec_try_except. simpl.
  destruct (run_process e (ytdlp_cmd t u) 1800) as [[x|[]] e'] eqn:Hrun; simpl.
  - destruct x as [|code stderr|name]; simpl.
    + case_bool_decide as Hrc; simpl; rewrite <- !app_assoc; [|done].
      by rewrite Hnext.
    + case_bool_decide as Hrc; simpl; rewrite <- !app_assoc; [|done].
      by rewrite Hnext.
    + by rewrite <- !app_assoc.
  - rewrite exec_bind, Hprobe, exec_find_downloaded_file.
    cbn -[first_existing]. rewrite truthy_first_existing. fold (present e' t).
    destruct (present e' t); simpl; by rewrite <- !app_assoc.
Qed.

End Exec.

Arguments first_existing : simpl never.

(** ** Counting the runs of the external process *)

Lemma invocations_app o1 o2 :
  invocations (o1 ++ o2) = invocations o1 + invocations o2.
Proof.
  induction o1 as [|ev o1 IH]; simpl; [done|].
  destruct ev; simpl; lia.
Qed.

Lemma retry_induction (P : nat → Prop) :
  (∀ rc, (rc < MAX_RETRIES → P (rc + 1)) → P rc) → ∀ rc, P rc.
Proof.
  intros Hstep rc.
  remember (MAX_RETRIES - rc) as n eqn:Hn.
  revert rc Hn. induction n as [|n IH]; intros rc Hn.
  - apply Hstep. lia.
  - apply Hstep. intros Hrc. apply IH. lia.
Qed.

Section Retry.
Context {Env : Type} `{!Host Env}.
Implicit Types (w : World Env) (e : Env) (t u : string).

Lemma download_video_returns t u total rc w :
  ∃ b, (exec (download_video t u total rc) w).1 = inr b.
Proof.
  revert w. induction rc as [rc IH] using retry_induction. intros w.
  rewrite exec_download_video. cbv zeta.
  destruct (run_process (env w) (ytdlp_cmd t u) 1800).1 as [[|code stderr|name]|[]].
  - case_bool_decide; [by apply IH|by eexists].
  - case_bool_decide; [by apply IH|by eexists].
  - by eexists.
  - destruct (present _ t); by eexists.
Qed.

Lemma download_video_invocations_le t u total rc w :
  invocations (out (exec (download_video t u total rc) w).2)
  ≤ invocations (out w) + S (MAX_RETRIES - rc).
Proof.
  revert w. induction rc as [rc IH] using retry_induction. intros w.
  rewrite exec_download_video. cbv zeta.
  destruct (run_process (env w) (ytdlp_cmd t u) 1800).1 as [[|code stderr|name]|[]].
  - case_bool_decide as Hrc.
    + etrans; [by apply IH|]. simpl. rewrite !invocations_app. simpl. lia.
    + simpl. rewrite !invocations_app. simpl. lia.
  - case_bool_decide as Hrc.
    + etrans; [by apply IH|]. simpl. rewrite !invocations_app. simpl. lia.
    + simpl. rewrite !invocations_app. simpl. lia.
  - simpl. rewrite !invocations_app. simpl. lia.
  - destruct (present _ t); simpl; rewrite !invocations_app; simpl; lia.
Qed.

Lemma download_video_always_failing_from t u total n rc w :
  rc + n = MAX_RETRIES →
  fails_every_attempt (S n) (ytdlp_cmd t u) (env w) →
  let r := exec (download_video t u total rc) w in
  r.1 = inr false
  ∧ invocations (out r.2) = invocations (out w) + S n
  ∧ counters r.2 = (count_fail (counters w)).2.
Proof.
  revert rc w. induction n as [|n IH]; intros rc w Hn [Hr Hnext]; cbv zeta in *;
    rewrite exec_download_video; cbv zeta;
    destruct (run_process (env w) (ytdlp_cmd t u) 1800) as [r e'] eqn:Hrun;
    cbn [fst snd] in *;
    destruct r as [[|code stderr|name]|[]]; try done.
  - rewrite bool_decide_false by lia. cbn. rewrite !invocations_app. cbn.
    split; [done|]. split; [lia|done].
  - rewrite bool_decide_false by lia. cbn. rewrite !invocations_app. cbn.
    split; [done|]. split; [lia|done].
  - rewrite bool_decide_true by lia.
    destruct (IH (rc + 1) (verdict t total id (TimeoutRetry (rc + 1)) (after_run t u total w)))
      as (-> & -> & ->); [lia|cbn; by rewrite Hrun|].
    cbn. rewrite !invocations_app. cbn. split; [done|]. split; [lia|done].
  - rewrite bool_decide_true by lia.
    destruct (IH (rc + 1) (verdict t total id (Retry (rc + 1)) (after_run t u total w)))
      as (-> & -> & ->); [lia|cbn; by rewrite Hrun|].
    cbn. rewrite !invocations_app. cbn. split; [done|]. split; [lia|done].
Qed.

End Retry.

(** ** Following a program along its paths *)

Section Along.
Context {G : Type}.
Variable rule : ∀ A : Type, Eff A → G → (A → G → Prop) → Prop.
Hypothesis rule_mono : ∀ (A : Type) (eff : Eff A) g (Q Q' : A → G → Prop),
  (∀ a g', Q a g' → Q' a g') → rule A eff g Q → rule A eff g Q'.

Lemma along_mono {R : Type} (p : Prog R) (Qr Qr' : R → G → Prop)
    (Qe Qe' : exn → G → Prop) g :
  (∀ r g', Qr r g' → Qr' r g') → (∀ x g', Qe x g' → Qe' x g') →
  along rule p Qr Qe g → along rule p Qr' Qe' g.
Proof using rule_mono.
  intros Hr He. revert g. induction p as [r|x|A eff k IH]; intros g; simpl; auto.
  apply rule_mono. intros a g'. apply IH.
Qed.

Lemma along_bind {R S : Type} (p : Prog R) (f : R → Prog S)
    (Qr : S → G → Prop) (Qe : exn → G → Prop) g :
  along rule p (λ r g', along rule (f r) Qr Qe g') Qe g → along rule (p ≫= f) Qr Qe g.
Proof using rule_mono.
  revert g. induction p as [r|x|A eff k IH]; intros g; simpl; auto.
  apply rule_mono. intros a g'. apply IH.
Qed.

Lemma along_try_except {R : Type} (p : Prog R) (handler : exn → Prog R)
    (Qr : R → G → Prop) (Qe : exn → G → Prop) g :
  along rule p Qr (λ x g', along rule (handler x) Qr Qe g') g →
  along rule (try_except p handler) Qr Qe g.
Proof using rule_mono.
  revert g. induction p as [r|x|A eff k IH]; intros g; simpl; auto.
  apply rule_mono. intros a g'. apply IH.
Qed.

End Along.

(** ** One count per task *)

Lemma owes_rule_mono (A : Type) (eff : Eff A) g (Q Q' : A → nat → Prop) :
  (∀ a g', Q a g' → Q' a g') → owes_rule A eff g Q → owes_rule A eff g Q'.
Proof.
  intros HQ. destruct eff; simpl; [by auto|by auto| |by auto].
  intros [[? ?]|(? & g' & ? & ?)]; [left|right]; eauto 6.
Qed.

Lemma owes_video_exists_loop t exts (Q : bool → nat → Prop) (Qe : exn → nat → Prop) g :
  (∀ b, Q b g) → along owes_rule (video_exists_loop t exts) Q Qe g.
Proof.
  intros HQ. induction exts as [|ext exts IH]; [apply HQ|].
  cbn -[os_path_join]. intros [|]; [apply HQ|apply IH].
Qed.

Lemma owes_find_downloaded_file t exts (Q : option string → nat → Prop)
    (Qe : exn → nat → Prop) g :
  (∀ o, Q o g) → along owes_rule (find_downloaded_file t exts) Q Qe g.
Proof.
  intros HQ. induction exts as [|ext exts IH]; [apply HQ|].
  cbn -[os_path_join]. intros [|]; [apply HQ|apply IH].
Qed.

Lemma readonly_read_current : readonly read_current.
Proof. by intros c. Qed.

Lemma counts_one_success : counts_one count_success.
Proof. intros c. split; simpl; [done|]. left. done. Qed.

Lemma counts_one_fail : counts_one count_fail.
Proof. intros c. split; simpl; [done|]. right. right. done. Qed.

Lemma counts_one_fail_current : counts_one count_fail_current.
Proof. intros c. split; simpl; [done|]. right. right. done. Qed.

Lemma counts_one_skip : counts_one count_skip.
Proof. intros c. split; simpl; [done|]. right. left. done. Qed.

Create HintDb counts.

#[local] Hint Resolve readonly_read_current counts_one_success counts_one_fail
  counts_one_fail_current counts_one_skip : counts.

Lemma owes_download_video_rec depth t u total rc :
  MAX_RETRIES - rc < depth →
  owes 1 (download_video_rec depth t u total rc).
Proof.
  revert rc. induction depth as [|depth IH]; intros rc Hd; [lia|].
  rewrite download_video_rec_S. unfold owes, download_video_body.
  apply along_try_except; [apply owes_rule_mono|].
  cbn -[find_downloaded_file]. left. split; [auto with counts|].
  intros current [x|[]]; cbn -[find_downloaded_file].
  - destruct x as [|code stderr|name]; cbn.
    + left. split; [auto with counts|]. intros current'.
      case_bool_decide as Hrc; cbn.
      * apply IH. lia.
      * right. split; [auto with counts|]. by exists 0.
    + left. split; [auto with counts|]. intros current'.
      case_bool_decide as Hrc; cbn.
      * apply IH. lia.
      * right. split; [auto with counts|]. by exists 0.
    + right. split; [auto with counts|]. by exists 0.
  - apply (along_bind owes_rule owes_rule_mono).
    apply owes_find_downloaded_file. intros o.
    destruct (truthy o); cbn; right; (split; [auto with counts|]); by exists 0.
Qed.

Lemma owes_download_video_wrapper video total :
  owes 1 (download_video_wrapper video total).
Proof.
  unfold owes, download_video_wrapper.
  apply (along_bind owes_rule owes_rule_mono).
  apply owes_video_exists_loop. intros [|]; cbn.
  - right. split; [auto with counts|]. by exists 0.
  - apply (along_bind owes_rule owes_rule_mono).
    eapply (along_mono owes_rule owes_rule_mono);
      [| |apply owes_download_video_rec; lia]; by cbn.
Qed.

(** ** The runs of a batch *)

Section Runs.
Context {Env : Type} `{!Host Env}.
Implicit Types (w : World Env) (s : Pool Env).

Lemma pool_run_app max_workers total acts1 acts2 s :
  pool_run max_workers total (acts1 ++ acts2) s =
    match pool_run max_workers total acts1 s with
    | Some s1 => pool_run max_workers total acts2 s1
    | None => None
    end.
Proof.
  revert s. induction acts1 as [|a acts1 IH]; intros s; simpl; [done|].
  destruct (pool_step max_workers total a s); [apply IH|done].
Qed.

(** What holds when the batch starts and is kept by every step holds in
    every state of the batch. *)
Lemma batch_invariant (I : Pool Env → Prop) max_workers videos (e : Env) s :
  I (batch_start videos e) →
  (∀ a s1 s2, pool_step max_workers (length videos) a s1 = Some s2 → I s1 → I s2) →
  batch_reaches max_workers videos e s → I s.
Proof.
  intros Hstart Hkeep [acts Hrun].
  revert Hrun Hstart. generalize (batch_start videos e).
  induction acts as [|a acts IH]; intros s0 Hrun Hs0; simpl in Hrun.
  - by simplify_eq.
  - destruct (pool_step max_workers (length videos) a s0) as [s1|] eqn:Hstep; [|done].
    eauto.
Qed.

End Runs.

(** ** The batch, at any number of workers *)

Lemma sum_list_insert (gs : list nat) i g g' :
  gs !! i = Some g → sum_list (<[i:=g']> gs) + g = sum_list gs + g'.
Proof.
  revert i. induction gs as [|x gs IH]; intros [|i] Hi; simplify_eq/=; [lia|].
  specialize (IH _ Hi). lia.
Qed.

Lemma sum_list_delete (gs : list nat) i g :
  gs !! i = Some g → sum_list (delete i gs) + g = sum_list gs.
Proof.
  revert i. induction gs as [|x gs IH]; intros [|i] Hi; simplify_eq/=; [lia|].
  specialize (IH _ Hi). lia.
Qed.

Section Batch.
Context {Env : Type} `{!Host Env}.
Implicit Types (w : World Env) (s : Pool Env).

Lemma accounted_start videos (e : Env) : accounted (length videos) (batch_start videos e).
Proof. exists []. simpl. repeat split; [constructor|lia|lia]. Qed.

Lemma accounted_step max_workers total a s s' :
  pool_step max_workers total a s = Some s' →
  accounted total s → accounted total s'.
Proof.
  intros Hstep (gs & Hgs & Hlen & Hsum & Hc).
  destruct a as [|i|i]; simpl in Hstep.
  - destruct (queue s) as [|video q] eqn:Hq; [done|].
    case_bool_decide; [|done]. injection Hstep as <-.
    exists (gs ++ [1]). simpl in *. rewrite sum_list_with_app, !length_app. simpl.
    repeat split; [|lia..].
    apply Forall2_app; [done|]. repeat constructor. apply owes_download_video_wrapper.
  - destruct (running s !! i) as [[video [r|x|A eff k]]|] eqn:Hi; try done.
    injection Hstep as <-. simpl.
    destruct (Forall2_lookup_r _ _ _ _ _ Hgs Hi) as (g & Hg & Hp).
    unfold owes in Hp. simpl in Hp.
    assert (∀ a, along owes_rule (k a) (λ _ g', g' = 0) (λ _ _, False) g →
      Forall2 (λ g vt, owes g vt.2) gs (<[i:=(video, k a)]> (running s))) as Hsame.
    { intros a Ha. rewrite <- (list_insert_id gs i g) by done.
      by apply Forall2_insert. }
    destruct eff as [path|cmd timeout|A body|l]; simpl in *.
    + exists gs. simpl. rewrite length_insert. auto.
    + exists gs. simpl. rewrite length_insert. auto.
    + destruct Hp as [[Hro Hk]|(Hone & g' & -> & Hk)].
      * exists gs. simpl. rewrite length_insert, Hro. auto.
      * exists (<[i:=g']> gs). simpl. rewrite length_insert.
        pose proof (sum_list_insert gs i (S g') g' Hg) as Hs.
        destruct (Hone (counters (world s))) as [Hcompl Hcases].
        repeat split; [apply Forall2_insert; [done|apply Hk]|lia|lia|lia].
    + exists gs. simpl. rewrite length_insert. auto.
  - destruct (running s !! i) as [[video [r|x|A eff k]]|] eqn:Hi; try done.
    + injection Hstep as <-.
      destruct (Forall2_lookup_r _ _ _ _ _ Hgs Hi) as (g & Hg & Hp).
      unfold owes in Hp. simpl in Hp. subst g.
      pose proof (sum_list_delete gs i 0 Hg) as Hs.
      pose proof (lookup_lt_Some _ _ _ Hi) as Hlt.
      exists (delete i gs). simpl. rewrite length_app, length_delete by eauto. simpl.
      repeat split; [by apply Forall2_delete|lia|lia|lia].
    + destruct (Forall2_lookup_r _ _ _ _ _ Hgs Hi) as (g & Hg & Hp).
      unfold owes in Hp. simpl in Hp. done.
Qed.

Lemma accounted_run max_workers total acts s s' :
  pool_run max_workers total acts s = Some s' →
  accounted total s → accounted total s'.
Proof.
  revert s. induction acts as [|a acts IH]; intros s Hrun Hs; simpl in Hrun.
  - by simplify_eq.
  - destruct (pool_step max_workers total a s) as [s1|] eqn:Hstep; [|done].
    eauto using accounted_step.
Qed.

Lemma accounted_reaches max_workers videos e s :
  batch_reaches max_workers videos e s → accounted (length videos) s.
Proof.
  apply (batch_invariant (accounted (length videos))).
  - apply accounted_start.
  - intros a s1 s2. apply accounted_step.
Qed.

End Batch.

(** ** One worker: the [for] loop *)

Section Sequential.
Context {Env : Type} `{!Host Env}.
Implicit Types (w : World Env) (s : Pool Env).

Lemma loop_rest_cons total done video q w :
  loop_rest total done (video :: q) w =
    match exec (download_video_wrapper video total) w with
    | (inl x, w') => (inl x, w')
    | (inr r, w') => loop_rest total (done ++ [r]) q w'
    end.
Proof.
  unfold loop_rest. cbn [for_each_video].
  destruct (exec (download_video_wrapper video total) w) as [[x|r] w']; [done|].
  destruct (for_each_video q total w') as [[x|rs] w'']; [done|].
  by rewrite <- app_assoc.
Qed.

Lemma loop_outcome_step total a s s' :
  pool_step 1 total a s = Some s' →
  length (running s) ≤ 1 →
  loop_outcome total s' = loop_outcome total s
  ∧ length (running s') ≤ 1
  ∧ (results s').*1 ++ (running s').*1 ++ queue s'
    = (results s).*1 ++ (running s).*1 ++ queue s.
Proof.
  intros Hstep Hlen. unfold loop_outcome.
  destruct a as [|i|i]; simpl in Hstep.
  - destruct (queue s) as [|video q] eqn:Hq; [done|].
    case_bool_decide as Hfree; [|done]. injection Hstep as <-.
    destruct (running s) as [|vt l]; [|simpl in Hfree; lia]. cbn.
    by rewrite loop_rest_cons.
  - destruct (running s) as [|[video p] [|vt l]] eqn:Hr; [done| |simpl in Hlen; lia].
    destruct i as [|i]; [|done]. simpl in Hstep.
    destruct p as [r|x|A eff k]; [done|done|]. by injection Hstep as <-.
  - destruct (running s) as [|[video p] [|vt l]] eqn:Hr; [done| |simpl in Hlen; lia].
    destruct i as [|i]; [|done]. simpl in Hstep.
    destruct p as [r|x|A eff k]; [|done|done]. injection Hstep as <-. simpl.
    rewrite !fmap_app. simpl. split; [done|]. split; [lia|]. by rewrite <- app_assoc.
Qed.

Lemma loop_outcome_run total acts s s' :
  pool_run 1 total acts s = Some s' →
  length (running s) ≤ 1 →
  loop_outcome total s' = loop_outcome total s
  ∧ length (running s') ≤ 1
  ∧ (results s').*1 ++ (running s').*1 ++ queue s'
    = (results s).*1 ++ (running s).*1 ++ queue s.
Proof.
  revert s. induction acts as [|a acts IH]; intros s Hrun Hlen; simpl in Hrun.
  - by simplify_eq.
  - destruct (pool_step 1 total a s) as [s1|] eqn:Hstep; [|done].
    destruct (loop_outcome_step _ _ _ _ Hstep Hlen) as (Ho & Hlen1 & Ht).
    destruct (IH s1 Hrun Hlen1) as (Ho' & Hlen' & Ht').
    split; [congruence|]. split; [done|congruence].
Qed.

(** With one worker, one task at most is under way, and the tasks are
    taken in the order of the list. *)
Lemma one_worker_one_task videos (e : Env) s :
  batch_reaches 1 videos e s →
  length (running s) ≤ 1
  ∧ (results s).*1 ++ (running s).*1 ++ queue s = videos.
Proof.
  intros [acts Hrun].
  destruct (loop_outcome_run _ _ _ _ Hrun) as (_ & Hlen & Htasks); [simpl; lia|].
  done.
Qed.

(** With one worker, the batch is the loop: the tasks complete in the
    order of the list, with the results and in the world of
    [for_each_video]. *)
Lemma one_worker_is_loop videos e s :
  batch_reaches 1 videos e s → batch_over s →
  for_each_video videos (length videos) (mkWorld e zero_counters [])
    = (inr (results s).*2, world s)
  ∧ (results s).*1 = videos.
Proof.
  intros [acts Hrun] [Hq Hr].
  destruct (loop_outcome_run _ _ _ _ Hrun) as (Hout & _ & Htasks); [simpl; lia|].
  unfold loop_outcome, loop_rest in Hout. rewrite Hq, Hr in Hout, Htasks.
  simpl in Hout, Htasks. rewrite !app_nil_r in *.
  split; [|done].
  destruct (for_each_video videos _ _) as [[x|rs] w']; by simplify_eq.
Qed.

End Sequential.

(** ** The numbers on the progress lines *)

Lemma final_lines_app o1 o2 :
  final_lines (o1 ++ o2) = final_lines o1 ++ final_lines o2.
Proof.
  induction o1 as [|ev o1 IH]; simpl; [done|].
  destruct ev as [cmd timeout|l|t x]; [done| |done].
  destruct (final_msg (line_msg l)); simpl; by rewrite IH.
Qed.

Lemma numbered_from_final_lines k0 videos o :
  numbered_from k0 videos o →
  final_lines o = zip (seq k0 (length videos)) (title <$> videos).
Proof.
  revert k0 o. induction videos as [|video videos IH]; intros k0 o; simpl.
  - by intros ->.
  - intros (b & o' & -> & _ & Hb & Ho').
    rewrite final_lines_app, Hb. simpl. f_equal. by apply IH.
Qed.

Section Lines.
Context {Env : Type} `{!Host Env}.
Implicit Types (w : World Env) (t u : string).

Lemma download_video_lines t u total rc w :
  let r := exec (download_video t u total rc) w in
  let k := completed_count (counters w) + 1 in
  ∃ b, out r.2 = out w ++ b
    ∧ Forall (numbered k t) b
    ∧ final_lines b = [(k, t)]
    ∧ completed_count (counters r.2) = k.
Proof.
  cbv zeta. revert w. induction rc as [rc IH] using retry_induction. intros w.
  rewrite exec_download_video. cbv zeta.
  destruct (run_process (env w) (ytdlp_cmd t u) 1800) as [r e'] eqn:Hrun.
  destruct r as [[|code stderr|name]|[]]; cbn [fst snd].
  - case_bool_decide as Hrc.
    + destruct (IH Hrc (verdict t total id (TimeoutRetry (rc + 1)) (after_run t u total w)))
        as (b & -> & Hb & Hfin & ->).
      cbn. rewrite <- !app_assoc. eexists. split; [done|]. cbn.
      split; [|done]. repeat (constructor; [by cbn|]). done.
    + cbn. rewrite <- !app_assoc. eexists. split; [done|].
      split; [|done]. repeat (constructor; [by cbn|]). done.
  - case_bool_decide as Hrc.
    + destruct (IH Hrc (verdict t total id (Retry (rc + 1)) (after_run t u total w)))
        as (b & -> & Hb & Hfin & ->).
      cbn. rewrite <- !app_assoc. eexists. split; [done|]. cbn.
      split; [|done]. repeat (constructor; [by cbn|]). done.
    + cbn. rewrite <- !app_assoc. eexists. split; [done|].
      split; [|done]. repeat (constructor; [by cbn|]). done.
  - cbn. rewrite <- !app_assoc. eexists. split; [done|].
    split; [|done]. repeat (constructor; [by cbn|]). done.
  - destruct (present _ t); cbn; rewrite <- !app_assoc; (eexists; split; [done|]);
      (split; [|done]); repeat (constructor; [by cbn|]); done.
Qed.

Lemma exec_download_video_wrapper video total w :
  exec (download_video_wrapper video total) w =
    if present (env w) (title video)
    then (inr (mkResult (title video) skipped),
          verdict (title video) total (λ c, (count_skip c).2) Skipping w)
    else
      let r := exec (download_video (title video) (url video) total 0) w in
      match r.1 with
      | inl x => (inl x, r.2)
      | inr ok => (inr (mkResult (title video) (if ok : bool then success else failed)), r.2)
      end.
Proof.
  unfold download_video_wrapper.
  rewrite exec_bind, exec_video_exists.
  destruct (present (env w) (title video)); [done|].
  rewrite exec_bind. cbv zeta.
  by destruct (exec (download_video _ _ _ _) w) as [[x|ok] w'].
Qed.

Lemma download_video_wrapper_lines video total w :
  let r := exec (download_video_wrapper video total) w in
  let k := completed_count (counters w) + 1 in
  ∃ res b, r.1 = inr res
    ∧ out r.2 = out w ++ b
    ∧ Forall (numbered k (title video)) b
    ∧ final_lines b = [(k, title video)]
    ∧ completed_count (counters r.2) = k.
Proof.
  cbv zeta. rewrite exec_download_video_wrapper.
  destruct (present (env w) (title video)).
  - eexists _, _. split; [done|]. split; [done|]. cbn.
    split; [|done]. by repeat constructor.
  - cbv zeta.
    destruct (download_video_returns (title video) (url video) total 0 w) as [ok Hok].
    destruct (download_video_lines (title video) (url video) total 0 w)
      as (b & Hout & Hb & Hfin & Hc).
    rewrite Hok. cbn [fst snd]. eauto 10.
Qed.

Lemma for_each_video_lines videos total w :
  let r := for_each_video videos total w in
  ∃ rs o, r.1 = inr rs
    ∧ length rs = length videos
    ∧ out r.2 = out w ++ o
    ∧ numbered_from (completed_count (counters w) + 1) videos o.
Proof.
  cbv zeta. revert w. induction videos as [|video videos IH]; intros w.
  - exists [], []. cbn. by rewrite app_nil_r.
  - cbn [for_each_video].
    destruct (download_video_wrapper_lines video total w)
      as (res & b & Hres & Hout & Hb & Hfin & Hc).
    destruct (exec (download_video_wrapper video total) w) as [r w1].
    cbn [fst snd] in *. subst r.
    destruct (IH w1) as (rs & o & Hrs & Hlen & Hout' & Ho).
    destruct (for_each_video videos total w1) as [r w2].
    cbn [fst snd] in *. subst r.
    exists (res :: rs), (b ++ o). split; [done|]. split; [by cbn; f_equal|].
    split; [by cbn; rewrite Hout', Hout, app_assoc|].
    cbn. exists b, o. rewrite Hc in Ho.
    replace (S (completed_count (counters w) + 1))
      with (completed_count (counters w) + 1 + 1) by lia. done.
Qed.

End Lines.

(** ** Every batch can be brought to its end *)

Section Finish.
Context {Env : Type} `{!Host Env}.
Implicit Types (w : World Env) (s : Pool Env).

(** The worker at position [i] runs its task to the end, alone. *)
Lemma worker_finishes max_workers total (p : Prog Result) s video i :
  accounted total s →
  running s !! i = Some (video, p) →
  ∃ acts s', pool_run max_workers total acts s = Some s'
    ∧ queue s' = queue s
    ∧ length (running s') + 1 = length (running s).
Proof.
  revert s. induction p as [r|x|A eff k IH]; intros s Hacc Hi.
  - exists [Complete i]. eexists. cbn. rewrite Hi. split; [done|].
    split; [done|]. cbn. rewrite length_delete by eauto.
    apply lookup_lt_Some in Hi. lia.
  - destruct Hacc as (gs & Hgs & _).
    by destruct (Forall2_lookup_r _ _ _ _ _ Hgs Hi) as (g & _ & []).
  - pose proof (lookup_lt_Some _ _ _ Hi) as Hlt.
    destruct (pool_step max_workers total (Step i) s) as [s1|] eqn:Hstep;
      [|by cbn in Hstep; rewrite Hi in Hstep].
    pose proof (accounted_step _ _ _ _ _ Hstep Hacc) as Hacc1.
    cbn in Hstep. rewrite Hi in Hstep. injection Hstep as <-.
    edestruct (IH (handle eff (world s)).1) as (acts & s' & Hrun & Hq & Hlen);
      [exact Hacc1|by apply list_lookup_insert_eq|].
    exists (Step i :: acts), s'. cbn. rewrite Hi. split; [done|].
    cbn in Hq, Hlen. rewrite length_insert in Hlen. done.
Qed.

Lemma batch_can_finish max_workers total s :
  0 < max_workers →
  accounted total s →
  ∃ acts s', pool_run max_workers total acts s = Some s' ∧ batch_over s'.
Proof.
  intros Hn.
  remember (2 * length (queue s) + length (running s)) as m eqn:Hm.
  revert s Hm. induction (lt_wf m) as [m _ IH]. intros s Hm Hacc.
  destruct (running s) as [|[video p] l] eqn:Hr.
  - destruct (queue s) as [|video q] eqn:Hq.
    + by exists [], s.
    + destruct (pool_step max_workers total Submit s) as [s1|] eqn:Hstep;
        [|by cbn in Hstep; rewrite Hq, Hr, bool_decide_true in Hstep].
      pose proof (accounted_step _ _ _ _ _ Hstep Hacc) as Hacc1.
      destruct (IH (2 * length (queue s1) + length (running s1))) with (s := s1)
        as (acts & s' & Hrun & Hover); [|done|done|].
      * cbn in Hstep. rewrite Hq, Hr, bool_decide_true in Hstep by done.
        injection Hstep as <-. cbn in *. lia.
      * exists (Submit :: acts), s'. cbn [pool_run]. by rewrite Hstep.
  - destruct (worker_finishes max_workers total p s video 0)
      as (acts1 & s1 & Hrun1 & Hq1 & Hlen1); [done|by rewrite Hr|].
    destruct (IH (2 * length (queue s1) + length (running s1))) with (s := s1)
      as (acts & s' & Hrun & Hover); [|done|by eapply accounted_run|].
    + rewrite Hr in Hlen1. rewrite Hq1. cbn in *. lia.
    + exists (acts1 ++ acts), s'. by rewrite pool_run_app, Hrun1.
Qed.

End Finish.

(** ** Running a batch again *)

Lemma seen_rule_mono t (A : Type) (eff : Eff A) g (Q Q' : A → bool → Prop) :
  (∀ a g', Q a g' → Q' a g') → seen_rule t A eff g Q → seen_rule t A eff g Q'.
Proof. intros HQ. destruct eff; simpl; auto. Qed.

Lemma skip_rule_mono known (A : Type) (eff : Eff A) g (Q Q' : A → unit → Prop) :
  (∀ a g', Q a g' → Q' a g') → skip_rule known A eff g Q → skip_rule known A eff g Q'.
Proof. intros HQ. destruct eff; simpl; auto. Qed.

Lemma seen_video_exists_loop t exts (Q : bool → bool → Prop) (Qe : exn → bool → Prop) g :
  exts ⊆ extensions →
  (∀ b g', (b = true → g' = true) → (g = true → g' = true) → Q b g') →
  along (seen_rule t) (video_exists_loop t exts) Q Qe g.
Proof.
  intros Hsub HQ. revert g HQ. induction exts as [|ext exts IH]; intros g HQ.
  - by apply HQ.
  - cbn -[os_path_join]. intros [|].
    + apply HQ; [|by destruct g]. intros _.
      rewrite bool_decide_true; [by destruct g|].
      apply (list_elem_of_fmap_2 (λ ext, os_path_join OUTPUT_DIR (t +:+ ext))).
      apply Hsub. by left.
    + cbn. rewrite orb_false_r. apply IH; [|done].
      intros x Hx. apply Hsub. by right.
Qed.

Lemma seen_find_downloaded_file t exts (Q : option string → bool → Prop)
    (Qe : exn → bool → Prop) g :
  exts ⊆ extensions →
  (∀ o g', (truthy o = true → g' = true) → Q o g') →
  along (seen_rule t) (find_downloaded_file t exts) Q Qe g.
Proof.
  intros Hsub HQ. revert g. induction exts as [|ext exts IH]; intros g.
  - by apply HQ.
  - cbn -[os_path_join]. intros [|].
    + apply HQ. intros _.
      rewrite bool_decide_true; [by destruct g|].
      apply (list_elem_of_fmap_2 (λ ext, os_path_join OUTPUT_DIR (t +:+ ext))).
      apply Hsub. by left.
    + cbn. rewrite orb_false_r. apply IH.
      intros x Hx. apply Hsub. by right.
Qed.

Lemma sees_file_download_video_rec depth t u total rc g :
  sees_file t (λ ok : bool, ok = true) g (download_video_rec depth t u total rc).
Proof.
  revert rc g. induction depth as [|depth IH]; intros rc g; [done|].
  rewrite download_video_rec_S. unfold sees_file, download_video_body.
  apply along_try_except; [apply seen_rule_mono|].
  cbn -[find_downloaded_file].
  intros current [x|[]]; cbn -[find_downloaded_file].
  - destruct x as [|code stderr|name]; cbn.
    + intros current'. case_bool_decide as Hrc; cbn; [apply IH|done].
    + intros current'. case_bool_decide as Hrc; cbn; [apply IH|done].
    + done.
  - apply (along_bind _ (seen_rule_mono t)).
    apply seen_find_downloaded_file; [done|]. intros o g' Ho.
    destruct (truthy o); cbn; [by auto|done].
Qed.

Lemma sees_file_download_video_wrapper video total :
  sees_file (title video) (λ r, status r ≠ failed) false
    (download_video_wrapper video total).
Proof.
  unfold sees_file, download_video_wrapper.
  apply (along_bind _ (seen_rule_mono _)).
  apply seen_video_exists_loop; [done|]. intros [|] g' Hg' _; cbn.
  - by auto.
  - apply (along_bind _ (seen_rule_mono _)).
    eapply (along_mono _ (seen_rule_mono _));
      [| |apply (sees_file_download_video_rec _ _ _ _ 0 g')]; [|done].
    intros [|] g''; cbn; [by auto|done].
Qed.

Lemma skips_video_exists_loop known t exts (Q : bool → unit → Prop)
    (Qe : exn → unit → Prop) :
  existsb known ((λ ext, os_path_join OUTPUT_DIR (t +:+ ext)) <$> exts) = true →
  Q true tt →
  along (skip_rule known) (video_exists_loop t exts) Q Qe tt.
Proof.
  intros Hex HQ. induction exts as [|ext exts IH]; [done|].
  cbn -[os_path_join] in *. intros [|] Ha; [done|]. apply IH.
  destruct (known _); [by specialize (Ha eq_refl)|done].
Qed.

Lemma skips_download_video_wrapper known video total :
  existsb known (artifact_paths (title video)) = true →
  skips known (download_video_wrapper video total).
Proof.
  intros Hex. unfold skips, download_video_wrapper.
  apply (along_bind _ (skip_rule_mono _)).
  by apply skips_video_exists_loop.
Qed.

Section Rerun.
Context {Env : Type} `{!Host Env}.
Implicit Types (w : World Env) (s : Pool Env) (e : Env).

Lemma present_artifact_paths e t :
  present e t = existsb (path_exists e) (artifact_paths t).
Proof. reflexivity. Qed.

Lemma present_seen e t q :
  q ∈ artifact_paths t → path_exists e q = true → present e t = true.
Proof.
  intros Hq He. rewrite present_artifact_paths.
  apply existsb_exists. exists q. by rewrite <- list_elem_of_In.
Qed.

Lemma handle_keeps_files {A : Type} (eff : Eff A) w q :
  keeps_files Env →
  path_exists (env w) q = true → path_exists (env (handle eff w).2) q = true.
Proof. intros Hkeeps Hq. destruct eff; simpl; auto. Qed.

Lemma handle_keeps_present {A : Type} (eff : Eff A) w t :
  keeps_files Env →
  present (env w) t = true → present (env (handle eff w).2) t = true.
Proof.
  intros Hkeeps. rewrite !present_artifact_paths, !existsb_exists.
  intros (q & Hq & He). exists q. eauto using handle_keeps_files.
Qed.

Lemma files_kept_step max_workers total a s s' :
  keeps_files Env →
  pool_step max_workers total a s = Some s' →
  files_kept s → files_kept s'.
Proof.
  intros Hkeeps Hstep [(gs & Hgs) Hres].
  destruct a as [|i|i]; simpl in Hstep.
  - destruct (queue s) as [|video q] eqn:Hq; [done|].
    case_bool_decide; [|done]. injection Hstep as <-.
    split; [|done]. exists (gs ++ [false]). cbn.
    apply Forall2_app; [done|]. repeat constructor; [|done].
    apply sees_file_download_video_wrapper.
  - destruct (running s !! i) as [[video [r|x|A eff k]]|] eqn:Hi; try done.
    injection Hstep as <-. cbn [world running results].
    destruct (Forall2_lookup_r _ _ _ _ _ Hgs Hi) as (g & Hg & Hp & HJ).
    cbn [fst snd] in Hp, HJ.
    assert (∀ t, present (env (world s)) t = true →
      present (env (handle eff (world s)).2) t = true) as Hgrow
      by eauto using handle_keeps_present.
    split.
    + assert (∃ g', sees_file (title video) (λ r, status r ≠ failed) g'
                      (k (handle eff (world s)).1)
                ∧ (g' = true → present (env (handle eff (world s)).2) (title video) = true))
        as (g' & Hp' & HJ').
      { unfold sees_file in Hp. cbn [along] in Hp.
        destruct eff as [path|cmd timeout|A body|l]; cbn in Hp;
          [|by exists g; split; [apply Hp|auto]..].
        eexists. split; [apply Hp|]. intros [Hseen|[Ha Hq]%andb_prop]%orb_prop.
        - auto.
        - apply bool_decide_eq_true in Hq. cbn in Ha.
          eauto using present_seen. }
      exists (<[i:=g']> gs). apply Forall2_insert; [|done].
      eapply Forall2_impl; [done|]. intros g0 vt [? ?]. auto.
    + eapply Forall_impl; [done|]. intros vr Hvr ?. auto.
  - destruct (running s !! i) as [[video [r|x|A eff k]]|] eqn:Hi; try done.
    + injection Hstep as <-. cbn [world running results].
      destruct (Forall2_lookup_r _ _ _ _ _ Hgs Hi) as (g & Hg & Hp & HJ).
      split; [exists (delete i gs); by apply Forall2_delete|].
      apply Forall_app. split; [done|]. repeat constructor. cbn. auto.
    + case_bool_decide; [done|]. injection Hstep as <-.
      split; [exists (delete i gs); by apply Forall2_delete|done].
Qed.

Lemma files_kept_reaches max_workers videos e s :
  keeps_files Env →
  batch_reaches max_workers videos e s → files_kept s.
Proof.
  intros Hkeeps. apply (batch_invariant files_kept).
  - split; [by exists []; constructor|by constructor].
  - intros a s1 s2. by apply files_kept_step.
Qed.

Lemma skipping_step known videos max_workers total a s s' :
  keeps_files Env →
  pool_step max_workers total a s = Some s' →
  skipping known videos s → skipping known videos s'.
Proof.
  intros Hkeeps Hstep (Hknown & Hqueue & Hrun & Hres & Hinv).
  destruct a as [|i|i]; simpl in Hstep.
  - destruct (queue s) as [|video q] eqn:Hq; [done|].
    case_bool_decide; [|done]. injection Hstep as <-.
    apply Forall_cons in Hqueue as [Hvideo Hqueue].
    repeat split; cbn; [done|done| |done|done].
    apply Forall_app. split; [done|]. repeat constructor; [done|].
    cbn. apply skips_download_video_wrapper.
  - destruct (running s !! i) as [[video [r|x|A eff k]]|] eqn:Hi; try done.
    injection Hstep as <-. cbn [world queue running results].
    destruct (Forall_lookup_1 _ _ _ _ Hrun Hi) as [Hvideo Hskips].
    cbn [fst snd] in Hvideo, Hskips.
    repeat split; [by eauto using handle_keeps_files|done| |done|].
    + apply Forall_insert; [done|]. split; [done|]. cbn [fst snd].
      intros Hex. specialize (Hskips Hex). unfold skips in Hskips |- *.
      cbn [along] in Hskips.
      destruct eff as [path|cmd timeout|A body|l]; cbn in Hskips |- *;
        [|done|by auto..].
      apply Hskips. apply Hknown.
    + intros Hall. specialize (Hinv Hall). specialize (Hskips (Hall _ Hvideo)).
      unfold skips in Hskips. cbn [along] in Hskips.
      destruct eff as [path|cmd timeout|A body|l]; cbn in Hskips |- *;
        [done|done|done|].
      rewrite invocations_app. cbn. lia.
  - destruct (running s !! i) as [[video [r|x|A eff k]]|] eqn:Hi; try done.
    + injection Hstep as <-. cbn [world queue running results].
      destruct (Forall_lookup_1 _ _ _ _ Hrun Hi) as [Hvideo Hskips].
      repeat split; [done|done|by apply Forall_delete| |done].
      apply Forall_app. split; [done|]. repeat constructor; [done|].
      cbn. intros Hex. by specialize (Hskips Hex).
    + case_bool_decide; [done|]. injection Hstep as <-.
      repeat split; cbn; [done|done|by apply Forall_delete|done|].
      intros Hall. rewrite invocations_app. cbn. rewrite Hinv by done. done.
Qed.

Lemma skipping_reaches max_workers videos e s :
  keeps_files Env →
  batch_reaches max_workers videos e s →
  skipping (path_exists e) videos s.
Proof.
  intros Hkeeps. apply (batch_invariant (skipping (path_exists e) videos)).
  - repeat split; cbn; [done|by apply Forall_forall|done..].
  - intros a s1 s2. by apply skipping_step.
Qed.

End Rerun.

(** ** Reading the CSV file *)

Section ReadVideoUrls.

(** [str.strip] and [str.lower] *)
Variables (strip lower : string → string).

Lemma read_row_excluded row :
  excluded strip lower row = true →
  read_row strip lower row = inr None ∨ ∃ x, read_row strip lower row = inl x.
Proof.
  unfold excluded, read_row, row_title, row_url, column.
  destruct (row !! "Title") as [[tf|]|] eqn:HT; cbn;
    [| |destruct (row !! "title") as [[tf|]|] eqn:Ht; cbn];
    (destruct (row !! "URL") as [[uf|]|] eqn:HU; cbn;
     [| |destruct (row !! "url") as [[uf|]|] eqn:Hu; cbn]);
    rewrite ?HT, ?Ht, ?HU, ?Hu; cbn; eauto;
    repeat case_bool_decide; cbn; intros; simplify_eq/=; eauto;
    try (exfalso; by eauto);
    destruct (startswith (strip uf) "http"); cbn in *; eauto; congruence.
Qed.

Lemma read_row_not_excluded row :
  excluded strip lower row = false →
  (∃ video, read_row strip lower row = inr (Some video)
     ∧ row_item strip row = Some video)
  ∨ ∃ x, read_row strip lower row = inl x.
Proof.
  unfold excluded, read_row, row_item, row_title, row_url, column.
  destruct (row !! "Title") as [[tf|]|] eqn:HT; cbn;
    [| |destruct (row !! "title") as [[tf|]|] eqn:Ht; cbn];
    (destruct (row !! "URL") as [[uf|]|] eqn:HU; cbn;
     [| |destruct (row !! "url") as [[uf|]|] eqn:Hu; cbn]);
    rewrite ?HT, ?Ht, ?HU, ?Hu; cbn; eauto;
    repeat case_bool_decide; cbn; intros; simplify_eq/=; eauto;
    try (exfalso; by eauto);
    destruct (startswith (strip uf) "http"); cbn in *; eauto; congruence.
Qed.

Lemma read_rows_returns rows videos0 videos :
  read_rows strip lower rows videos0 = inr videos →
  Some <$> videos
  = (Some <$> videos0) ++ (row_item strip <$> filter (λ row, excluded strip lower row = false) rows).
Proof.
  revert videos0. induction rows as [|row rows IH]; intros videos0 Hread; simpl in Hread.
  - simplify_eq. by rewrite app_nil_r.
  - destruct (excluded strip lower row) eqn:Hex.
    + rewrite filter_cons_False by congruence.
      destruct (read_row_excluded row Hex) as [Hrow|[x Hrow]];
        rewrite Hrow in Hread; [by apply IH|done].
    + rewrite filter_cons_True by done.
      destruct (read_row_not_excluded row Hex) as [(video & Hrow & Hitem)|[x Hrow]];
        rewrite Hrow in Hread; [|done].
      rewrite (IH _ Hread), fmap_app, <- app_assoc. cbn. by rewrite Hitem.
Qed.

End ReadVideoUrls.

(** ** The tasks of a batch *)

Lemma own_rule_mono video (A : Type) (eff : Eff A) g (Q Q' : A → unit → Prop) :
  (∀ a g', Q a g' → Q' a g') → own_rule video A eff g Q → own_rule video A eff g Q'.
Proof. intros HQ. destruct eff; simpl; [auto| |auto|]; intros [? ?]; auto. Qed.

Lemma works_for_video_exists_loop video t exts (Q : bool → unit → Prop)
    (Qe : exn → unit → Prop) :
  (∀ b, Q b tt) → along (own_rule video) (video_exists_loop t exts) Q Qe tt.
Proof.
  intros HQ. induction exts as [|ext exts IH]; [apply HQ|].
  cbn -[os_path_join]. intros [|]; [apply HQ|apply IH].
Qed.

Lemma works_for_find_downloaded_file video t exts (Q : option string → unit → Prop)
    (Qe : exn → unit → Prop) :
  (∀ o, Q o tt) → along (own_rule video) (find_downloaded_file t exts) Q Qe tt.
Proof.
  intros HQ. induction exts as [|ext exts IH]; [apply HQ|].
  cbn -[os_path_join]. intros [|]; [apply HQ|apply IH].
Qed.

Lemma works_for_download_video_rec depth video total rc :
  works_for video (download_video_rec depth (title video) (url video) total rc).
Proof.
  revert rc. induction depth as [|depth IH]; intros rc; [done|].
  rewrite download_video_rec_S. unfold works_for, download_video_body.
  apply along_try_except; [apply own_rule_mono|].
  cbn -[find_downloaded_file].
  intros current. split; [done|]. split; [done|].
  intros [x|[]]; cbn -[find_downloaded_file].
  - destruct x as [|code stderr|name]; cbn.
    + intros current'. case_bool_decide as Hrc; cbn.
      * split; [done|]. apply IH.
      * intros []. by split.
    + intros current'. case_bool_decide as Hrc; cbn.
      * split; [done|]. apply IH.
      * intros []. by split.
    + intros current'. by split.
  - apply (along_bind _ (own_rule_mono video)).
    apply works_for_find_downloaded_file. intros o.
    destruct (truthy o); cbn; intros []; by split.
Qed.

Lemma works_for_download_video_wrapper video total :
  works_for video (download_video_wrapper video total).
Proof.
  unfold works_for, download_video_wrapper.
  apply (along_bind _ (own_rule_mono video)).
  apply works_for_video_exists_loop. intros [|]; cbn.
  - intros current. by split.
  - apply (along_bind _ (own_rule_mono video)).
    eapply (along_mono _ (own_rule_mono video));
      [| |apply works_for_download_video_rec]; done.
Qed.

Section OwnTasks.
Context {Env : Type} `{!Host Env}.
Implicit Types (w : World Env) (s : Pool Env).

Lemma own_tasks_step videos max_workers total a s s' :
  pool_step max_workers total a s = Some s' →
  own_tasks videos s → own_tasks videos s'.
Proof.
  intros Hstep (Hqueue & Hrun & Hres & Hout).
  destruct a as [|i|i]; simpl in Hstep.
  - destruct (queue s) as [|video q] eqn:Hq; [done|].
    case_bool_decide; [|done]. injection Hstep as <-.
    apply Forall_cons in Hqueue as [Hvideo Hqueue].
    repeat split; cbn; [done| |done|done].
    apply Forall_app. split; [done|]. repeat constructor; [done|].
    apply works_for_download_video_wrapper.
  - destruct (running s !! i) as [[video [r|x|A eff k]]|] eqn:Hi; try done.
    injection Hstep as <-. cbn [world queue running results].
    destruct (Forall_lookup_1 _ _ _ _ Hrun Hi) as [Hvideo Hworks].
    cbn [fst snd] in Hvideo, Hworks.
    unfold works_for in Hworks. cbn [along] in Hworks.
    repeat split; [done| |done|].
    + apply Forall_insert; [done|]. split; [done|]. cbn [fst snd].
      destruct eff as [path|cmd timeout|A body|l]; cbn in Hworks |- *;
        [apply Hworks|apply (proj2 Hworks)|apply Hworks|apply (proj2 Hworks)].
    + destruct eff as [path|cmd timeout|A body|l]; cbn in Hworks |- *;
        [done| |done|]; (apply Forall_app; split; [done|]);
        apply Forall_singleton; exists video; (split; [done|]);
        apply (proj1 Hworks).
  - destruct (running s !! i) as [[video [r|x|A eff k]]|] eqn:Hi; try done.
    + injection Hstep as <-. cbn [world queue running results].
      destruct (Forall_lookup_1 _ _ _ _ Hrun Hi) as [Hvideo Hworks].
      repeat split; [done|by apply Forall_delete| |done].
      apply Forall_app. split; [done|]. by repeat constructor.
    + case_bool_decide; [done|]. injection Hstep as <-.
      destruct (Forall_lookup_1 _ _ _ _ Hrun Hi) as [Hvideo Hworks].
      repeat split; cbn; [done|by apply Forall_delete|done|].
      apply Forall_app. split; [done|]. apply Forall_singleton. by exists video.
Qed.

Lemma own_tasks_reaches max_workers videos (e : Env) s :
  batch_reaches max_workers videos e s → own_tasks videos s.
Proof.
  apply (batch_invariant (own_tasks videos)).
  - repeat split; cbn; [by apply Forall_forall|done..].
  - intros a s1 s2. apply own_tasks_step.
Qed.

End OwnTasks.

(** ** The outcome of one task *)

Section Outcome.
Context {Env : Type} `{!Host Env}.
Implicit Types (w : World Env) (t u : string).

Lemma download_video_mismatch t u total rc w :
  (run_process (env w) (ytdlp_cmd t u) 1800).1 = inr () →
  present (run_process (env w) (ytdlp_cmd t u) 1800).2 t = false →
  exec (download_video t u total rc) w
  = (inr false,
     verdict t total (λ c, (count_fail c).2) FileNotFoundAfterDownload
       (after_run t u total w)).
Proof.
  intros Hrun Hfile. rewrite exec_download_video. cbv zeta.
  rewrite Hrun. cbn [after_run env]. by rewrite Hfile.
Qed.

Lemma download_video_other_exception t u total rc w name :
  (run_process (env w) (ytdlp_cmd t u) 1800).1 = inl (OtherException name) →
  exec (download_video t u total rc) w
  = (inr false,
     verdict t total (λ c, (count_fail c).2) (ErrorDownloading (OtherException name))
       (after_run t u total w)).
Proof. intros Hrun. rewrite exec_download_video. cbv zeta. by rewrite Hrun. Qed.

Lemma download_video_true t u total rc w :
  let r := exec (download_video t u total rc) w in
  r.1 = inr true →
  present (env r.2) t = true
  ∧ success_count (counters r.2) = success_count (counters w) + 1
  ∧ invocations (out w) < invocations (out r.2).
Proof.
  cbv zeta. revert w. induction rc as [rc IH] using retry_induction. intros w.
  rewrite exec_download_video. cbv zeta.
  destruct (run_process (env w) (ytdlp_cmd t u) 1800) as [r e'] eqn:Hrun.
  destruct r as [[|code stderr|name]|[]]; cbn [fst snd].
  - case_bool_decide as Hrc; [|done]. intros Htrue.
    destruct (IH Hrc _ Htrue) as (Hp & Hs & Hi). split; [done|].
    split; [done|]. cbn in Hi. rewrite !invocations_app in Hi. lia.
  - case_bool_decide as Hrc; [|done]. intros Htrue.
    destruct (IH Hrc _ Htrue) as (Hp & Hs & Hi). split; [done|].
    split; [done|]. cbn in Hi. rewrite !invocations_app in Hi. lia.
  - done.
  - cbn [after_run env]. rewrite Hrun. cbn [snd].
    destruct (present e' t) eqn:Hfile; [|done]. intros _.
    cbn. rewrite !invocations_app, Hrun. cbn. split; [done|]. split; lia.
Qed.

End Outcome.

Lemma sim_keeps_files : keeps_files Sim.
Proof.
  intros e cmd timeout q. cbn. rewrite !bool_decide_eq_true.
  intros Hq. apply elem_of_app. by left.
Qed.

Lemma read_rows_app strip lower rows1 rows2 videos :
  read_rows strip lower (rows1 ++ rows2) videos =
    match read_rows strip lower rows1 videos with
    | inl x => inl x
    | inr videos' => read_rows strip lower rows2 videos'
    end.
Proof.
  revert videos. induction rows1 as [|row rows1 IH]; intros videos; simpl; [done|].
  destruct (read_row strip lower row) as [x|[video|]]; [done|apply IH..].
Qed.

(** ** The scenarios of the specification, run on the scripted host *)

(** Two videos, an empty output directory, one worker, both fetched at
    the first attempt. *)
Example scenario_a :
  let r := for_each_video [video_a; video_b] 2 (sim_world [] plan_download) in
  r.1 = inr [mkResult "A" success; mkResult "B" success]
  ∧ counters r.2 = mkCounters 2 0 0 2
  ∧ sim_files (env r.2)
    = ["Videos/Trim_Videos/raw_video/A.mp4"; "Videos/Trim_Videos/raw_video/B.mp4"].
Proof. vm_compute. repeat split. Qed.

(** One video, whose file is already there. *)
Example scenario_b :
  let r := for_each_video [video_a] 1
             (sim_world ["Videos/Trim_Videos/raw_video/A.mp4"] plan_download) in
  r.1 = inr [mkResult "A" skipped]
  ∧ counters r.2 = mkCounters 0 1 0 1
  ∧ invocations (out r.2) = 0.
Proof. vm_compute. repeat split. Qed.

(** One video, every attempt ends in a process error. *)
Example scenario_c :
  let r := for_each_video [video_a] 1 (sim_world [] plan_process_error) in
  r.1 = inr [mkResult "A" failed]
  ∧ counters r.2 = mkCounters 0 0 1 1
  ∧ invocations (out r.2) = MAX_RETRIES + 1.
Proof. vm_compute. repeat split. Qed.

(** One video, every attempt ends in a time-out: the outcome line says
    so, and differs from the line after process errors. *)
Example scenario_timeout :
  let r := for_each_video [video_a] 1 (sim_world [] plan_timeout) in
  r.1 = inr [mkResult "A" failed]
  ∧ invocations (out r.2) = MAX_RETRIES + 1
  ∧ last (out r.2) = Some (EvPrint (mkLine 1 1 TimeoutAfterRetries "A")).
Proof. vm_compute. repeat split. Qed.

(** * Part III: the properties of the specification *)

(** On a standard output that takes every line: in every state a batch
    can be in, with any number of workers,
    [completed_count = success_count + skip_count + fail_count ≤ total];
    when the batch is over the three counters add up to [total]; and
    every batch can be brought to its end.  However a task is
    interleaved with the others, it counts its outcome exactly once,
    adding one to [completed_count] and to exactly one of the three
    other counters. *)
Lemma progress_counters_invariant {Env : Type} `{!Host Env}
    (max_workers : nat) (videos : list Video) (e : Env) (s : Pool Env) :
  batch_reaches max_workers videos e s →
  let c := counters (world s) in
  (∀ video, owes 1 (download_video_wrapper video (length videos)))
  ∧ completed_count c = success_count c + skip_count c + fail_count c
  ∧ completed_count c ≤ length videos
  ∧ (batch_over s →
     success_count c + skip_count c + fail_count c = length videos)
  ∧ (0 < max_workers →
     ∃ acts s', pool_run max_workers (length videos) acts s = Some s'
       ∧ batch_over s').
Proof.
  intros Hreach. cbv zeta.
  pose proof (accounted_reaches _ _ _ _ Hreach) as Hacc.
  destruct (Hacc) as (gs & Hgs & Hlen & Hsum & Hc).
  split; [intros video; apply owes_download_video_wrapper|].
  split; [done|]. split; [lia|]. split.
  - intros [Hq Hr]. rewrite Hr in Hgs. apply Forall2_nil_inv_r in Hgs as ->.
    rewrite Hq in Hsum. cbn in Hsum. lia.
  - intros Hn. by apply batch_can_finish.
Qed.

(** C1 does not hold of the code.  Two workers, one video that is not
    in the output directory and is fetched at the first attempt, on a
    standard output that cannot encode the marks of the outcome lines.
    The success is counted; the "Successfully downloaded" line raises
    inside the [try]; [except Exception] counts a failure; its own line
    raises, and the exception leaves the task; the [except] of [main]
    counts a failure again.  The batch is over with three outcomes
    counted for one video, and no result. *)
Theorem outcome_counted_thrice :
  let s := run_batch_on ascii_stdout 2 [video_a] (mkSim [] 0 plan_download)
             garbled_schedule in
  batch_reaches_on ascii_stdout 2 [video_a] (mkSim [] 0 plan_download) s
  ∧ batch_over s
  ∧ counters (world s) = mkCounters 1 0 2 3
  ∧ results s = []
  ∧ excepted (out (world s)) = ["A"]
  ∧ length [video_a] < completed_count (counters (world s)).
Proof.
  cbv zeta. split; [exists garbled_schedule; vm_compute; reflexivity|].
  vm_compute. repeat split. lia.
Qed.






(** C4.  [download_video] returns [True], and counts a success, only if
    a file [title.ext] with one of the four extensions is in the output
    directory once the external process has run; and a run that exits
    with status zero and leaves no such file gives [False] and counts a
    failure, not a success. *)
Theorem success_needs_artifact {Env : Type} `{!Host Env} (t u : string)
    (total rc : nat) (w : World Env) :
  let r := exec (download_video t u total rc) w in
  (r.1 = inr true →
   present (env r.2) t = true
   ∧ success_count (counters r.2) = success_count (counters w) + 1
   ∧ invocations (out w) < invocations (out r.2))
  ∧ ((run_process (env w) (ytdlp_cmd t u) 1800).1 = inr () →
     present (run_process (env w) (ytdlp_cmd t u) 1800).2 t = false →
     r.1 = inr false
     ∧ success_count (counters r.2) = success_count (counters w)
     ∧ fail_count (counters r.2) = fail_count (counters w) + 1).
Proof.
  cbv zeta. split.
  - apply download_video_true.
  - intros Hrun Hfile. by rewrite download_video_mismatch.
Qed.

Lemma success_needs_artifact_witness :
  let w := sim_world [] plan_download in
  (exec (download_video "A" "http://x/a" 1 0) w).1 = inr true
  ∧ present (env (exec (download_video "A" "http://x/a" 1 0) w).2) "A" = true.
Proof.
  cbv zeta.
  assert ((exec (download_video "A" "http://x/a" 1 0)
             (sim_world [] plan_download)).1 = inr true) as Htrue
    by (vm_compute; reflexivity).
  split; [exact Htrue|].
  exact (proj1 (proj1 (success_needs_artifact "A" "http://x/a" 1 0
                         (sim_world [] plan_download)) Htrue)).
Defined.



(** C6 does not hold of the code.  Two workers, two videos that are not
    in the output directory and are fetched at the first attempt: both
    workers read [current = completed_count + 1 = 1] before either has
    counted its outcome, and both outcome lines carry the number 1; the
    number 2 is never printed, while the counters end at 2. *)
Theorem stale_sequence_number :
  let s := run_batch 2 [video_a; video_b] (mkSim [] 0 plan_download) racing_schedule in
  batch_reaches 2 [video_a; video_b] (mkSim [] 0 plan_download) s
  ∧ batch_over s
  ∧ (results s).*2 = [mkResult "A" success; mkResult "B" success]
  ∧ counters (world s) = mkCounters 2 0 0 2
  ∧ final_lines (out (world s)) = [(1, "A"); (1, "B")].
Proof.
  cbv zeta. split; [exists racing_schedule; vm_compute; reflexivity|].
  vm_compute. repeat split.
Qed.



(** On a standard output that takes every line: an exception of
    [subprocess.run] that is neither a time-out nor a process error is
    caught in [download_video]: the function returns [False] after this
    one run, without another attempt, and counts one failure.  No
    exception leaves [download_video_wrapper], so the loop handles every
    video of the list, and no task of a pool ends with an exception. *)
Lemma unexpected_exception_contained {Env : Type} `{!Host Env} :
  (∀ t u total rc (w : World Env) name,
     (run_process (env w) (ytdlp_cmd t u) 1800).1 = inl (OtherException name) →
     let r := exec (download_video t u total rc) w in
     r.1 = inr false
     ∧ counters r.2 = (count_fail (counters w)).2
     ∧ invocations (out r.2) = invocations (out w) + 1)
  ∧ (∀ video total (w : World Env),
       ∃ res, (exec (download_video_wrapper video total) w).1 = inr res)
  ∧ (∀ videos total (w : World Env),
       ∃ rs, (for_each_video videos total w).1 = inr rs ∧ length rs = length videos)
  ∧ (∀ max_workers videos (e : Env) s i video x,
       batch_reaches max_workers videos e s →
       running s !! i ≠ Some (video, Raise x)).
Proof.
  split; [|split; [|split]].
  - intros t u total rc w name Hrun. cbv zeta.
    rewrite (download_video_other_exception _ _ _ _ _ _ Hrun). cbn.
    rewrite !invocations_app. cbn. repeat split. lia.
  - intros video total w.
    destruct (download_video_wrapper_lines video total w) as (res & b & Hres & _).
    eauto.
  - intros videos total w.
    destruct (for_each_video_lines videos total w) as (rs & o & Hrs & Hlen & _).
    eauto.
  - intros max_workers videos e s i video x Hreach Hi.
    destruct (accounted_reaches _ _ _ _ Hreach) as (gs & Hgs & _).
    by destruct (Forall2_lookup_r _ _ _ _ _ Hgs Hi) as (g & _ & []).
Qed.

(** C8 does not hold of the code.  One worker, two videos that are not
    in the output directory, a process that fetches at the first attempt,
    and a standard output that cannot encode the marks of the outcome
    lines.  For the first video the "Successfully downloaded" line
    raises a [UnicodeEncodeError] inside the [try]; [except Exception]
    catches it and counts a failure beside the success; its own "Error
    downloading" line raises in turn, and nothing catches that: the
    exception leaves [download_video], [download_video_wrapper] and the
    [for] loop of [main].  The second video is never handled.  With
    more than one worker the same exception is caught by the [except] of
    the loop over [as_completed]. *)
Theorem print_failure_aborts_loop :
  let r := for_each_video_on ascii_stdout [video_a; video_b] 2
             (sim_world [] plan_download) in
  r.1 = inl (OtherException "UnicodeEncodeError")
  ∧ counters r.2 = mkCounters 1 0 1 2
  ∧ Forall (about video_a) (out r.2)
  ∧ invocations (out r.2) = 1
  ∧ sim_files (env r.2) = ["Videos/Trim_Videos/raw_video/A.mp4"].
Proof.
  cbv zeta. vm_compute. repeat split; repeat constructor.
Qed.






(** * Part IV: further properties of the code *)

(** ** The two loops over the extensions, under any rule *)

Section AlongLoops.
Context {G : Type}.
Variable rule : ∀ A : Type, Eff A → G → (A → G → Prop) → Prop.
Hypothesis rule_exists : ∀ q g (Q : bool → G → Prop),
  (∀ a, Q a g) → rule bool (OsPathExists q) g Q.

Lemma along_video_exists_loop t exts (Q : bool → G → Prop) (Qe : exn → G → Prop) g :
  (∀ b, Q b g) → along rule (video_exists_loop t exts) Q Qe g.
Proof using rule_exists.
  intros HQ. induction exts as [|ext exts IH]; [apply HQ|].
  cbn -[os_path_join]. apply rule_exists. intros [|]; [apply HQ|apply IH].
Qed.

Lemma along_find_downloaded_file t exts (Q : option string → G → Prop)
    (Qe : exn → G → Prop) g :
  (∀ o, Q o g) → along rule (find_downloaded_file t exts) Q Qe g.
Proof using rule_exists.
  intros HQ. induction exts as [|ext exts IH]; [apply HQ|].
  cbn -[os_path_join]. apply rule_exists. intros [|]; [apply HQ|apply IH].
Qed.

End AlongLoops.

(** ** What a task counts, prints and runs *)

Lemma tally_rule_mono (A : Type) (eff : Eff A) g (Q Q' : A → option Status → Prop) :
  (∀ a g', Q a g' → Q' a g') → tally_rule A eff g Q → tally_rule A eff g Q'.
Proof.
  intros HQ. destruct eff; simpl; [by auto|by auto| |by auto].
  intros [[? ?]|(st & ? & ? & ?)]; [left|right]; eauto 6.
Qed.

Lemma range_rule_mono total (A : Type) (eff : Eff A) g (Q Q' : A → nat → Prop) :
  (∀ a g', Q a g' → Q' a g') → range_rule total A eff g Q → range_rule total A eff g Q'.
Proof.
  intros HQ. destruct eff; simpl; [by auto|by auto| |by intros [? ?]; auto].
  intros [[? ?]|(? & g' & ? & ?)]; [left|right]; eauto 8.
Qed.

Lemma budget_rule_mono (A : Type) (eff : Eff A) g (Q Q' : A → nat → Prop) :
  (∀ a g', Q a g' → Q' a g') → budget_rule A eff g Q → budget_rule A eff g Q'.
Proof.
  intros HQ. destruct eff; simpl; [by auto| |by auto|by auto].
  intros (g' & ? & ?). eauto.
Qed.

Lemma tally_download_video_rec depth t u total rc :
  MAX_RETRIES - rc < depth →
  along tally_rule (download_video_rec depth t u total rc)
    (λ ok g', g' = Some (if ok : bool then success else failed)) (λ _ _, False) None.
Proof.
  revert rc. induction depth as [|depth IH]; intros rc Hd; [lia|].
  rewrite download_video_rec_S. unfold download_video_body.
  apply along_try_except; [apply tally_rule_mono|].
  cbn -[find_downloaded_file]. left. split; [auto with counts|].
  intros current [x|[]]; cbn -[find_downloaded_file].
  - destruct x as [|code stderr|name]; cbn.
    + left. split; [auto with counts|]. intros current'.
      case_bool_decide as Hrc; cbn.
      * apply IH. lia.
      * right. by exists failed.
    + left. split; [auto with counts|]. intros current'.
      case_bool_decide as Hrc; cbn.
      * apply IH. lia.
      * right. by exists failed.
    + right. by exists failed.
  - apply (along_bind tally_rule tally_rule_mono).
    apply along_find_downloaded_file; [by cbn; auto|]. intros o.
    destruct (truthy o); cbn; right; [by exists success|by exists failed].
Qed.

Lemma reports_download_video_wrapper video total :
  reports video None (download_video_wrapper video total).
Proof.
  unfold reports, download_video_wrapper.
  apply (along_bind tally_rule tally_rule_mono).
  apply along_video_exists_loop; [by cbn; auto|]. intros [|]; cbn.
  - right. by exists skipped.
  - apply (along_bind tally_rule tally_rule_mono).
    eapply (along_mono tally_rule tally_rule_mono);
      [| |apply tally_download_video_rec; lia]; [|done].
    by intros [|] g' ->.
Qed.

Lemma in_range_download_video_rec depth t u total rc :
  MAX_RETRIES - rc < depth →
  in_range total 1 (download_video_rec depth t u total rc).
Proof.
  revert rc. induction depth as [|depth IH]; intros rc Hd; [lia|].
  rewrite download_video_rec_S. unfold in_range, download_video_body.
  apply along_try_except; [apply range_rule_mono|].
  cbn -[find_downloaded_file]. left. split; [auto with counts|].
  intros c Hc. split; [lia|]. intros [x|[]]; cbn -[find_downloaded_file].
  - destruct x as [|code stderr|name]; cbn.
    + left. split; [auto with counts|]. intros c' Hc'.
      case_bool_decide as Hrc; cbn.
      * split; [lia|]. apply IH. lia.
      * right. split; [auto with counts|]. exists 0. split; [done|].
        intros c'' _. split; [lia|done].
    + left. split; [auto with counts|]. intros c' Hc'.
      case_bool_decide as Hrc; cbn.
      * split; [lia|]. apply IH. lia.
      * right. split; [auto with counts|]. exists 0. split; [done|].
        intros c'' _. split; [lia|done].
    + right. split; [auto with counts|]. exists 0. split; [done|].
      intros c' Hc'. split; [lia|done].
  - apply (along_bind _ (range_rule_mono total)).
    apply along_find_downloaded_file; [by cbn; auto|]. intros o.
    destruct (truthy o); cbn; right; (split; [auto with counts|]);
      exists 0; (split; [done|]); intros c' _; (split; [lia|done]).
Qed.

Lemma in_range_download_video_wrapper video total :
  in_range total 1 (download_video_wrapper video total).
Proof.
  unfold in_range, download_video_wrapper.
  apply (along_bind _ (range_rule_mono total)).
  apply along_video_exists_loop; [by cbn; auto|]. intros [|]; cbn.
  - right. split; [auto with counts|]. exists 0. split; [done|].
    intros c Hc. split; [lia|done].
  - apply (along_bind _ (range_rule_mono total)).
    eapply (along_mono _ (range_rule_mono total));
      [| |apply in_range_download_video_rec; lia]; by cbn.
Qed.

Lemma within_budget_download_video_rec depth t u total rc g :
  MAX_RETRIES - rc < g →
  within_budget g (download_video_rec depth t u total rc).
Proof.
  revert rc g. induction depth as [|depth IH]; intros rc g Hg; [done|].
  rewrite download_video_rec_S. unfold within_budget, download_video_body.
  apply along_try_except; [apply budget_rule_mono|].
  cbn -[find_downloaded_file].
  intros current. destruct g as [|g]; [lia|]. exists g. split; [done|].
  intros [x|[]]; cbn -[find_downloaded_file].
  - destruct x as [|code stderr|name]; cbn.
    + intros current'. case_bool_decide as Hrc; cbn; [|done].
      apply IH. lia.
    + intros current'. case_bool_decide as Hrc; cbn; [|done].
      apply IH. lia.
    + done.
  - apply (along_bind _ budget_rule_mono).
    apply along_find_downloaded_file; [by cbn; auto|]. intros o.
    by destruct (truthy o).
Qed.

Lemma within_budget_download_video_wrapper video total :
  within_budget (MAX_RETRIES + 1) (download_video_wrapper video total).
Proof.
  unfold within_budget, download_video_wrapper.
  apply (along_bind _ budget_rule_mono).
  apply along_video_exists_loop; [by cbn; auto|]. intros [|]; cbn; [done|].
  apply (along_bind _ budget_rule_mono).
  eapply (along_mono _ budget_rule_mono);
    [| |apply within_budget_download_video_rec; lia]; by cbn.
Qed.


(** ** Further invariants of the batch *)

Lemma sum_list_with_insert {A : Type} (f : A → nat) (l : list A) i x y :
  l !! i = Some x → sum_list_with f (<[i:=y]> l) + f x = sum_list_with f l + f y.
Proof.
  revert i. induction l as [|z l IH]; intros [|i] Hi; simplify_eq/=; [lia|].
  specialize (IH _ Hi). lia.
Qed.

Lemma sum_list_with_delete {A : Type} (f : A → nat) (l : list A) i x :
  l !! i = Some x → sum_list_with f (delete i l) + f x = sum_list_with f l.
Proof.
  revert i. induction l as [|z l IH]; intros [|i] Hi; simplify_eq/=; [lia|].
  specialize (IH _ Hi). lia.
Qed.

Lemma counter_bump st st' c :
  counter st (bump st' c) = counter st c + (if bool_decide (st' = st) then 1 else 0).
Proof. destruct st, st'; simpl; lia. Qed.

Lemma invocations_snoc o ev :
  invocations (o ++ [ev]) = invocations o + match ev with EvRun _ _ => 1 | _ => 0 end.
Proof. rewrite invocations_app. by destruct ev. Qed.

Section MoreBatch.
Context {Env : Type} `{!Host Env}.
Implicit Types (w : World Env) (s : Pool Env).

Lemma tallied_start videos (e : Env) : tallied (batch_start videos e).
Proof. exists []. repeat split; [constructor|constructor|by intros []]. Qed.

Lemma tallied_step max_workers total a s s' :
  pool_step max_workers total a s = Some s' → tallied s → tallied s'.
Proof.
  intros Hstep (gs & Hgs & Hres & Hc).
  destruct a as [|i|i]; simpl in Hstep.
  - destruct (queue s) as [|video q] eqn:Hq; [done|].
    case_bool_decide; [|done]. injection Hstep as <-.
    exists (gs ++ [None]). simpl. repeat split; [|done|].
    + apply Forall2_app; [done|]. repeat constructor.
      apply reports_download_video_wrapper.
    + intros st. unfold occurrences in *. rewrite sum_list_with_app, Hc. simpl. lia.
  - destruct (running s !! i) as [[video [r|x|A eff k]]|] eqn:Hi; try done.
    injection Hstep as <-. simpl.
    destruct (Forall2_lookup_r _ _ _ _ _ Hgs Hi) as (g & Hg & Hp).
    unfold reports in Hp. simpl in Hp.
    assert (∀ a, reports video g (k a) →
      Forall2 (λ g vt, reports vt.1 g vt.2) gs (<[i:=(video, k a)]> (running s)))
      as Hsame.
    { intros a Ha. rewrite <- (list_insert_id gs i g) by done.
      by apply Forall2_insert. }
    unfold reports in Hsame at 1.
    destruct eff as [path|cmd timeout|A body|l]; simpl in *.
    + exists gs. simpl. auto.
    + exists gs. simpl. auto.
    + destruct Hp as [[Hro Hk]|(st' & Hst & -> & Hk)].
      * exists gs. simpl. rewrite Hro. auto.
      * exists (<[i:=Some st']> gs). simpl. repeat split; [|done|].
        { apply Forall2_insert; [done|apply Hk]. }
        intros st. rewrite Hst, counter_bump, Hc.
        pose proof (sum_list_with_insert
          (λ y, if bool_decide (y = Some st) then 1 else 0) gs i None (Some st') Hg)
          as Hs.
        unfold occurrences. simpl in Hs.
        rewrite (bool_decide_ext (Some st' = Some st) (st' = st)) in Hs
          by (split; congruence).
        lia.
    + exists gs. simpl. auto.
  - destruct (running s !! i) as [[video [r|x|A eff k]]|] eqn:Hi; try done.
    + injection Hstep as <-.
      destruct (Forall2_lookup_r _ _ _ _ _ Hgs Hi) as (g & Hg & Hp).
      unfold reports in Hp. simpl in Hp. destruct Hp as [-> Ht].
      exists (delete i gs). simpl. repeat split.
      * by apply Forall2_delete.
      * apply Forall_app. split; [done|]. by apply Forall_singleton.
      * intros st. rewrite Hc.
        pose proof (sum_list_with_delete
          (λ y, if bool_decide (y = Some st) then 1 else 0) gs i _ Hg) as Hs.
        unfold occurrences. simpl in Hs.
        rewrite (bool_decide_ext (Some (status r) = Some st) (status r = st)) in Hs
          by (split; congruence).
        rewrite !fmap_app, sum_list_with_app. simpl. lia.
    + destruct (Forall2_lookup_r _ _ _ _ _ Hgs Hi) as (g & Hg & Hp).
      unfold reports in Hp. simpl in Hp. done.
Qed.

Lemma numbers_in_range_step max_workers total a s s' :
  pool_step max_workers total a s = Some s' →
  numbers_in_range total s → numbers_in_range total s'.
Proof.
  intros Hstep [(gs & Hgs & Hsum) Hout].
  destruct a as [|i|i]; simpl in Hstep.
  - destruct (queue s) as [|video q] eqn:Hq; [done|].
    case_bool_decide; [|done]. injection Hstep as <-.
    split; [|done]. exists (gs ++ [1]). simpl in *.
    rewrite sum_list_with_app. simpl. split; [|lia].
    apply Forall2_app; [done|]. repeat constructor.
    apply in_range_download_video_wrapper.
  - destruct (running s !! i) as [[video [r|x|A eff k]]|] eqn:Hi; try done.
    injection Hstep as <-. simpl.
    destruct (Forall2_lookup_r _ _ _ _ _ Hgs Hi) as (g & Hg & Hp).
    unfold in_range in Hp. simpl in Hp.
    pose proof (sum_list_delete gs i g Hg) as Hle.
    assert (∀ a, in_range total g (k a) →
      Forall2 (λ g vt, in_range total g vt.2) gs (<[i:=(video, k a)]> (running s)))
      as Hsame.
    { intros a Ha. rewrite <- (list_insert_id gs i g) by done.
      by apply Forall2_insert. }
    unfold in_range in Hsame at 1.
    destruct eff as [path|cmd timeout|A body|l]; simpl in *.
    + split; [|done]. exists gs. simpl. auto.
    + split; [exists gs; simpl; auto|].
      apply Forall_app. split; [done|]. by apply Forall_singleton.
    + split; [|done]. destruct Hp as [[Hro Hk]|(Hone & g' & -> & Hk)].
      * exists gs. simpl. rewrite Hro. split; [|done].
        apply Hsame, Hk. lia.
      * exists (<[i:=g']> gs). simpl.
        pose proof (sum_list_insert gs i (S g') g' Hg) as Hs.
        destruct (Hone (counters (world s))) as [Hcompl _].
        split; [|lia]. apply Forall2_insert; [done|]. apply Hk. lia.
    + destruct Hp as [Hl Hk]. split; [exists gs; simpl; auto|].
      apply Forall_app. split; [done|]. by apply Forall_singleton.
  - destruct (running s !! i) as [[video [r|x|A eff k]]|] eqn:Hi; try done.
    + injection Hstep as <-.
      destruct (Forall2_lookup_r _ _ _ _ _ Hgs Hi) as (g & Hg & Hp).
      unfold in_range in Hp. simpl in Hp. subst g.
      pose proof (sum_list_delete gs i 0 Hg) as Hs.
      split; [|done]. exists (delete i gs). simpl.
      split; [by apply Forall2_delete|lia].
    + destruct (Forall2_lookup_r _ _ _ _ _ Hgs Hi) as (g & Hg & Hp).
      unfold in_range in Hp. simpl in Hp. done.
Qed.

Lemma budgeted_step max_workers total a s s' :
  pool_step max_workers total a s = Some s' →
  budgeted total s → budgeted total s'.
Proof.
  intros Hstep (gs & Hgs & Hq & Hsum).
  destruct a as [|i|i]; simpl in Hstep.
  - destruct (queue s) as [|video q] eqn:Hqs; [done|].
    case_bool_decide; [|done]. injection Hstep as <-.
    exists (gs ++ [MAX_RETRIES + 1]). simpl in *.
    rewrite sum_list_with_app. simpl. repeat split; [|lia|unfold MAX_RETRIES in *; lia].
    apply Forall2_app; [done|]. repeat constructor.
    apply within_budget_download_video_wrapper.
  - destruct (running s !! i) as [[video [r|x|A eff k]]|] eqn:Hi; try done.
    injection Hstep as <-. simpl.
    destruct (Forall2_lookup_r _ _ _ _ _ Hgs Hi) as (g & Hg & Hp).
    unfold within_budget in Hp. simpl in Hp.
    assert (∀ a, within_budget g (k a) →
      Forall2 (λ g vt, within_budget g vt.2) gs (<[i:=(video, k a)]> (running s)))
      as Hsame.
    { intros a Ha. rewrite <- (list_insert_id gs i g) by done.
      by apply Forall2_insert. }
    unfold within_budget in Hsame at 1.
    destruct eff as [path|cmd timeout|A body|l]; simpl in *.
    + exists gs. simpl. unfold MAX_RETRIES in *. simpl in *. auto.
    + destruct Hp as (g' & -> & Hk). exists (<[i:=g']> gs). simpl.
      pose proof (sum_list_insert gs i (S g') g' Hg) as Hs.
      rewrite invocations_snoc.
      repeat split; [apply Forall2_insert; [done|apply Hk]|done|unfold MAX_RETRIES in *; simpl in *; lia].
    + exists gs. simpl. unfold MAX_RETRIES in *. simpl in *. auto.
    + exists gs. simpl. rewrite invocations_snoc, Nat.add_0_r.
      unfold MAX_RETRIES in *. simpl in *. auto.
  - destruct (running s !! i) as [[video [r|x|A eff k]]|] eqn:Hi; try done.
    + injection Hstep as <-.
      destruct (Forall2_lookup_r _ _ _ _ _ Hgs Hi) as (g & Hg & Hp).
      pose proof (sum_list_delete gs i g Hg) as Hs.
      exists (delete i gs). simpl.
      repeat split; [by apply Forall2_delete|done|unfold MAX_RETRIES in *; simpl in *; lia].
    + case_bool_decide; [done|]. injection Hstep as <-.
      destruct (Forall2_lookup_r _ _ _ _ _ Hgs Hi) as (g & Hg & Hp).
      pose proof (sum_list_delete gs i g Hg) as Hs.
      exists (delete i gs). simpl. rewrite invocations_snoc, Nat.add_0_r.
      repeat split; [by apply Forall2_delete|done|unfold MAX_RETRIES in *; simpl in *; lia].
Qed.

End MoreBatch.


(** ** One call of [download_video], attempt after attempt *)

Section MoreRetry.
Context {Env : Type} `{!Host Env}.
Implicit Types (w : World Env) (e : Env) (t u : string).

Lemma download_video_succeeds_after t u total k rc w :
  rc + k ≤ MAX_RETRIES →
  succeeds_after k t u (env w) →
  let r := exec (download_video t u total rc) w in
  r.1 = inr true
  ∧ invocations (out r.2) = invocations (out w) + S k
  ∧ counters r.2 = (count_success (counters w)).2.
Proof.
  revert rc w. induction k as [|k IH]; intros rc w Hk Hsucc; cbv zeta in *;
    rewrite exec_download_video; cbv zeta.
  - destruct Hsucc as [Hr Hp]. rewrite Hr. cbn [after_run env]. rewrite Hp.
    cbn. rewrite !invocations_app. cbn. split; [done|]. split; [lia|done].
  - cbn in Hsucc. destruct Hsucc as [Hr Hnext].
    destruct (run_process (env w) (ytdlp_cmd t u) 1800) as [r e'] eqn:Hrun;
      cbn [fst snd] in *.
    destruct r as [[|code stderr|name]|[]]; try done.
    + rewrite bool_decide_true by lia.
      destruct (IH (rc + 1) (verdict t total id (TimeoutRetry (rc + 1)) (after_run t u total w)))
        as (-> & -> & ->); [lia|cbn; by rewrite Hrun|].
      cbn. rewrite !invocations_app. cbn. split; [done|]. split; [lia|done].
    + rewrite bool_decide_true by lia.
      destruct (IH (rc + 1) (verdict t total id (Retry (rc + 1)) (after_run t u total w)))
        as (-> & -> & ->); [lia|cbn; by rewrite Hrun|].
      cbn. rewrite !invocations_app. cbn. split; [done|]. split; [lia|done].
Qed.

Lemma download_video_failure_line t u total n rc w :
  rc + n = MAX_RETRIES →
  fails_every_attempt (S n) (ytdlp_cmd t u) (env w) →
  last (out (exec (download_video t u total rc) w).2)
  = Some (EvPrint (mkLine (completed_count (counters w) + 1) total
                     (failure_msg (run_after n (ytdlp_cmd t u) (env w))) t)).
Proof.
  revert rc w. induction n as [|n IH]; intros rc w Hn [Hr Hnext];
    rewrite exec_download_video; cbv zeta; cbn [run_after];
    destruct (run_process (env w) (ytdlp_cmd t u) 1800) as [r e'] eqn:Hrun;
    cbn [fst snd] in *;
    destruct r as [[|code stderr|name]|[]]; try done.
  - rewrite bool_decide_false by lia. cbn. by rewrite last_snoc.
  - rewrite bool_decide_false by lia. cbn. by rewrite last_snoc.
  - rewrite bool_decide_true by lia.
    rewrite (IH (rc + 1) (verdict t total id (TimeoutRetry (rc + 1)) (after_run t u total w)));
      [|lia|cbn; by rewrite Hrun]. cbn. by rewrite Hrun.
  - rewrite bool_decide_true by lia.
    rewrite (IH (rc + 1) (verdict t total id (Retry (rc + 1)) (after_run t u total w)));
      [|lia|cbn; by rewrite Hrun]. cbn. by rewrite Hrun.
Qed.

End MoreRetry.


(** ** Strings and paths *)

Lemma string_app_cons x (a b : string) : String x a +:+ b = String x (a +:+ b).
Proof. reflexivity. Qed.

Lemma string_app_assoc (a b c : string) : (a +:+ b) +:+ c = a +:+ (b +:+ c).
Proof. induction a as [|x a IH]; [done|]. rewrite !string_app_cons. by f_equal. Qed.

Lemma startswith_app t ext :
  startswith ext "/" = false → startswith (t +:+ ext) "/" = startswith t "/".
Proof.
  intros Hext. destruct t as [|a t]; [done|].
  rewrite string_app_cons. unfold startswith. cbn [String.prefix].
  destruct (Ascii.ascii_dec _ a); [|done].
  destruct t; [by destruct ext|done].
Qed.

Lemma os_path_join_stem t ext :
  startswith ext "/" = false →
  os_path_join OUTPUT_DIR (t +:+ ext) = path_stem t +:+ ext.
Proof.
  intros Hext. unfold os_path_join, path_stem. rewrite startswith_app by done.
  destruct (startswith t "/"); [done|].
  assert (bool_decide (OUTPUT_DIR = "") || endswith OUTPUT_DIR "/" = false) as ->
    by (by vm_compute).
  by rewrite !string_app_assoc.
Qed.

Lemma extensions_no_slash ext : ext ∈ extensions → startswith ext "/" = false.
Proof.
  unfold extensions. rewrite !elem_of_cons, elem_of_nil.
  intros [->|[->|[->|[->|[]]]]]; reflexivity.
Qed.


(** ** The videos and the exits of [read_video_urls] *)

Section MoreReadVideoUrls.

(** [str.strip] and [str.lower] *)
Variables (strip lower : string → string).

Lemma read_row_video row v :
  read_row strip lower row = inr (Some v) →
  title v ≠ "" ∧ url v ≠ "" ∧ startswith (url v) "http" = true
  ∧ lower (url v) ≠ "privacy url".
Proof.
  unfold read_row.
  destruct (_ || _); [done|].
  destruct (default None _) as [tf|]; [|done].
  destruct (default None _) as [uf|]; [|done].
  case_bool_decide as Ht; [done|]. case_bool_decide as Hu; [done|]. cbn.
  case_bool_decide as Hp; [done|]. cbn.
  destruct (startswith (strip uf) "http") eqn:Hh; [|done]. cbn.
  intros [= <-]. done.
Qed.

Lemma read_rows_Forall (P : Video → Prop) rows videos0 videos :
  (∀ row v, read_row strip lower row = inr (Some v) → P v) →
  Forall P videos0 →
  read_rows strip lower rows videos0 = inr videos → Forall P videos.
Proof.
  intros HP. revert videos0.
  induction rows as [|row rows IH]; intros videos0 H0 Hread; simpl in Hread.
  - by simplify_eq.
  - destruct (read_row strip lower row) as [x|[v|]] eqn:Hrow; [done| |by eauto].
    apply (IH (videos0 ++ [v])); [|done].
    apply Forall_app. split; [done|]. apply Forall_singleton. eauto.
Qed.

Lemma read_row_raises row :
  (∃ x, read_row strip lower row = inl x) ↔ short_row row = true.
Proof.
  unfold read_row, short_row, column.
  destruct (row !! "Title") as [[tf|]|] eqn:HT; cbn;
    [| |destruct (row !! "title") as [[tf|]|] eqn:Ht; cbn];
    (destruct (row !! "URL") as [[uf|]|] eqn:HU; cbn;
     [| |destruct (row !! "url") as [[uf|]|] eqn:Hu; cbn]);
    rewrite ?HT, ?Ht, ?HU, ?Hu; cbn;
    repeat case_bool_decide; cbn;
    try (exfalso; by eauto);
    try destruct (startswith (strip uf) "http"); cbn;
    split; try done; try (by intros [? ?]); eauto.
Qed.

Lemma read_rows_raises rows videos0 :
  (∃ x, read_rows strip lower rows videos0 = inl x)
  ↔ ∃ row, row ∈ rows ∧ short_row row = true.
Proof.
  revert videos0. induction rows as [|row rows IH]; intros videos0; simpl.
  - split; [by intros [? ?]|]. intros (row & Hrow & _). by apply elem_of_nil in Hrow.
  - destruct (read_row strip lower row) as [x|o] eqn:Hrow.
    + split; [|by eauto]. intros _. exists row. split; [left|].
      apply read_row_raises. eauto.
    + assert (short_row row = false) as Hshort.
      { destruct (short_row row) eqn:Hs; [|done].
        apply read_row_raises in Hs as [x Hx]. congruence. }
      assert ((∃ row0, row0 ∈ row :: rows ∧ short_row row0 = true)
              ↔ ∃ row0, row0 ∈ rows ∧ short_row row0 = true) as ->.
      { split; intros (row0 & Hin & Hs); [|exists row0; split; [by right|done]].
        apply elem_of_cons in Hin as [->|Hin]; [congruence|eauto]. }
      destruct o as [v|]; apply IH.
Qed.

End MoreReadVideoUrls.

(** ** Before the batch *)

Section SetupLemmas.
Context {Env : Type} `{!Shell Env}.
Implicit Types (c : Console Env) (e : Env).

Lemma setup_bind_eq {A B : Type} (m : Setup Env A) (f : A → Setup Env B) c :
  (m ≫= f) c = match m c with
               | (inl h, c') => (inl h, c')
               | (inr a, c') => f a c'
               end.
Proof. reflexivity. Qed.

Lemma check_ytdlp_eq c :
  check_ytdlp c =
    let r := run_tool (shell c) ["yt-dlp"; "--version"] in
    (match r.1 with
     | inr _ => inr true
     | inl x => if called_process_or_file_not_found x then inr false
                else inl (Uncaught x)
     end,
     mkConsole r.2 (acts c ++ [Ran ["yt-dlp"; "--version"]])).
Proof.
  unfold check_ytdlp, try_catch. rewrite setup_bind_eq. unfold run_checked.
  cbv zeta.
  destruct (run_tool (shell c) ["yt-dlp"; "--version"]) as [[x|[]] e']; cbn; [|done].
  by destruct (called_process_or_file_not_found x).
Qed.

Lemma install_step pip_cmd (rest : Setup Env bool) c :
  try_catch
    (run_checked [pip_cmd; "install"; "yt-dlp"];; say YtdlpInstalled;; mret true)
    (λ x, if called_process_or_file_not_found x then Some rest else None) c
  = let r := run_tool (shell c) [pip_cmd; "install"; "yt-dlp"] in
    let c' := mkConsole r.2 (acts c ++ [Ran [pip_cmd; "install"; "yt-dlp"]]) in
    match r.1 with
    | inr _ => (inr true, mkConsole r.2 (acts c' ++ [Said YtdlpInstalled]))
    | inl x => if called_process_or_file_not_found x then rest c'
               else (inl (Uncaught x), c')
    end.
Proof.
  unfold try_catch. rewrite setup_bind_eq. unfold run_checked. cbv zeta.
  destruct (run_tool (shell c) _) as [[x|[]] e']; cbn; [|done].
  by destruct (called_process_or_file_not_found x).
Qed.

Lemma install_ytdlp_spec exe c :
  let r := install_ytdlp exe c in
  ∃ n l, 1 ≤ n ≤ 3 ∧ acts r.2 = acts c ++ l
    ∧ deeds l = Ran <$> take n (installers exe)
    ∧ let rs := run_each (take n (installers exe)) (shell c) in
      shell r.2 = rs.2
      ∧ Forall (λ o, ∃ x, o = inl x ∧ called_process_or_file_not_found x = true)
          (take (n - 1) rs.1)
      ∧ match last rs.1 with
        | Some (inr _) => r.1 = inr true
        | Some (inl x) =>
            (n < 3 → called_process_or_file_not_found x = false)
            ∧ r.1 = match x with
                    | CalledProcessError _ _ => inr false
                    | _ => inl (Uncaught x)
                    end
        | None => False
        end.
Proof.
  cbv zeta. remember (install_ytdlp exe c) as r eqn:Hr.
  unfold install_ytdlp in Hr. rewrite setup_bind_eq in Hr. unfold say at 1 in Hr.
  unfold try_catch at 1 in Hr. cbn [install_with] in Hr. rewrite install_step in Hr.
  cbv zeta in Hr. cbn [shell acts] in Hr.
  destruct (run_tool (shell c) ["pip3"; "install"; "yt-dlp"]) as [[x1|[]] e1] eqn:H1;
    cbn [fst snd] in Hr.
  2:{ subst r.
      exists 1, [Said YtdlpNotFound; Ran ["pip3"; "install"; "yt-dlp"]; Said YtdlpInstalled].
      cbn. rewrite H1. cbn. rewrite <- !app_assoc. repeat split; try done; lia. }
  destruct (called_process_or_file_not_found x1) eqn:Hx1.
  2:{ exists 1, [Said YtdlpNotFound; Ran ["pip3"; "install"; "yt-dlp"]].
      destruct x1; try done; subst r;
      cbn; rewrite H1; cbn; rewrite <- !app_assoc;
      repeat split; try done; lia. }
  rewrite install_step in Hr. cbv zeta in Hr. cbn [shell acts] in Hr.
  destruct (run_tool e1 ["pip"; "install"; "yt-dlp"]) as [[x2|[]] e2] eqn:H2;
    cbn [fst snd] in Hr.
  2:{ subst r.
      exists 2, [Said YtdlpNotFound; Ran ["pip3"; "install"; "yt-dlp"];
                 Ran ["pip"; "install"; "yt-dlp"]; Said YtdlpInstalled].
      cbn. rewrite H1. cbn. rewrite H2. cbn. rewrite <- !app_assoc.
      repeat split; try done; try lia. repeat constructor. eauto. }
  destruct (called_process_or_file_not_found x2) eqn:Hx2.
  2:{ exists 2, [Said YtdlpNotFound; Ran ["pip3"; "install"; "yt-dlp"];
                 Ran ["pip"; "install"; "yt-dlp"]].
      destruct x2; try done; subst r;
      cbn; rewrite H1; cbn; rewrite H2; cbn; rewrite <- !app_assoc;
      repeat split; try done; try lia; repeat constructor; eauto. }
  rewrite setup_bind_eq in Hr. unfold run_checked at 1 in Hr. cbv zeta in Hr.
  cbn [shell acts] in Hr.
  destruct (run_tool e2 [exe; "-m"; "pip"; "install"; "yt-dlp"]) as [[x3|[]] e3] eqn:H3;
    cbn [fst snd] in Hr.
  - destruct x3 as [|code stderr|name]; cbn in Hr; subst r.
    + exists 3, [Said YtdlpNotFound; Ran ["pip3"; "install"; "yt-dlp"];
                 Ran ["pip"; "install"; "yt-dlp"];
                 Ran [exe; "-m"; "pip"; "install"; "yt-dlp"]].
      cbn. rewrite H1. cbn. rewrite H2. cbn. rewrite H3. cbn. rewrite <- !app_assoc.
      repeat split; try done; try lia; repeat constructor; eauto.
    + exists 3, [Said YtdlpNotFound; Ran ["pip3"; "install"; "yt-dlp"];
                 Ran ["pip"; "install"; "yt-dlp"];
                 Ran [exe; "-m"; "pip"; "install"; "yt-dlp"];
                 Said InstallFailed; Said InstallHintPip3; Said InstallHintOr;
                 Said InstallHintPip].
      unfold mbind, setup_bind, say, mret, setup_ret. cbn. rewrite H1. cbn. rewrite H2. cbn. rewrite H3. cbn. rewrite <- !app_assoc.
      repeat split; try done; try lia; repeat constructor; eauto.
    + exists 3, [Said YtdlpNotFound; Ran ["pip3"; "install"; "yt-dlp"];
                 Ran ["pip"; "install"; "yt-dlp"];
                 Ran [exe; "-m"; "pip"; "install"; "yt-dlp"]].
      cbn. rewrite H1. cbn. rewrite H2. cbn. rewrite H3. cbn. rewrite <- !app_assoc.
      repeat split; try done; try lia; repeat constructor; eauto.
  - subst r.
    exists 3, [Said YtdlpNotFound; Ran ["pip3"; "install"; "yt-dlp"];
               Ran ["pip"; "install"; "yt-dlp"];
               Ran [exe; "-m"; "pip"; "install"; "yt-dlp"]; Said YtdlpInstalled].
    unfold mbind, setup_bind, say, mret, setup_ret. cbn. rewrite H1. cbn. rewrite H2. cbn. rewrite H3. cbn. rewrite <- !app_assoc.
    repeat split; try done; try lia; repeat constructor; eauto.
Qed.

Lemma read_video_urls_exit_code strip lower file code :
  read_video_urls strip lower file = SysExit code → code = 1.
Proof.
  unfold read_video_urls. destruct file as [rows|]; [|congruence].
  destruct (read_rows strip lower rows []); congruence.
Qed.

Lemma deeds_app l1 l2 : deeds (l1 ++ l2) = deeds l1 ++ deeds l2.
Proof. apply omap_app. Qed.

Lemma deeds_cons a l :
  deeds (a :: l) = match a with Said _ => deeds l | _ => a :: deeds l end.
Proof. by destruct a. Qed.

Lemma deeds_said (ns : list Notice) : deeds (Said <$> ns) = [].
Proof. induction ns as [|n ns IH]; [done|apply IH]. Qed.

Lemma main_tail_spec strip lower (max_workers : Z) c :
  let r := (create_output_dir;;
            say (ReadingFrom CSV_FILE);;
            videos ← read_video_urls_of_host strip lower;
            say (FoundVideos (length videos));;
            mret (max_workers, videos)) c in
  ∃ l, acts r.2 = acts c ++ l ∧
    ((∃ x, r.1 = inl (Uncaught x) ∧ deeds l = [MadeDirs OUTPUT_DIR])
     ∨ (deeds l = [MadeDirs OUTPUT_DIR; Opened CSV_FILE]
        ∧ match r.1 with
          | inr (m, videos) =>
              m = max_workers
              ∧ read_video_urls strip lower (csv_rows (shell r.2) CSV_FILE)
                = Returns videos
          | inl (Exited code) =>
              code = 1
              ∧ read_video_urls strip lower (csv_rows (shell r.2) CSV_FILE)
                = SysExit 1
          | inl (Uncaught _) => False
          end)).
Proof.
  cbv zeta. unfold create_output_dir, mkdir_parents, os_path_abspath,
    read_video_urls_of_host, mbind, setup_bind, say, mret, setup_ret.
  cbn [shell acts].
  destruct (make_dirs (shell c) OUTPUT_DIR) as [[x|[]] e'] eqn:Hmk; cbn [fst snd].
  { exists [MadeDirs OUTPUT_DIR]. split; [done|]. left. eauto. }
  cbn [shell acts].
  destruct (read_video_urls strip lower (csv_rows e' CSV_FILE)) as [videos|code] eqn:Hread;
    cbn [fst snd shell acts].
  - eexists. split; [by rewrite <- !app_assoc|]. right.
    by rewrite !deeds_app, !deeds_cons, deeds_said.
  - pose proof (read_video_urls_exit_code _ _ _ _ Hread) as ->.
    eexists. split; [by rewrite <- !app_assoc|]. right.
    by rewrite !deeds_app, !deeds_cons, deeds_said.
Qed.

Lemma main_setup_spec strip lower exe workers c :
  let max_workers := default (Z.of_nat DEFAULT_MAX_WORKERS) workers in
  let r := main_setup strip lower exe workers c in
  let version := ["yt-dlp"; "--version"] in
  ∃ l, acts r.2 = acts c ++ l ∧
    (((max_workers < 1)%Z ∧ r.1 = inl (Exited 1) ∧ deeds l = [] ∧ shell r.2 = shell c)
     ∨ ((1 ≤ max_workers)%Z ∧ ∃ n, n ≤ 3 ∧
        ((∃ x, r.1 = inl (Uncaught x)
            ∧ deeds l = Ran version :: (Ran <$> take n (installers exe)))
         ∨ (r.1 = inl (Exited 1)
            ∧ deeds l = Ran version :: (Ran <$> installers exe))
         ∨ (ytdlp_ready exe n (shell c)
            ∧ ((∃ x, r.1 = inl (Uncaught x)
                  ∧ deeds l = Ran version :: (Ran <$> take n (installers exe))
                              ++ [MadeDirs OUTPUT_DIR])
               ∨ (deeds l = Ran version :: (Ran <$> take n (installers exe))
                            ++ [MadeDirs OUTPUT_DIR; Opened CSV_FILE]
                  ∧ match r.1 with
                    | inr (m, videos) =>
                        m = max_workers
                        ∧ read_video_urls strip lower (csv_rows (shell r.2) CSV_FILE)
                          = Returns videos
                    | inl (Exited code) =>
                        code = 1
                        ∧ read_video_urls strip lower (csv_rows (shell r.2) CSV_FILE)
                          = SysExit 1
                    | inl (Uncaught _) => False
                    end)))))).
Proof.
  cbv zeta. remember (main_setup strip lower exe workers c) as r eqn:Hr.
  unfold main_setup in Hr. cbv zeta in Hr.
  case_bool_decide as Hw.
  { subst r. exists [Said WorkersAtLeastOne]. split; [done|]. left. done. }
  do 4 (rewrite setup_bind_eq in Hr; unfold say at 1 in Hr;
        cbn [fst snd shell acts] in Hr).
  rewrite setup_bind_eq, check_ytdlp_eq in Hr. cbv zeta in Hr.
  cbn [shell acts] in Hr.
  set (max_workers := default (Z.of_nat DEFAULT_MAX_WORKERS) workers) in *.
  assert (1 ≤ max_workers)%Z as Hw' by lia.
  set (banner := [Said Rule60; Said Heading; Said Rule60;
                  Said (ConcurrentDownloads max_workers)]).
  assert (∀ l, ((((acts c ++ [Said Rule60]) ++ [Said Heading]) ++ [Said Rule60]) ++
                [Said (ConcurrentDownloads max_workers)]) ++ l
               = acts c ++ banner ++ l) as Hacts
    by (intros l; by rewrite <- !app_assoc).
  rewrite Hacts in Hr. clear Hacts.
  unfold ytdlp_ready.
  destruct (run_tool (shell c) ["yt-dlp"; "--version"]) as [[x|[]] e1] eqn:Hv;
    cbn [fst snd] in *.
  - destruct (called_process_or_file_not_found x) eqn:Hx.
    + rewrite !setup_bind_eq in Hr.
      pose proof (install_ytdlp_spec exe
        (mkConsole e1 (acts c ++ banner ++ [Ran ["yt-dlp"; "--version"]]))) as Hinst.
      cbv zeta in Hinst. cbn [shell acts] in Hinst.
      destruct (install_ytdlp exe _) as [[h|installed] c2] eqn:Hi; cbn [fst snd] in *.
      * destruct Hinst as (n & l & Hn & Hl & Hdeeds & Hsh & Hall & Hlast).
        subst r. cbn [fst snd]. exists (banner ++ [Ran ["yt-dlp"; "--version"]] ++ l).
        split; [by rewrite Hl, <- !app_assoc|]. right. split; [done|].
        exists n. split; [lia|]. left.
        destruct (last _) as [[y|[]]|]; [|done..]. destruct Hlast as [_ Hh].
        destruct y; simplify_eq. 
        -- eexists. split; [done|]. by rewrite !deeds_app, Hdeeds.
        -- eexists. split; [done|]. by rewrite !deeds_app, Hdeeds.
      * destruct Hinst as (n & l & Hn & Hl & Hdeeds & Hsh & Hall & Hlast).
        destruct installed.
        -- unfold mret at 1 in Hr. unfold setup_ret at 1 in Hr.
           pose proof (main_tail_spec strip lower max_workers c2) as Htail.
           cbv zeta in Htail. rewrite <- Hr in Htail.
           destruct Htail as (l' & Hl' & Htail).
           exists (banner ++ [Ran ["yt-dlp"; "--version"]] ++ l ++ l').
           split; [by rewrite Hl', Hl, <- !app_assoc|]. right. split; [done|].
           exists n. split; [lia|]. right. right.
           destruct n as [|n]; [lia|]. split.
           { split; [eauto|].
             destruct (last _) as [[y|[]]|]; [|done..]. destruct Hlast as [_ Hh].
             by destruct y. }
           destruct Htail as [(y & Hy & Hd)|[Hd Hres]]; [left|right].
           ++ exists y. split; [done|]. by rewrite !deeds_app, Hdeeds, Hd.
           ++ split; [|done]. by rewrite !deeds_app, Hdeeds, Hd.
        -- unfold sys_exit in Hr. subst r. cbn [fst snd].
           exists (banner ++ [Ran ["yt-dlp"; "--version"]] ++ l).
           split; [by rewrite Hl, <- !app_assoc|]. right. split; [done|].
           exists 3. split; [lia|]. right. left. split; [done|].
           rewrite !deeds_app, Hdeeds. cbn.
           destruct (last _) as [[y|[]]|] eqn:Hlast'; [|done..].
           destruct Hlast as [Hn3 Hh].
           assert (n = 3) as ->; [|done].
           destruct (decide (n < 3)) as [Hlt|]; [|lia].
           specialize (Hn3 Hlt). by destruct y.
    + subst r. cbn [fst snd]. exists (banner ++ [Ran ["yt-dlp"; "--version"]]).
      split; [done|]. right. split; [done|]. exists 0. split; [lia|]. left.
      eauto.
  - rewrite setup_bind_eq in Hr. unfold mret at 1 in Hr. unfold setup_ret at 1 in Hr.
    pose proof (main_tail_spec strip lower max_workers
      (mkConsole e1 (acts c ++ banner ++ [Ran ["yt-dlp"; "--version"]]))) as Htail.
    cbv zeta in Htail. rewrite <- Hr in Htail. cbn [shell acts] in Htail.
    destruct Htail as (l' & Hl' & Htail).
    exists (banner ++ [Ran ["yt-dlp"; "--version"]] ++ l').
    split; [by rewrite Hl', <- !app_assoc|]. right. split; [done|].
    exists 0. split; [lia|]. right. right. split; [done|].
    destruct Htail as [(y & Hy & Hd)|[Hd Hres]]; [left|right].
    + exists y. split; [done|]. by rewrite !deeds_app, Hd.
    + split; [|done]. by rewrite !deeds_app, Hd.
Qed.

End SetupLemmas.


(** ** Runs on a standard output that may refuse a line *)

Lemma excepted_app o1 o2 : excepted (o1 ++ o2) = excepted o1 ++ excepted o2.
Proof.
  induction o1 as [|ev o1 IH]; [done|]. destruct ev; simpl; by rewrite ?IH.
Qed.

Lemma tally_on_rule_mono (A : Type) (eff : Eff A) g (Q Q' : A → option Status → Prop) :
  (∀ a g', Q a g' → Q' a g') → tally_on_rule A eff g Q → tally_on_rule A eff g Q'.
Proof.
  intros HQ. destruct eff; simpl; [by auto|by auto| |by auto].
  intros [[? ?]|(st & ? & ?)]; [left|right]; eauto 6.
Qed.

Lemma heading_rule_mono total (A : Type) (eff : Eff A) g (Q Q' : A → unit → Prop) :
  (∀ a g', Q a g' → Q' a g') →
  heading_rule total A eff g Q → heading_rule total A eff g Q'.
Proof.
  intros HQ. destruct eff; simpl; [by auto|by auto|by auto|].
  intros [? ?]. auto.
Qed.

Lemma counts_as_success : counts_as success count_success.
Proof. by intros c. Qed.

Lemma counts_as_fail : counts_as failed count_fail.
Proof. by intros c. Qed.

Lemma counts_as_fail_current : counts_as failed count_fail_current.
Proof. by intros c. Qed.

Lemma counts_as_skip : counts_as skipped count_skip.
Proof. by intros c. Qed.

Lemma tally_on_download_video_rec depth t u total rc g :
  along tally_on_rule (download_video_rec depth t u total rc)
    (λ ok g', g' = Some (if ok : bool then success else failed)) (λ _ _, True) g.
Proof.
  revert rc g. induction depth as [|depth IH]; intros rc g; [done|].
  rewrite download_video_rec_S. unfold download_video_body.
  apply along_try_except; [apply tally_on_rule_mono|].
  match goal with
  | |- along _ _ _ ?E _ => assert (∀ x g', E x g') as Hh
  end.
  { intros [|code stderr|name] g'; cbn.
    - left. split; [auto with counts|]. intros current.
      case_bool_decide as Hrc; cbn.
      + intros [x|[]]; cbn; [done|apply IH].
      + right. exists failed. split; [apply counts_as_fail|].
        intros []. by intros [x|[]].
    - left. split; [auto with counts|]. intros current.
      case_bool_decide as Hrc; cbn.
      + intros [x|[]]; cbn; [done|apply IH].
      + right. exists failed. split; [apply counts_as_fail|].
        intros []. by intros [x|[]].
    - right. exists failed. split; [apply counts_as_fail_current|].
      intros current. by intros [x|[]]. }
  cbn -[find_downloaded_file]. left. split; [auto with counts|].
  intros current [x|[]]; cbn -[find_downloaded_file]; [apply Hh|].
  intros [x|[]]; cbn -[find_downloaded_file]; [apply Hh|].
  apply (along_bind tally_on_rule tally_on_rule_mono).
  apply along_find_downloaded_file; [by cbn; auto|]. intros o.
  destruct (truthy o); cbn; right.
  - exists success. split; [apply counts_as_success|].
    intros [] [x|[]]; cbn; [apply Hh|done].
  - exists failed. split; [apply counts_as_fail|].
    intros [] [x|[]]; cbn; [apply Hh|done].
Qed.

Lemma reports_on_download_video_wrapper video total :
  reports_on video None (download_video_wrapper video total).
Proof.
  unfold reports_on, download_video_wrapper.
  apply (along_bind tally_on_rule tally_on_rule_mono).
  apply along_video_exists_loop; [by cbn; auto|]. intros [|]; cbn.
  - right. exists skipped. split; [apply counts_as_skip|].
    intros current. by intros [x|[]].
  - apply (along_bind tally_on_rule tally_on_rule_mono).
    eapply (along_mono tally_on_rule tally_on_rule_mono);
      [| |apply tally_on_download_video_rec]; [|done].
    by intros [|] g' ->.
Qed.

Lemma headed_download_video_rec depth t u total rc :
  headed total (download_video_rec depth t u total rc).
Proof.
  revert rc. induction depth as [|depth IH]; intros rc; [done|].
  rewrite download_video_rec_S. unfold headed, download_video_body.
  apply along_try_except; [apply heading_rule_mono|].
  match goal with
  | |- along _ _ _ ?E _ => assert (∀ x g', E x g') as Hh
  end.
  { intros [|code stderr|name] []; cbn.
    - intros c. case_bool_decide as Hrc; cbn.
      + split; [split; [lia|done]|]. intros [x|[]]; cbn; [done|apply IH].
      + intros c'. split; [split; [lia|done]|]. by intros [x|[]].
    - intros c. case_bool_decide as Hrc; cbn.
      + split; [split; [lia|done]|]. intros [x|[]]; cbn; [done|apply IH].
      + intros c'. split; [split; [lia|done]|]. by intros [x|[]].
    - intros c. split; [split; [lia|done]|]. by intros [x|[]]. }
  cbn -[find_downloaded_file]. intros c. split; [split; [lia|done]|].
  intros [x|[]]; cbn -[find_downloaded_file]; [apply Hh|].
  intros [x|[]]; cbn -[find_downloaded_file]; [apply Hh|].
  apply (along_bind _ (heading_rule_mono total)).
  apply along_find_downloaded_file; [by cbn; auto|]. intros o.
  destruct (truthy o); cbn; intros c'; (split; [split; [lia|done]|]);
    intros [x|[]]; cbn; by try apply Hh.
Qed.

Lemma headed_download_video_wrapper video total :
  headed total (download_video_wrapper video total).
Proof.
  unfold headed, download_video_wrapper.
  apply (along_bind _ (heading_rule_mono total)).
  apply along_video_exists_loop; [by cbn; auto|]. intros [|]; cbn.
  - intros c. split; [split; [lia|done]|]. by intros [x|[]].
  - apply (along_bind _ (heading_rule_mono total)).
    eapply (along_mono _ (heading_rule_mono total));
      [| |apply headed_download_video_rec]; done.
Qed.

Lemma counter_count_fail st c : counter st c ≤ counter st (count_fail c).2.
Proof. destruct st; simpl; lia. Qed.

Section StdoutRuns.
Context {Env : Type} `{!Host Env}.
Variable stdout : list Event → Event → option exn.
Implicit Types (w : World Env) (s : Pool Env).

Lemma handle_on_accepting {A : Type} (eff : Eff A) w :
  accepting stdout → handle_on stdout eff w = handle eff w.
Proof. intros Hacc. destruct eff; simpl; [done..|]. by rewrite Hacc. Qed.

Lemma exec_on_accepting {R : Type} (p : Prog R) w :
  accepting stdout → exec_on stdout p w = exec p w.
Proof.
  intros Hacc. revert w. induction p as [r|x|A eff k IH]; intros w; simpl; [done..|].
  by rewrite handle_on_accepting, IH.
Qed.

Lemma pool_step_on_accepting max_workers total a s :
  accepting stdout →
  pool_step_on stdout max_workers total a s = pool_step max_workers total a s.
Proof.
  intros Hacc. destruct a as [|i|i]; simpl; [done| |].
  - destruct (running s !! i) as [[video [r|x|A eff k]]|]; [done..| |done].
    by rewrite handle_on_accepting.
  - destruct (running s !! i) as [[video [r|x|A eff k]]|]; [done| |done..].
    case_bool_decide; [done|]. unfold main_except_on. by rewrite Hacc.
Qed.

Lemma batch_reaches_on_accepting max_workers videos (e : Env) s :
  accepting stdout →
  batch_reaches_on stdout max_workers videos e s → batch_reaches max_workers videos e s.
Proof.
  intros Hacc [acts Hrun]. exists acts. revert Hrun. generalize (batch_start videos e).
  induction acts as [|a acts IH]; intros s0; simpl; [done|].
  rewrite pool_step_on_accepting by done.
  destruct (pool_step max_workers (length videos) a s0); [apply IH|done].
Qed.

(** What holds when the batch starts and is kept by every step holds in
    every state of the batch. *)
Lemma batch_invariant_on (I : Pool Env → Prop) max_workers videos (e : Env) s :
  I (batch_start videos e) →
  (∀ a s1 s2,
     pool_step_on stdout max_workers (length videos) a s1 = Some s2 → I s1 → I s2) →
  batch_reaches_on stdout max_workers videos e s → I s.
Proof.
  intros Hstart Hkeep [acts Hrun].
  revert Hrun Hstart. generalize (batch_start videos e).
  induction acts as [|a acts IH]; intros s0 Hrun Hs0; simpl in Hrun.
  - by simplify_eq.
  - destruct (pool_step_on stdout max_workers (length videos) a s0) as [s1|] eqn:Hstep;
      [|done].
    eauto.
Qed.

Lemma excepted_handle_on {A : Type} (eff : Eff A) w :
  excepted (out (handle_on stdout eff w).2) = excepted (out w).
Proof.
  destruct eff; simpl; [done| |done|].
  - by rewrite excepted_app, app_nil_r.
  - destruct (stdout _ _); simpl; [done|]. by rewrite excepted_app, app_nil_r.
Qed.

Lemma kept_step max_workers videos a s s' :
  pool_step_on stdout max_workers (length videos) a s = Some s' →
  kept videos s → kept videos s'.
Proof.
  intros Hstep (started & Hv & Hperm).
  destruct a as [|i|i]; simpl in Hstep.
  - destruct (queue s) as [|video q] eqn:Hq; [done|].
    case_bool_decide; [|done]. injection Hstep as <-. unfold kept. simpl.
    exists (started ++ [video]). split; [by rewrite <- app_assoc|].
    rewrite !fmap_app, <- Hperm. simpl.
    rewrite <- !app_assoc. do 2 apply Permutation_app_head.
    apply Permutation_app_comm.
  - destruct (running s !! i) as [[video [r|x|A eff k]]|] eqn:Hi; try done.
    injection Hstep as <-. unfold kept. simpl. exists started. split; [done|].
    rewrite excepted_handle_on, list_fmap_insert. simpl.
    rewrite list_insert_id; [done|]. by rewrite list_lookup_fmap, Hi.
  - destruct (running s !! i) as [[video [r|x|A eff k]]|] eqn:Hi; try done.
    + injection Hstep as <-. unfold kept. simpl. exists started. split; [done|].
      rewrite <- Hperm, !fmap_app, <- !app_assoc. simpl.
      apply Permutation_app_head.
      by rewrite (delete_Permutation (running s) i _ Hi) at 2.
    + case_bool_decide; [done|]. unfold main_except_on in Hstep.
      destruct (stdout _ _); [done|]. injection Hstep as <-. unfold kept. simpl.
      exists started. split; [done|].
      rewrite <- Hperm, excepted_app. simpl.
      apply Permutation_app_head.
      rewrite (delete_Permutation (running s) i _ Hi) at 2. simpl.
      rewrite app_assoc. symmetry. apply Permutation_cons_append.
Qed.

Lemma tallied_on_step max_workers total a s s' :
  pool_step_on stdout max_workers total a s = Some s' → tallied_on s → tallied_on s'.
Proof.
  intros Hstep (gs & Hgs & Hres & Hc).
  destruct a as [|i|i]; simpl in Hstep.
  - destruct (queue s) as [|video q] eqn:Hq; [done|].
    case_bool_decide; [|done]. injection Hstep as <-.
    exists (gs ++ [None]). simpl. repeat split; [|done|].
    + apply Forall2_app; [done|]. repeat constructor.
      apply reports_on_download_video_wrapper.
    + intros st. specialize (Hc st). unfold occurrences in *.
      rewrite sum_list_with_app. simpl. lia.
  - destruct (running s !! i) as [[video [r|x|A eff k]]|] eqn:Hi; try done.
    injection Hstep as <-. simpl.
    destruct (Forall2_lookup_r _ _ _ _ _ Hgs Hi) as (g & Hg & Hp).
    unfold reports_on in Hp. simpl in Hp.
    assert (∀ a, reports_on video g (k a) →
      Forall2 (λ g vt, reports_on vt.1 g vt.2) gs (<[i:=(video, k a)]> (running s)))
      as Hsame.
    { intros a Ha. rewrite <- (list_insert_id gs i g) by done.
      by apply Forall2_insert. }
    unfold reports_on in Hsame at 1.
    destruct eff as [path|cmd timeout|A body|l]; simpl in *.
    + exists gs. simpl. auto.
    + exists gs. simpl. auto.
    + destruct Hp as [[Hro Hk]|(st' & Hst & Hk)].
      * exists gs. simpl. rewrite Hro. auto.
      * exists (<[i:=Some st']> gs). simpl. repeat split; [|done|].
        { apply Forall2_insert; [done|apply Hk]. }
        intros st. specialize (Hc st). rewrite Hst, counter_bump.
        pose proof (sum_list_with_insert
          (λ y, if bool_decide (y = Some st) then 1 else 0) gs i g (Some st') Hg)
          as Hs.
        unfold occurrences in *. simpl in Hs.
        rewrite (bool_decide_ext (Some st' = Some st) (st' = st)) in Hs
          by (split; congruence).
        lia.
    + exists gs. destruct (stdout _ _); simpl; auto.
  - destruct (running s !! i) as [[video [r|x|A eff k]]|] eqn:Hi; try done.
    + injection Hstep as <-.
      destruct (Forall2_lookup_r _ _ _ _ _ Hgs Hi) as (g & Hg & Hp).
      unfold reports_on in Hp. simpl in Hp. destruct Hp as [-> Ht].
      exists (delete i gs). simpl. repeat split.
      * by apply Forall2_delete.
      * apply Forall_app. split; [done|]. by apply Forall_singleton.
      * intros st. specialize (Hc st).
        pose proof (sum_list_with_delete
          (λ y, if bool_decide (y = Some st) then 1 else 0) gs i _ Hg) as Hs.
        unfold occurrences in *. simpl in Hs.
        rewrite (bool_decide_ext (Some (status r) = Some st) (status r = st)) in Hs
          by (split; congruence).
        rewrite !fmap_app, sum_list_with_app. simpl. lia.
    + case_bool_decide; [done|]. unfold main_except_on in Hstep.
      destruct (stdout _ _); [done|]. injection Hstep as <-.
      destruct (Forall2_lookup_r _ _ _ _ _ Hgs Hi) as (g & Hg & Hp).
      exists (delete i gs). simpl. repeat split; [by apply Forall2_delete|done|].
      intros st. specialize (Hc st).
      pose proof (sum_list_with_delete
        (λ y, if bool_decide (y = Some st) then 1 else 0) gs i _ Hg) as Hs.
      pose proof (counter_count_fail st (counters (world s))).
      unfold occurrences in *. simpl in *.
      destruct (bool_decide (g = Some st)); lia.
Qed.

Lemma lines_headed_step max_workers total a s s' :
  pool_step_on stdout max_workers total a s = Some s' →
  lines_headed total s → lines_headed total s'.
Proof.
  intros Hstep [Hrun Hout].
  destruct a as [|i|i]; simpl in Hstep.
  - destruct (queue s) as [|video q] eqn:Hq; [done|].
    case_bool_decide; [|done]. injection Hstep as <-. split; [|done]. simpl.
    apply Forall_app. split; [done|]. apply Forall_singleton.
    apply headed_download_video_wrapper.
  - destruct (running s !! i) as [[video [r|x|A eff k]]|] eqn:Hi; try done.
    injection Hstep as <-.
    pose proof (Forall_lookup_1 _ _ _ _ Hrun Hi) as Hp.
    unfold headed in Hp. simpl in Hp. unfold lines_headed. simpl.
    destruct eff as [path|cmd timeout|A body|l]; simpl in *.
    + split; [|done]. apply Forall_insert; [done|]. apply Hp.
    + split; [apply Forall_insert; [done|]; apply Hp|].
      apply Forall_app. split; [done|]. by apply Forall_singleton.
    + split; [|done]. apply Forall_insert; [done|]. apply Hp.
    + destruct Hp as [Hl Hk]. destruct (stdout _ _); simpl.
      * split; [|done]. apply Forall_insert; [done|]. apply Hk.
      * split; [apply Forall_insert; [done|]; apply Hk|].
        apply Forall_app. split; [done|]. by apply Forall_singleton.
  - destruct (running s !! i) as [[video [r|x|A eff k]]|] eqn:Hi; try done.
    + injection Hstep as <-. split; [|done]. simpl. by apply Forall_delete.
    + case_bool_decide; [done|]. unfold main_except_on in Hstep.
      destruct (stdout _ _); [done|]. injection Hstep as <-.
      split; simpl; [by apply Forall_delete|].
      apply Forall_app. split; [done|]. by apply Forall_singleton.
Qed.

End StdoutRuns.

(** ** Helpers of the further properties *)

Lemma first_existing_Some {Env : Type} `{!Host Env} (e : Env) t exts o :
  first_existing e t exts = Some o →
  ∃ ext, ext ∈ exts ∧ o = os_path_join OUTPUT_DIR (t +:+ ext) ∧ path_exists e o = true.
Proof.
  induction exts as [|ext exts IH]; [done|].
  change (first_existing e t (ext :: exts))
    with (if path_exists e (os_path_join OUTPUT_DIR (t +:+ ext))
          then Some (os_path_join OUTPUT_DIR (t +:+ ext))
          else first_existing e t exts).
  destruct (path_exists e (os_path_join OUTPUT_DIR (t +:+ ext))) eqn:Hp.
  - intros [= <-]. exists ext. split; [left|done].
  - intros Ho. destruct (IH Ho) as (ext' & Hin & Heq & Hex).
    exists ext'. split; [by right|done].
Qed.

Lemma commands_deeds (l : list Act) : commands (deeds l) = commands l.
Proof.
  unfold commands, deeds.
  induction l as [|[n|cmd|path|path] l IH]; cbn; by rewrite ?IH.
Qed.

Lemma commands_app (l1 l2 : list Act) : commands (l1 ++ l2) = commands l1 ++ commands l2.
Proof. apply omap_app. Qed.

Lemma commands_ran (cmds : list (list string)) : commands (Ran <$> cmds) = cmds.
Proof.
  unfold commands. induction cmds as [|cmd cmds IH]; cbn; [done|]. by f_equal.
Qed.

(** * Part V: further properties of the script *)

(** X1.  With any number of workers, and whether the [print]s return or
    raise: every video taken from the queue is with one worker, has one
    result, or has its "Exception downloading" line.  So, when the batch
    is over, the titles of the results and of the "Exception
    downloading" lines are together the titles of the list, each as
    often as the list has it. *)
Theorem pool_keeps_every_video {Env : Type} `{!Host Env}
    (stdout : list Event → Event → option exn)
    (max_workers : nat) (videos : list Video) (e : Env) (s : Pool Env) :
  batch_reaches_on stdout max_workers videos e s →
  (∃ started, videos = started ++ queue s
     ∧ (title <$> (results s).*1) ++ (title <$> (running s).*1)
       ++ excepted (out (world s)) ≡ₚ title <$> started)
  ∧ (batch_over s →
     (title <$> (results s).*1) ++ excepted (out (world s)) ≡ₚ title <$> videos).
Proof.
  intros Hreach.
  assert (kept videos s) as (started & Hv & Hperm).
  { apply (batch_invariant_on stdout (kept videos) max_workers videos e s); [| |done].
    - by exists [].
    - intros a s1 s2. apply kept_step. }
  split; [by exists started|].
  intros [Hq Hr]. rewrite Hq, app_nil_r in Hv. rewrite Hr in Hperm.
  by rewrite Hv.
Qed.

Lemma pool_keeps_every_video_witness :
  let s := run_batch_on ascii_stdout 2 [video_a] (mkSim [] 0 plan_download)
             garbled_schedule in
  batch_reaches_on ascii_stdout 2 [video_a] (mkSim [] 0 plan_download) s
  ∧ batch_over s
  ∧ (title <$> (results s).*1) ++ excepted (out (world s)) ≡ₚ title <$> [video_a].
Proof.
  cbv zeta.
  assert (batch_reaches_on ascii_stdout 2 [video_a] (mkSim [] 0 plan_download)
            (run_batch_on ascii_stdout 2 [video_a] (mkSim [] 0 plan_download)
               garbled_schedule))
    as Hreach by (exists garbled_schedule; vm_compute; reflexivity).
  assert (batch_over
            (run_batch_on ascii_stdout 2 [video_a] (mkSim [] 0 plan_download)
               garbled_schedule))
    as Hover by (vm_compute; split; reflexivity).
  split; [exact Hreach|]. split; [exact Hover|].
  exact (proj2
    (pool_keeps_every_video ascii_stdout 2 [video_a] (mkSim [] 0 plan_download) _ Hreach)
    Hover).
Defined.

(** X2.  With any number of workers, and whether the [print]s return or
    raise: every result carries the title of its video, and each of
    [success_count], [skip_count] and [fail_count] is at least the
    number of results with that status.  On a standard output that takes
    every line, when the batch is over, the three numbers of the summary
    are exactly the numbers of results with the status ['success'],
    ['skipped'] and ['failed']. *)
Theorem summary_counts_results {Env : Type} `{!Host Env}
    (stdout : list Event → Event → option exn)
    (max_workers : nat) (videos : list Video) (e : Env) (s : Pool Env) :
  batch_reaches_on stdout max_workers videos e s →
  Forall (λ vr, res_title vr.2 = title vr.1) (results s)
  ∧ (∀ st, occurrences st (status <$> (results s).*2)
           ≤ counter st (counters (world s)))
  ∧ (accepting stdout → batch_over s →
     ∀ st, counter st (counters (world s))
           = occurrences st (status <$> (results s).*2)).
Proof.
  intros Hreach.
  assert (tallied_on s) as (gs & Hgs & Hres & Hc).
  { apply (batch_invariant_on stdout tallied_on max_workers videos e s); [| |done].
    - exists []. repeat split; [constructor|constructor|by intros []].
    - intros a s1 s2. apply tallied_on_step. }
  split; [done|]. split.
  - intros st. specialize (Hc st). lia.
  - intros Hacc [_ Hr] st.
    assert (tallied s) as (gs' & Hgs' & _ & Hc').
    { apply (batch_invariant tallied max_workers videos e s).
      - apply tallied_start.
      - intros a s1 s2. apply tallied_step.
      - by apply (batch_reaches_on_accepting stdout). }
    rewrite Hr in Hgs'. apply Forall2_nil_inv_r in Hgs' as ->.
    rewrite Hc'. unfold occurrences at 2. simpl. lia.
Qed.

Lemma summary_counts_results_witness :
  let s := run_batch_on utf8_stdout 1 [video_a] (mkSim [] 0 plan_process_error)
             failing_schedule in
  batch_reaches_on utf8_stdout 1 [video_a] (mkSim [] 0 plan_process_error) s
  ∧ accepting utf8_stdout
  ∧ batch_over s
  ∧ fail_count (counters (world s)) = occurrences failed (status <$> (results s).*2).
Proof.
  cbv zeta.
  assert (batch_reaches_on utf8_stdout 1 [video_a] (mkSim [] 0 plan_process_error)
            (run_batch_on utf8_stdout 1 [video_a] (mkSim [] 0 plan_process_error)
               failing_schedule))
    as Hreach by (exists failing_schedule; vm_compute; reflexivity).
  assert (accepting utf8_stdout) as Hacc by (intros o ev; reflexivity).
  assert (batch_over
            (run_batch_on utf8_stdout 1 [video_a] (mkSim [] 0 plan_process_error)
               failing_schedule))
    as Hover by (vm_compute; split; reflexivity).
  split; [exact Hreach|]. split; [exact Hacc|]. split; [exact Hover|].
  exact (proj2 (proj2
    (summary_counts_results utf8_stdout 1 [video_a] (mkSim [] 0 plan_process_error) _
       Hreach))
    Hacc Hover failed).
Defined.

(** X3.  With any number of workers, every progress line of a batch reads
    [[current/total]] with [total] the number of videos of the batch and
    [1 ≤ current], whether the [print]s return or raise; and
    [current ≤ total] on a standard output that takes every line. *)
Theorem progress_numbers_in_range {Env : Type} `{!Host Env}
    (stdout : list Event → Event → option exn)
    (max_workers : nat) (videos : list Video) (e : Env) (s : Pool Env) :
  batch_reaches_on stdout max_workers videos e s →
  Forall (line_headed (length videos)) (out (world s))
  ∧ (accepting stdout → Forall (line_in_range (length videos)) (out (world s))).
Proof.
  intros Hreach. split.
  - apply (batch_invariant_on stdout (lines_headed (length videos))
             max_workers videos e s); [| |done].
    + split; constructor.
    + intros a s1 s2. apply lines_headed_step.
  - intros Hacc.
    apply (batch_invariant (numbers_in_range (length videos)) max_workers videos e s).
    + split; [|constructor]. exists []. split; [constructor|]. simpl. lia.
    + intros a s1 s2. apply numbers_in_range_step.
    + by apply (batch_reaches_on_accepting stdout).
Qed.

Lemma progress_numbers_in_range_witness :
  let s := run_batch_on utf8_stdout 2 [video_a; video_b] (mkSim [] 0 plan_download)
             racing_schedule in
  batch_reaches_on utf8_stdout 2 [video_a; video_b] (mkSim [] 0 plan_download) s
  ∧ accepting utf8_stdout
  ∧ Forall (line_in_range 2) (out (world s)).
Proof.
  cbv zeta.
  assert (batch_reaches_on utf8_stdout 2 [video_a; video_b] (mkSim [] 0 plan_download)
            (run_batch_on utf8_stdout 2 [video_a; video_b] (mkSim [] 0 plan_download)
               racing_schedule))
    as Hreach by (exists racing_schedule; vm_compute; reflexivity).
  assert (accepting utf8_stdout) as Hacc by (intros o ev; reflexivity).
  split; [exact Hreach|]. split; [exact Hacc|].
  exact (proj2
    (progress_numbers_in_range utf8_stdout 2 [video_a; video_b]
       (mkSim [] 0 plan_download) _ Hreach) Hacc).
Defined.

(** X4.  At any number of workers and at any moment of a batch, the
    external process has been run at most [MAX_RETRIES + 1] times for
    each video that has left the queue: a batch of [n] videos never runs
    it more than [4 * n] times. *)
Theorem batch_invocation_budget {Env : Type} `{!Host Env}
    (max_workers : nat) (videos : list Video) (e : Env) (s : Pool Env) :
  batch_reaches max_workers videos e s →
  invocations (out (world s))
  ≤ (MAX_RETRIES + 1) * (length videos - length (queue s))
  ∧ invocations (out (world s)) ≤ 4 * length videos.
Proof.
  intros Hreach.
  assert (budgeted (length videos) s) as (gs & _ & Hq & Hsum).
  { apply (batch_invariant (budgeted (length videos)) max_workers videos e s);
      [| |done].
    - exists []. split; [constructor|]. simpl. split; [done|].
      unfold MAX_RETRIES. lia.
    - intros a s1 s2. apply budgeted_step. }
  unfold MAX_RETRIES in *. split; lia.
Qed.

Lemma batch_invocation_budget_witness :
  let s := run_batch 1 [video_a] (mkSim [] 0 plan_process_error) failing_schedule in
  batch_reaches 1 [video_a] (mkSim [] 0 plan_process_error) s
  ∧ invocations (out (world s)) ≤ 4 * 1.
Proof.
  cbv zeta.
  assert (batch_reaches 1 [video_a] (mkSim [] 0 plan_process_error)
            (run_batch 1 [video_a] (mkSim [] 0 plan_process_error) failing_schedule))
    as Hreach by (exists failing_schedule; vm_compute; reflexivity).
  split; [exact Hreach|].
  exact (proj2
    (batch_invocation_budget 1 [video_a] (mkSim [] 0 plan_process_error) _ Hreach)).
Defined.





(** X8.  The paths that [video_exists] and [download_video] test and the
    output template handed to [yt-dlp] share one stem: the title under
    the output directory or, when the title starts with a slash, the
    title alone, outside the output directory.  [video_exists] tells
    whether the stem exists with one of the four extensions, and the
    file that [download_video] finds is the stem with one of them. *)
Theorem paths_share_stem {Env : Type} `{!Host Env} (t u : string) (w : World Env) :
  ytdlp_cmd t u !! 2 = Some (path_stem t +:+ ".%(ext)s")
  ∧ exec (video_exists t) w
    = (inr (existsb (λ ext, path_exists (env w) (path_stem t +:+ ext)) extensions), w)
  ∧ (∀ o, (exec (find_downloaded_file t extensions) w).1 = inr (Some o) →
          ∃ ext, ext ∈ extensions ∧ o = path_stem t +:+ ext
                 ∧ path_exists (env w) o = true)
  ∧ (startswith t "/" = true → path_stem t = t).
Proof.
  split; [|split; [|split]].
  - unfold ytdlp_cmd. cbn -[os_path_join]. by rewrite os_path_join_stem.
  - rewrite exec_video_exists. unfold present. f_equal. f_equal.
    unfold extensions. cbn -[os_path_join].
    by rewrite !os_path_join_stem.
  - intros o. rewrite exec_find_downloaded_file. cbn [fst]. intros [= Ho].
    destruct (first_existing_Some _ _ _ _ Ho) as (ext & Hin & -> & Hex).
    exists ext. split; [done|]. split; [|done].
    apply os_path_join_stem. by apply extensions_no_slash.
  - unfold path_stem. by intros ->.
Qed.


(** X9.  Every video that [read_video_urls] returns has a non-empty
    title and a URL that starts with "http" and is not "privacy url" in
    any case.  So every command that the batch of [main] runs, with any
    number of workers, ends in a URL that starts with "http". *)
Theorem returned_videos_have_http_urls (strip lower : string → string)
    (file : option (list Row)) (videos : list Video) :
  read_video_urls strip lower file = Returns videos →
  Forall (λ v, title v ≠ "" ∧ startswith (url v) "http" = true
               ∧ lower (url v) ≠ "privacy url") videos
  ∧ (∀ (Env : Type) (H : Host Env) max_workers (e : Env) (s : Pool Env),
       batch_reaches max_workers videos e s →
       Forall (λ ev, match ev with
                     | EvRun cmd _ => ∃ u, last cmd = Some u ∧ startswith u "http" = true
                     | _ => True
                     end) (out (world s))).
Proof.
  unfold read_video_urls. intros Hread.
  destruct file as [rows|]; [|done].
  destruct (read_rows strip lower rows []) as [x|videos'] eqn:Hrows; [done|].
  injection Hread as ->.
  assert (Forall (λ v, title v ≠ "" ∧ startswith (url v) "http" = true
                       ∧ lower (url v) ≠ "privacy url") videos) as Hall.
  { eapply read_rows_Forall; [|constructor|done].
    intros row v Hrow. by destruct (read_row_video _ _ _ _ Hrow) as (? & ? & ? & ?). }
  split; [done|].
  intros Env H max_workers e s Hreach.
  destruct (own_tasks_reaches _ _ _ _ Hreach) as (_ & _ & _ & Hout).
  eapply Forall_impl; [done|]. intros [cmd timeout|l|t x] (v & Hv & Hev); [|done..].
  cbn in Hev. subst cmd. exists (url v). split; [done|].
  eapply Forall_forall in Hall as (_ & Hhttp & _); done.
Qed.

Lemma returned_videos_have_http_urls_witness :
  read_video_urls ascii_strip ascii_lower (Some example_rows)
    = Returns [mkVideo "A" "http://x/a"; mkVideo "F" "https://x/f"]
  ∧ Forall (λ v, title v ≠ "" ∧ startswith (url v) "http" = true
                 ∧ ascii_lower (url v) ≠ "privacy url")
      [mkVideo "A" "http://x/a"; mkVideo "F" "https://x/f"].
Proof.
  assert (read_video_urls ascii_strip ascii_lower (Some example_rows)
          = Returns [mkVideo "A" "http://x/a"; mkVideo "F" "https://x/f"]) as Hread
    by (vm_compute; reflexivity).
  split; [exact Hread|].
  exact (proj1 (returned_videos_have_http_urls ascii_strip ascii_lower _ _ Hread)).
Defined.

(** X10.  [read_video_urls] ends the process, always with status 1, in
    these cases and no other: the CSV file is not there; it cannot be
    opened; reading it raises; or some row has both columns and no field
    where [.strip()] is called, under the title or, the title being a
    string, under the URL.  One such row anywhere in the file is enough:
    the videos of the other rows are lost. *)
Theorem read_video_urls_exits (strip lower : string → string)
    (f : CsvFile) (code : nat) :
  (read_video_urls_from strip lower f = SysExit code
   ↔ code = 1
     ∧ (f = NoSuchFile
        ∨ (∃ x, f = CannotOpen x)
        ∨ ∃ rows failure, f = Reads rows failure
            ∧ (is_Some failure ∨ ∃ row, row ∈ rows ∧ short_row row = true)))
  ∧ read_video_urls_from strip lower NoSuchFile = read_video_urls strip lower None
  ∧ (∀ rows, read_video_urls_from strip lower (Reads rows None)
             = read_video_urls strip lower (Some rows)).
Proof.
  split; [|split; [done|]].
  - destruct f as [|x|rows failure]; simpl.
    + split; [intros [= <-]; by eauto|]. by intros [-> _].
    + split; [intros [= <-]; by eauto 6|]. by intros [-> _].
    + pose proof (read_rows_raises strip lower rows []) as Hraises.
      destruct (read_rows strip lower rows []) as [x|videos] eqn:Hrows.
      * split; [|by intros [-> _]].
        intros [= <-]. split; [done|]. right. right. exists rows, failure.
        split; [done|]. right. apply Hraises. eauto.
      * destruct failure as [x|].
        -- split; [|by intros [-> _]].
           intros [= <-]. split; [done|]. right. right. exists rows, (Some x).
           split; [done|]. left. eauto.
        -- split; [done|].
           intros [_ [|[[x [=]]|(rows' & failure & [= <- <-] & [[x [=]]|Hshort])]]];
             [done|].
           destruct (proj2 Hraises Hshort) as [x Hx]. done.
  - intros rows. simpl. unfold read_video_urls.
    by destruct (read_rows strip lower rows []).
Qed.

(** X11.  [install_ytdlp] runs the installers in the order [pip3], [pip],
    [python -m pip], at least one and at most three of them, and none
    after one that returned normally: it goes on to the next one only
    after a [CalledProcessError] or a [FileNotFoundError].  It returns
    [True] exactly when the last installer run returned normally, and
    [False] exactly when all three were run and [python -m pip] ended
    with a [CalledProcessError]; any other exception leaves the
    function, and it never ends the process itself. *)
Theorem installers_tried_in_order {Env : Type} `{!Shell Env}
    (sys_executable : string) (c : Console Env) :
  let r := install_ytdlp sys_executable c in
  ∃ n, 1 ≤ n ≤ 3
    ∧ commands (acts r.2) = commands (acts c) ++ take n (installers sys_executable)
    ∧ let rs := run_each (take n (installers sys_executable)) (shell c) in
      shell r.2 = rs.2
      ∧ Forall (λ o, ∃ x, o = inl x ∧ called_process_or_file_not_found x = true)
          (take (n - 1) rs.1)
      ∧ (r.1 = inr true ↔ last rs.1 = Some (inr ()))
      ∧ (r.1 = inr false
         ↔ n = 3 ∧ ∃ code stderr, last rs.1 = Some (inl (CalledProcessError code stderr)))
      ∧ (∀ code, r.1 ≠ inl (Exited code)).
Proof.
  cbv zeta.
  destruct (install_ytdlp_spec sys_executable c)
    as (n & l & Hn & Hl & Hdeeds & Hsh & Hall & Hlast).
  exists n. split; [done|]. split.
  { rewrite Hl, commands_app, <- (commands_deeds l), Hdeeds. by rewrite commands_ran. }
  split; [done|]. split; [done|].
  destruct (last _) as [[x|[]]|]; [| |done].
  2:{ rewrite Hlast. split; [done|]. split; [|done].
      split; [done|]. by intros (_ & ? & ? & [=]). }
  destruct Hlast as [Hn3 ->]. split; [|split].
  - destruct x; split; done.
  - destruct x as [|code stderr|name]; split; try done.
    + by intros (_ & ? & ? & [=]).
    + intros _. split; [|by eauto].
      destruct (decide (n < 3)) as [Hlt|]; [|lia]. by specialize (Hn3 Hlt).
    + by intros (_ & ? & ? & [=]).
  - by destruct x.
Qed.

(** X12.  Before the batch, [main] ends the process with status 0 only
    after [--help], with status 2 only when [argparse] refuses the
    command line, and in both cases before anything is run, made or
    opened.  Otherwise it ends with status 1.  By [sys.exit(1)], in three
    cases: the number of workers is below 1 (nothing has been run, made
    or opened); [yt-dlp] was not found and the three installers were run
    in vain (the output directory has not been made, the CSV file has
    not been opened); [read_video_urls] has ended the process, after the
    output directory was made.  Or by an exception that nothing catches,
    which comes from a command or from the making of the output
    directory, before the CSV file is opened. *)
Theorem main_exit_statuses {Env : Type} `{!Shell Env}
    (strip lower : string → string) (sys_executable : string)
    (args : Args) (c : Console Env) (h : Halt) :
  let r := main_before_batch strip lower sys_executable args c in
  let version := ["yt-dlp"; "--version"] in
  r.1 = inl h →
  ∃ l, acts r.2 = acts c ++ l
    ∧ match args with
      | ArgsHelp => h = Exited 0 ∧ deeds l = [] ∧ shell r.2 = shell c
      | ArgsError => h = Exited 2 ∧ deeds l = [] ∧ shell r.2 = shell c
      | ArgsWorkers workers =>
          exit_status h = 1
          ∧ match h with
            | Exited _ =>
                ((default (Z.of_nat DEFAULT_MAX_WORKERS) workers < 1)%Z
                 ∧ deeds l = [] ∧ shell r.2 = shell c)
                ∨ deeds l = Ran version :: (Ran <$> installers sys_executable)
                ∨ ∃ n, n ≤ 3 ∧ ytdlp_ready sys_executable n (shell c)
                    ∧ deeds l = Ran version
                                :: (Ran <$> take n (installers sys_executable))
                                ++ [MadeDirs OUTPUT_DIR; Opened CSV_FILE]
                    ∧ read_video_urls strip lower (csv_rows (shell r.2) CSV_FILE)
                      = SysExit 1
            | Uncaught _ =>
                (1 ≤ default (Z.of_nat DEFAULT_MAX_WORKERS) workers)%Z
                ∧ ∃ n, n ≤ 3
                    ∧ (deeds l = Ran version
                                 :: (Ran <$> take n (installers sys_executable))
                       ∨ deeds l = Ran version
                                   :: (Ran <$> take n (installers sys_executable))
                                   ++ [MadeDirs OUTPUT_DIR])
            end
      end.
Proof.
  cbv zeta. destruct args as [| |workers]; cbn [main_before_batch].
  - intros [= <-]. by exists [Said ArgparseHelp].
  - intros [= <-]. by exists [Said ArgparseError].
  - intros Hexit.
    destruct (main_setup_spec strip lower sys_executable workers c) as (l & Hl & Hcases).
    rewrite Hexit in Hcases. exists l. split; [done|].
    destruct Hcases as [(Hw & [= ->] & Hd & Hsh)|(Hw & n & Hn & Hcases)].
    { split; [done|]. by left. }
    destruct Hcases
      as [(x & [= ->] & Hd)|[[[= ->] Hd]|[Hready [(x & [= ->] & Hd)|[Hd Hres]]]]].
    + split; [done|]. split; [done|]. exists n. split; [done|]. by left.
    + split; [done|]. right. by left.
    + split; [done|]. split; [done|]. exists n. split; [done|]. by right.
    + destruct h as [x|code]; [done|]. destruct Hres as [-> Hread].
      split; [done|]. right. right. by exists n.
Qed.

Lemma main_exit_statuses_witness :
  let c := mkConsole (mkBox tools_none [] (Some example_rows)) [] in
  let r := main_before_batch ascii_strip ascii_lower "python3" (ArgsWorkers None) c in
  r.1 = inl (Exited 1)
  ∧ ∃ l, acts r.2 = acts c ++ l.
Proof.
  cbv zeta.
  assert ((main_before_batch ascii_strip ascii_lower "python3" (ArgsWorkers None)
             (mkConsole (mkBox tools_none [] (Some example_rows)) [])).1
          = inl (Exited 1)) as Hexit by (vm_compute; reflexivity).
  split; [exact Hexit|].
  destruct (main_exit_statuses ascii_strip ascii_lower "python3" (ArgsWorkers None)
              _ _ Hexit) as (l & Hl & _).
  exists l. exact Hl.
Defined.

(** X13.  [main] starts the batch only with at least one worker, the
    number given on the command line or [DEFAULT_MAX_WORKERS], and only
    when [yt-dlp --version] has returned normally or, after it failed,
    one of the installers has; [yt-dlp] is not checked again after it
    has been installed.  The output directory is made before the CSV
    file is opened, and the videos of the batch are those that
    [read_video_urls] returns for the file. *)
Theorem main_starts_batch {Env : Type} `{!Shell Env}
    (strip lower : string → string) (sys_executable : string)
    (workers : option Z) (c : Console Env) (max_workers : Z) (videos : list Video) :
  let r := main_setup strip lower sys_executable workers c in
  let version := ["yt-dlp"; "--version"] in
  r.1 = inr (max_workers, videos) →
  max_workers = default (Z.of_nat DEFAULT_MAX_WORKERS) workers
  ∧ (1 ≤ max_workers)%Z
  ∧ ∃ n l, n ≤ 3 ∧ ytdlp_ready sys_executable n (shell c)
      ∧ acts r.2 = acts c ++ l
      ∧ deeds l = Ran version :: (Ran <$> take n (installers sys_executable))
                  ++ [MadeDirs OUTPUT_DIR; Opened CSV_FILE]
      ∧ read_video_urls strip lower (csv_rows (shell r.2) CSV_FILE) = Returns videos.
Proof.
  cbv zeta. intros Hret.
  destruct (main_setup_spec strip lower sys_executable workers c) as (l & Hl & Hcases).
  rewrite Hret in Hcases.
  destruct Hcases as [(_ & [=] & _)|(Hw & n & Hn & Hcases)].
  destruct Hcases as [(x & [=] & _)|[[[=] _]|[Hready [(x & [=] & _)|[Hd [-> Hread]]]]]].
  split; [done|]. split; [done|]. by exists n, l.
Qed.

Lemma main_starts_batch_witness :
  let c := mkConsole (mkBox tools_pip_only [] (Some example_rows)) [] in
  let r := main_setup ascii_strip ascii_lower "python3" None c in
  r.1 = inr (8%Z, [mkVideo "A" "http://x/a"; mkVideo "F" "https://x/f"])
  ∧ ∃ n, n ≤ 3 ∧ ytdlp_ready "python3" n (shell c).
Proof.
  cbv zeta.
  assert ((main_setup ascii_strip ascii_lower "python3" None
             (mkConsole (mkBox tools_pip_only [] (Some example_rows)) [])).1
          = inr (8%Z, [mkVideo "A" "http://x/a"; mkVideo "F" "https://x/f"])) as Hret
    by (vm_compute; reflexivity).
  split; [exact Hret|].
  destruct (main_starts_batch ascii_strip ascii_lower "python3" None _ _ _ Hret)
    as (_ & _ & n & l & Hn & Hready & _).
  exists n. split; [exact Hn|exact Hready].
Defined.
